(** * HTML code checker: the analysis core of [app.py]

    A shallow embedding of the three functions of [app.py] that carry the
    logic of the tool, [calculate_similarity], [check_ai_indicators] and
    [analyze_code_structure], together with the library behaviour they rely
    on (Python's [str] methods, [re], [difflib.SequenceMatcher],
    [html.parser] as driven by Beautiful Soup), and the properties of the
    specification proved or refuted against them. *)

From Stdlib Require Import ZArith NArith QArith List Bool Ascii String Lia.
From Stdlib Require Import DecimalString Sorted.
From stdpp Require Import gmap.

Import ListNotations.
Local Open Scope nat_scope.

(** ** Text

    A Python [str] is a sequence of Unicode code points.  String literals
    of the source are ASCII and are written as Rocq strings, then turned
    into code points with [lit]. *)

Definition text := list N.

Definition lit (s : string) : text :=
  List.map N_of_ascii (list_ascii_of_string s).

(** [str.isspace] on one code point; the regular-expression class [\s] of
    a [str] pattern is the same set. *)
Definition isspace (c : N) : bool :=
  ((9 <=? c) && (c <=? 13) || (28 <=? c) && (c <=? 32)
   || (c =? 133) || (c =? 160) || (c =? 5760)
   || (8192 <=? c) && (c <=? 8202)
   || (c =? 8232) || (c =? 8233) || (c =? 8239) || (c =? 8287)
   || (c =? 12288))%N.

Fixpoint lstrip (s : text) : text :=
  match s with
  | c :: tl => if isspace c then lstrip tl else s
  | [] => []
  end.

Definition rstrip (s : text) : text := rev (lstrip (rev s)).

(** [s.strip()] *)
Definition strip (s : text) : text := rstrip (lstrip s).

Definition text_eqb (a b : text) : bool := bool_decide (a = b).

(** [s.startswith(p)] *)
Fixpoint startswith (p s : text) : bool :=
  match p, s with
  | [], _ => true
  | x :: p', y :: s' => (x =? y)%N && startswith p' s'
  | _ :: _, [] => false
  end.

(** [sub in s] *)
Fixpoint contains (sub s : text) : bool :=
  startswith sub s ||
  match s with
  | [] => false
  | _ :: tl => contains sub tl
  end.

(** [s.count(sub)] for a non-empty [sub]: occurrences are counted from the
    left and do not overlap.  [skip] is the number of characters still
    covered by the occurrence counted last. *)
Fixpoint count_from (sub s : text) (skip : nat) : nat :=
  match s with
  | [] => 0
  | _ :: tl =>
      match skip with
      | S k => count_from sub tl k
      | O => if startswith sub s
             then S (count_from sub tl (length sub - 1))
             else count_from sub tl 0
      end
  end.

Definition count (sub s : text) : nat := count_from sub s 0.

(** [s.find(sub, i)] as an offset from the start of [s], for a
    one-character [sub]. *)
Fixpoint find_char (c : N) (s : text) (i : nat) : option nat :=
  match s with
  | [] => None
  | x :: tl =>
      match i with
      | S i' => option_map S (find_char c tl i')
      | O => if (x =? c)%N then Some 0 else option_map S (find_char c tl 0)
      end
  end.

(** [s[i:j]] for [0 <= i], [0 <= j]. *)
Definition slice (s : text) (i j : nat) : text := firstn (j - i) (skipn i s).

(** [s.lower()] restricted to ASCII letters.  Names lowered this way are
    only ever compared with the constants [div], [class], [script],
    [style] and [<!doctype] and with the keywords of marked sections.  No
    character outside ASCII lowers to a single letter of those words (the
    Kelvin sign lowers to [k], and U+0130 to [i] followed by a combining
    dot), so the comparisons agree with the full Unicode mapping. *)
Definition lower_char (c : N) : N :=
  if ((65 <=? c) && (c <=? 90))%N then (c + 32)%N else c.

Definition lower (s : text) : text := List.map lower_char s.

(** ** Outcomes of a call: a value, or a raised exception *)

Inductive exn :=
| AssertionError (msg : string)
| ParserRejectedMarkup
| IndexError
| ValueError.

(** [Diverges] stands for a loop that never exits; no handler catches it. *)
Inductive outcome (A : Type) :=
| Returns (a : A)
| Raises (e : exn)
| Diverges.
Arguments Returns {A} a.
Arguments Raises {A} e.
Arguments Diverges {A}.

Definition bind {A B} (m : outcome A) (f : A -> outcome B) : outcome B :=
  match m with
  | Returns a => f a
  | Raises e => Raises e
  | Diverges => Diverges
  end.

Notation "x <- m ;; f" := (bind m (fun x => f))
  (at level 100, m at next level, right associativity).

(** [try: body  except: handler] with a bare [except]. *)
Definition try_except {A} (body : outcome A) (handler : exn -> outcome A)
  : outcome A :=
  match body with
  | Returns a => Returns a
  | Raises e => handler e
  | Diverges => Diverges
  end.

(** ** Regular expressions

    The fragment of Python's [re] that the program and its parser use, with
    the matching order of a backtracking engine: alternatives left to
    right, greedy repetition longest first, lazy repetition shortest
    first.  Positions are offsets into the subject; [prev] is the character
    before the current position, which is what [^] under [re.MULTILINE] and
    a one-character look-behind inspect. *)

Inductive regex :=
| Empty
| Class (p : N -> bool)
| Cat (r1 r2 : regex)
| Or (r1 r2 : regex)
| Star (greedy : bool) (r : regex)
| Group (n : nat) (r : regex)
| Ahead (positive : bool) (r : regex)
| Behind (p : N -> bool)
| Bol.

Record mstate := MState {
  pos : nat;
  prev : option N;
  rest : text;
  caps : list (nat * (nat * nat))
}.

Definition set_cap (n : nat) (span : nat * nat) (st : mstate) : mstate :=
  MState (pos st) (prev st) (rest st) ((n, span) :: caps st).

(** Repetition of a pattern whose matcher is [body], followed by the
    continuation [k].  A turn that consumes no character is not taken, so
    [fuel] turns suffice when [fuel] exceeds the length of the text that is
    left. *)
Fixpoint star_loop (body : mstate -> (mstate -> option mstate) -> option mstate)
  (greedy : bool) (k : mstate -> option mstate) (fuel : nat) (st : mstate)
  : option mstate :=
  match fuel with
  | O => k st
  | S fuel' =>
      let again (_ : unit) :=
        body st (fun st' =>
          if pos st <? pos st' then star_loop body greedy k fuel' st'
          else None) in
      if greedy then
        match again tt with
        | Some res => Some res
        | None => k st
        end
      else
        match k st with
        | Some res => Some res
        | None => again tt
        end
  end.

(** [exec r st k] matches [r] at the state [st] and hands the state after
    the match to the continuation [k]; when [k] fails the next way of
    matching [r] is tried. *)
Fixpoint exec (r : regex) (st : mstate) (k : mstate -> option mstate)
  {struct r} : option mstate :=
  match r with
  | Empty => k st
  | Class p =>
      match rest st with
      | c :: tl =>
          if p c then k (MState (S (pos st)) (Some c) tl (caps st)) else None
      | [] => None
      end
  | Cat r1 r2 => exec r1 st (fun st' => exec r2 st' k)
  | Or r1 r2 =>
      match exec r1 st k with
      | Some res => Some res
      | None => exec r2 st k
      end
  | Star greedy r1 => star_loop (exec r1) greedy k (S (length (rest st))) st
  | Group n r1 => exec r1 st (fun st' => k (set_cap n (pos st, pos st') st'))
  | Ahead positive r1 =>
      match exec r1 st Some with
      | Some _ => if positive then k st else None
      | None => if positive then None else k st
      end
  | Behind p =>
      match prev st with
      | Some c => if p c then k st else None
      | None => None
      end
  | Bol =>
      match prev st with
      | None => k st
      | Some c => if (c =? 10)%N then k st else None
      end
  end.

(** The state of a match that starts at offset [i] of [s]. *)
Definition at_pos (s : text) (i : nat) : mstate :=
  MState i (match i with O => None | S j => nth_error s j end) (skipn i s) [].

(** [pattern.match(s, i)] *)
Definition re_match (r : regex) (s : text) (i : nat) : option mstate :=
  exec r (at_pos s i) Some.

(** [pattern.search]: the first offset, from the current one on, at which
    the pattern matches. *)
Fixpoint search_from (r : regex) (p : nat) (pv : option N) (s : text)
  : option (nat * mstate) :=
  match exec r (MState p pv s []) Some with
  | Some st => Some (p, st)
  | None =>
      match s with
      | [] => None
      | c :: tl => search_from r (S p) (Some c) tl
      end
  end.

(** [pattern.search(s, i)] *)
Definition re_search (r : regex) (s : text) (i : nat) : option (nat * mstate) :=
  let st := at_pos s i in search_from r (pos st) (prev st) (rest st).

(** [pattern.findall]: the spans of the successive matches, each search
    resuming where the previous match ended.  [skip] counts the characters
    of the last match that are still to be passed over. *)
Fixpoint findall_from (r : regex) (p : nat) (pv : option N) (s : text)
  (skip : nat) : list (nat * nat) :=
  match skip with
  | S k =>
      match s with
      | [] => []
      | c :: tl => findall_from r (S p) (Some c) tl k
      end
  | O =>
      match exec r (MState p pv s []) Some with
      | Some st =>
          (p, pos st) ::
          match s with
          | [] => []
          | c :: tl => findall_from r (S p) (Some c) tl (pos st - p - 1)
          end
      | None =>
          match s with
          | [] => []
          | c :: tl => findall_from r (S p) (Some c) tl 0
          end
      end
  end.

Definition re_findall (r : regex) (s : text) : list (nat * nat) :=
  findall_from r 0 None s 0.

(** Truth value of a match object or [None]. *)
Definition found {A} (m : option A) : bool :=
  match m with Some _ => true | None => false end.

(** The span captured by group [n], if the group took part in the match. *)
Fixpoint group (n : nat) (cs : list (nat * (nat * nat))) : option (nat * nat) :=
  match cs with
  | [] => None
  | (m, span) :: tl => if Nat.eqb m n then Some span else group n tl
  end.

(** Pattern syntax. *)
Definition chr (c : string) : regex :=
  Class (fun x => bool_decide ([x] = lit c)).
Fixpoint str_re (s : text) : regex :=
  match s with
  | [] => Empty
  | c :: tl => Cat (Class (N.eqb c)) (str_re tl)
  end.
Definition str (s : string) : regex := str_re (lit s).
Definition any : regex := Class (fun _ => true).
Definition one_of (s : string) (c : N) : bool := existsb (N.eqb c) (lit s).
Definition in_range (a b : string) (c : N) : bool :=
  match lit a, lit b with
  | [lo], [hi] => ((lo <=? c) && (c <=? hi))%N
  | _, _ => false
  end.
Definition star (r : regex) : regex := Star true r.
Definition plus (r : regex) : regex := Cat r (Star true r).
Definition opt (r : regex) : regex := Or r Empty.
Definition is_alpha (c : N) : bool := in_range "a" "z" c || in_range "A" "Z" c.
Definition is_digit (c : N) : bool := in_range "0" "9" c.

(** The double quote, kept out of string literals. *)
Definition dq : text := [34%N].

(** ** The indicator scorer: [check_ai_indicators] *)

(** [r'^\s{2}'] under [re.MULTILINE] *)
Definition indent_re : regex := Cat Bol (Cat (Class isspace) (Class isspace)).

(** [r'<!--.*?-->'] under [re.DOTALL] *)
Definition comment_re : regex :=
  Cat (str "<!--") (Cat (Star false any) (str "-->")).

(** [r'class="[a-z-]+"'] *)
Definition kebab_re : regex :=
  Cat (str "class=")
    (Cat (str_re dq)
       (Cat (plus (Class (fun c => in_range "a" "z" c || one_of "-" c)))
          (str_re dq))).

Definition bootstrap_classes : list text :=
  [lit "container"; lit "row"; lit "col-"; lit "bg-"; lit "text-";
   lit "mt-"; lit "mb-"; lit "p-"].

(** [str(n)] for a non-negative integer, as an f-string interpolates it. *)
Definition str_of_nat (n : nat) : string :=
  NilEmpty.string_of_uint (Nat.to_uint n).

(** [min(a, b)]: the first argument unless the second is smaller. *)
Definition py_min (a b : Q) : Q := if Qle_bool a b then a else b.

(** The conditions of the ten [if] statements, in source order. *)
Definition has_indentation (code : text) : bool :=
  found (re_search indent_re code 0).
Definition comment_count (code : text) : nat :=
  length (re_findall comment_re code).
Definition has_semantic_tags (code : text) : bool :=
  contains (lit "<header>") code || contains (lit "<section>") code
  || contains (lit "<article>") code.
Definition bootstrap_count (code : text) : nat :=
  length (List.filter (fun cls => contains cls code) bootstrap_classes).
Definition has_custom_css_and_media (code : text) : bool :=
  contains (lit "<style>") code && contains (lit "@media") code.
Definition has_kebab_class (code : text) : bool :=
  found (re_search kebab_re code 0).
Definition has_doctype_and_viewport (code : text) : bool :=
  contains (lit "<!DOCTYPE html>") code && contains (lit "viewport") code.
Definition has_cdn_link (code : text) : bool :=
  contains (lit "cdn.jsdelivr.net") code
  || contains (lit "cdnjs.cloudflare.com") code.
Definition has_nested_rows (code : text) : bool :=
  2 <=? count (lit "<div class=" ++ dq ++ lit "row") code.
Definition has_lang_and_charset (code : text) : bool :=
  contains (lit "lang=" ++ dq ++ lit "en" ++ dq) code
  && contains (lit "charset=" ++ dq ++ lit "UTF-8" ++ dq) code.

(** The two labels that interpolate a count. *)
Definition comments_label (n : nat) : string :=
  String.append "Multiple descriptive comments ("
    (String.append (str_of_nat n) " found)").
Definition bootstrap_label (n : nat) : string :=
  String.append "Extensive Bootstrap utility classes ("
    (String.append (str_of_nat n) " types)").

(** The body of [check_ai_indicators] up to its [return]: the values of
    [ai_score] and [indicators] after the ten checks.  [ai_score] is a
    Python number that only ever holds multiples of one half between 0 and
    9; binary floating point is exact on these, and the value is modelled
    as the rational it denotes. *)
Definition ai_checks (code : text) : Q * list string :=
  let ai_score := 0%Q in
  let indicators := @nil string in
  (* Check for perfect formatting *)
  let '(ai_score, indicators) :=
    if has_indentation code
    then ((ai_score + 1)%Q,
          indicators ++ ["Consistent 2-space indentation"%string])
    else (ai_score, indicators) in
  (* Check for comments *)
  let '(ai_score, indicators) :=
    if 3 <=? comment_count code
    then ((ai_score + (3 # 2))%Q,
          indicators ++ [comments_label (comment_count code)])
    else (ai_score, indicators) in
  (* Check for semantic HTML structure *)
  let '(ai_score, indicators) :=
    if has_semantic_tags code
    then ((ai_score + (1 # 2))%Q,
          indicators ++ ["Semantic HTML5 elements"%string])
    else (ai_score, indicators) in
  (* Check for Bootstrap classes *)
  let '(ai_score, indicators) :=
    if 6 <=? bootstrap_count code
    then ((ai_score + 1)%Q,
          indicators ++ [bootstrap_label (bootstrap_count code)])
    else (ai_score, indicators) in
  (* Check for custom CSS *)
  let '(ai_score, indicators) :=
    if has_custom_css_and_media code
    then ((ai_score + 1)%Q,
          indicators ++ ["Custom CSS with media queries"%string])
    else (ai_score, indicators) in
  (* Check for consistent naming conventions *)
  let '(ai_score, indicators) :=
    if has_kebab_class code
    then ((ai_score + (1 # 2))%Q,
          indicators ++ ["Consistent kebab-case naming"%string])
    else (ai_score, indicators) in
  (* Check for proper DOCTYPE and meta tags *)
  let '(ai_score, indicators) :=
    if has_doctype_and_viewport code
    then ((ai_score + 1)%Q,
          indicators ++ ["Proper HTML5 structure with meta viewport"%string])
    else (ai_score, indicators) in
  (* Check for CDN links *)
  let '(ai_score, indicators) :=
    if has_cdn_link code
    then ((ai_score + 1)%Q, indicators ++ ["CDN links for libraries"%string])
    else (ai_score, indicators) in
  (* Check for nested grid structures *)
  let '(ai_score, indicators) :=
    if has_nested_rows code
    then ((ai_score + 1)%Q,
          indicators ++ ["Complex nested grid structure"%string])
    else (ai_score, indicators) in
  (* Check for accessibility considerations *)
  let '(ai_score, indicators) :=
    if has_lang_and_charset code
    then ((ai_score + (1 # 2))%Q,
          indicators ++ ["Accessibility and encoding attributes"%string])
    else (ai_score, indicators) in
  (ai_score, indicators).

(** [return min(ai_score, 10), indicators] *)
Definition check_ai_indicators (code : text) : Q * list string :=
  let '(ai_score, indicators) := ai_checks code in
  (py_min ai_score 10, indicators).

(** *** The battery of checks as the specification lists it

    Ten triples of a predicate, a weight and a label, in evaluation order;
    the score is the sum of the weights of the checks that trigger, capped
    at 10, and the indicators are their labels. *)

Record check := {
  triggers : text -> bool;
  weight : Q;
  label : text -> string
}.

Definition battery : list check :=
  [ {| triggers := has_indentation; weight := 1;
       label := fun _ => "Consistent 2-space indentation"%string |};
    {| triggers := fun code => 3 <=? comment_count code; weight := 3 # 2;
       label := fun code => comments_label (comment_count code) |};
    {| triggers := has_semantic_tags; weight := 1 # 2;
       label := fun _ => "Semantic HTML5 elements"%string |};
    {| triggers := fun code => 6 <=? bootstrap_count code; weight := 1;
       label := fun code => bootstrap_label (bootstrap_count code) |};
    {| triggers := has_custom_css_and_media; weight := 1;
       label := fun _ => "Custom CSS with media queries"%string |};
    {| triggers := has_kebab_class; weight := 1 # 2;
       label := fun _ => "Consistent kebab-case naming"%string |};
    {| triggers := has_doctype_and_viewport; weight := 1;
       label := fun _ => "Proper HTML5 structure with meta viewport"%string |};
    {| triggers := has_cdn_link; weight := 1;
       label := fun _ => "CDN links for libraries"%string |};
    {| triggers := has_nested_rows; weight := 1;
       label := fun _ => "Complex nested grid structure"%string |};
    {| triggers := has_lang_and_charset; weight := 1 # 2;
       label := fun _ => "Accessibility and encoding attributes"%string |} ].

Definition triggered (code : text) : list check :=
  List.filter (fun c => triggers c code) battery.

Definition sum_weights (ws : list Q) : Q :=
  fold_left Qplus ws 0%Q.

Definition score_indicators_spec (code : text) : Q * list string :=
  (py_min (sum_weights (List.map weight (triggered code))) 10,
   List.map (fun c => label c code) (triggered code)).

(** The weight that goes with a label of the indicators list. *)
Definition weight_of_label (l : string) : Q :=
  if String.eqb l "Consistent 2-space indentation" then 1
  else if String.prefix "Multiple descriptive comments (" l then 3 # 2
  else if String.eqb l "Semantic HTML5 elements" then 1 # 2
  else if String.prefix "Extensive Bootstrap utility classes (" l then 1
  else if String.eqb l "Custom CSS with media queries" then 1
  else if String.eqb l "Consistent kebab-case naming" then 1 # 2
  else if String.eqb l "Proper HTML5 structure with meta viewport" then 1
  else if String.eqb l "CDN links for libraries" then 1
  else if String.eqb l "Complex nested grid structure" then 1
  else if String.eqb l "Accessibility and encoding attributes" then 1 # 2
  else 0.

(** ** The similarity scorer: [difflib.SequenceMatcher] and
    [calculate_similarity] *)

(** [s[i]]: a negative index counts from the end, an index outside the
    sequence raises [IndexError]. *)
Definition py_index (s : text) (i : Z) : outcome N :=
  let n := Z.of_nat (length s) in
  let i' := if (i <? 0)%Z then (i + n)%Z else i in
  if ((0 <=? i') && (i' <? n))%Z then
    match nth_error s (Z.to_nat i') with
    | Some c => Returns c
    | None => Raises IndexError
    end
  else Raises IndexError.

(** [range(lo, hi)] *)
Definition py_range (lo hi : Z) : list Z :=
  List.map (fun k => (lo + Z.of_nat k)%Z) (List.seq 0 (Z.to_nat (hi - lo))).

(** The attributes of a [SequenceMatcher] that [ratio] reads. *)
Record SequenceMatcher := {
  seq_a : text;
  seq_b : text;
  b2j : gmap N (list Z);
  bjunk : gset N;
  bpopular : gset N
}.

(** First loop of [__chain_b]:
    [for i, elt in enumerate(b): b2j.setdefault(elt, []).append(i)] *)
Fixpoint index_elements (i : Z) (b : text) (b2j : gmap N (list Z))
  : gmap N (list Z) :=
  match b with
  | [] => b2j
  | elt :: tl =>
      index_elements (i + 1) tl (<[elt := default [] (b2j !! elt) ++ [i]]> b2j)
  end.

(** [__chain_b] with [isjunk = None] and [autojunk = True]: no element is
    junk, and in a sequence of 200 elements or more the elements that occur
    more than [n // 100 + 1] times are popular and lose their entry. *)
Definition chain_b (b : text) : gmap N (list Z) * gset N * gset N :=
  let b2j := index_elements 0 b ∅ in
  let junk : gset N := ∅ in
  let n := Z.of_nat (length b) in
  if (200 <=? n)%Z then
    let ntest := (n / 100 + 1)%Z in
    let popular : gset N :=
      dom (filter (fun kv => (ntest < Z.of_nat (length kv.2))%Z) b2j) in
    (filter (fun kv => kv.1 ∉ popular) b2j, junk, popular)
  else (b2j, junk, ∅).

(** [SequenceMatcher(None, a, b)] *)
Definition new_SequenceMatcher (a b : text) : SequenceMatcher :=
  let '(b2j, junk, popular) := chain_b b in
  {| seq_a := a; seq_b := b; b2j := b2j; bjunk := junk; bpopular := popular |}.

Definition isbjunk (m : SequenceMatcher) (c : N) : bool :=
  bool_decide (c ∈ bjunk m).

Definition block := (Z * Z * Z)%type.

(** The inner loop of [find_longest_match], over the positions [j] of
    [a[i]] in [b]. *)
Fixpoint scan_row (i blo bhi : Z) (j2len : gmap Z Z) (js : list Z)
  (newj2len : gmap Z Z) (best : block) : gmap Z Z * block :=
  match js with
  | [] => (newj2len, best)
  | j :: tl =>
      if (j <? blo)%Z then scan_row i blo bhi j2len tl newj2len best
      else if (bhi <=? j)%Z then (newj2len, best)
      else
        let k := (default 0 (j2len !! (j - 1)) + 1)%Z in
        let newj2len := <[j := k]> newj2len in
        let '(besti, bestj, bestsize) := best in
        let best :=
          if (bestsize <? k)%Z then (i - k + 1, j - k + 1, k)%Z else best in
        scan_row i blo bhi j2len tl newj2len best
  end.

(** The outer loop, [for i in range(alo, ahi)]. *)
Fixpoint scan_rows (m : SequenceMatcher) (blo bhi : Z) (rows : list Z)
  (j2len : gmap Z Z) (best : block) : outcome block :=
  match rows with
  | [] => Returns best
  | i :: tl =>
      ai <- py_index (seq_a m) i ;;
      let '(newj2len, best) :=
        scan_row i blo bhi j2len (default [] (b2j m !! ai)) ∅ best in
      scan_rows m blo bhi tl newj2len best
  end.

(** The two [while] loops that grow the best block to the left and to the
    right; [junk] tells whether the loop takes junk elements or the others. *)
Fixpoint extend_left (fuel : nat) (m : SequenceMatcher) (alo blo : Z)
  (junk : bool) (best : block) : outcome block :=
  match fuel with
  | O => Diverges
  | S fuel' =>
      let '(besti, bestj, bestsize) := best in
      if ((alo <? besti) && (blo <? bestj))%Z then
        bj <- py_index (seq_b m) (bestj - 1) ;;
        if eqb (isbjunk m bj) junk then
          ai <- py_index (seq_a m) (besti - 1) ;;
          bj <- py_index (seq_b m) (bestj - 1) ;;
          if (ai =? bj)%N
          then extend_left fuel' m alo blo junk
                 (besti - 1, bestj - 1, bestsize + 1)%Z
          else Returns best
        else Returns best
      else Returns best
  end.

Fixpoint extend_right (fuel : nat) (m : SequenceMatcher) (ahi bhi : Z)
  (junk : bool) (best : block) : outcome block :=
  match fuel with
  | O => Diverges
  | S fuel' =>
      let '(besti, bestj, bestsize) := best in
      if ((besti + bestsize <? ahi) && (bestj + bestsize <? bhi))%Z then
        bj <- py_index (seq_b m) (bestj + bestsize) ;;
        if eqb (isbjunk m bj) junk then
          ai <- py_index (seq_a m) (besti + bestsize) ;;
          bj <- py_index (seq_b m) (bestj + bestsize) ;;
          if (ai =? bj)%N
          then extend_right fuel' m ahi bhi junk (besti, bestj, bestsize + 1)%Z
          else Returns best
        else Returns best
      else Returns best
  end.

(** A [while] loop that moves an index by one each turn runs at most as
    often as the distance it has to cover. *)
Definition turns (distance : Z) : nat := S (Z.to_nat distance).

Definition find_longest_match (m : SequenceMatcher) (alo ahi blo bhi : Z)
  : outcome block :=
  let best := (alo, blo, 0%Z) in
  best <- scan_rows m blo bhi (py_range alo ahi) ∅ best ;;
  best <- extend_left (turns (best.1.1 - alo)) m alo blo false best ;;
  best <- extend_right (turns (ahi - best.1.1 - best.2)) m ahi bhi false best ;;
  best <- extend_left (turns (best.1.1 - alo)) m alo blo true best ;;
  best <- extend_right (turns (ahi - best.1.1 - best.2)) m ahi bhi true best ;;
  Returns best.

(** The [while queue:] loop of [get_matching_blocks].  The Python list
    [queue] is used as a stack: its last element is the head here. *)
Fixpoint match_queue (fuel : nat) (m : SequenceMatcher)
  (queue : list (Z * Z * Z * Z)) (matching_blocks : list block)
  : outcome (list block) :=
  match fuel with
  | O => Diverges
  | S fuel' =>
      match queue with
      | [] => Returns matching_blocks
      | (alo, ahi, blo, bhi) :: queue =>
          x <- find_longest_match m alo ahi blo bhi ;;
          let '(i, j, k) := x in
          if (k =? 0)%Z then match_queue fuel' m queue matching_blocks
          else
            let matching_blocks := matching_blocks ++ [x] in
            let queue :=
              if ((alo <? i) && (blo <? j))%Z
              then (alo, i, blo, j) :: queue else queue in
            let queue :=
              if ((i + k <? ahi) && (j + k <? bhi))%Z
              then ((i + k)%Z, ahi, (j + k)%Z, bhi) :: queue else queue in
            match_queue fuel' m queue matching_blocks
      end
  end.

(** Order of tuples of integers. *)
Definition block_leb (x y : block) : bool :=
  let '(i1, j1, k1) := x in
  let '(i2, j2, k2) := y in
  ((i1 <? i2) || (i1 =? i2) && ((j1 <? j2) || (j1 =? j2) && (k1 <=? k2)))%Z.

Fixpoint insert_block (x : block) (l : list block) : list block :=
  match l with
  | [] => [x]
  | y :: tl => if block_leb x y then x :: l else y :: insert_block x tl
  end.

(** [matching_blocks.sort()] *)
Definition sort_blocks (l : list block) : list block :=
  fold_right insert_block [] l.

(** The loop that merges adjacent blocks, and the two statements after
    it. *)
Fixpoint collapse (blocks : list block) (cur : block)
  (non_adjacent : list block) : list block :=
  let '(i1, j1, k1) := cur in
  match blocks with
  | [] => if (k1 =? 0)%Z then non_adjacent else non_adjacent ++ [cur]
  | (i2, j2, k2) :: tl =>
      if ((i1 + k1 =? i2) && (j1 + k1 =? j2))%Z
      then collapse tl (i1, j1, (k1 + k2)%Z) non_adjacent
      else collapse tl (i2, j2, k2)
             (if (k1 =? 0)%Z then non_adjacent else non_adjacent ++ [cur])
  end.

(** Each block taken off the queue puts back blocks that cover strictly
    less of [a], so the loop body runs at most [2 * len(a) + 1] times. *)
Definition queue_turns (la : Z) : nat := S (S (2 * Z.to_nat la)).

Definition get_matching_blocks (m : SequenceMatcher) : outcome (list block) :=
  let la := Z.of_nat (length (seq_a m)) in
  let lb := Z.of_nat (length (seq_b m)) in
  matching_blocks <- match_queue (queue_turns la) m [(0, la, 0, lb)%Z] [] ;;
  let matching_blocks := sort_blocks matching_blocks in
  let non_adjacent := collapse matching_blocks (0, 0, 0)%Z [] in
  Returns (non_adjacent ++ [(la, lb, 0%Z)]).

(** [_calculate_ratio].  The program computes [2.0 * matches / length] in
    binary floating point; the model keeps the rational [2 * matches /
    length] that this quotient rounds.  Rounding is monotone and exact on
    0 and 1, so an order between two such quotients, and a comparison with
    0 or 1, carries over to the floats; an identity of exact arithmetic,
    such as the product of the quotient with [length], does not. *)
Definition _calculate_ratio (matches length : Z) : Q :=
  if (length =? 0)%Z then 1%Q
  else (2 * inject_Z matches / inject_Z length)%Q.

Definition sum_sizes (blocks : list block) : Z :=
  fold_right (fun x acc => (x.2 + acc)%Z) 0%Z blocks.

Definition ratio (m : SequenceMatcher) : outcome Q :=
  blocks <- get_matching_blocks m ;;
  let matches := sum_sizes blocks in
  Returns (_calculate_ratio matches
             (Z.of_nat (length (seq_a m)) + Z.of_nat (length (seq_b m)))).

Definition calculate_similarity (text1 text2 : text) : outcome Q :=
  ratio (new_SequenceMatcher (strip text1) (strip text2)).

(** ** The structure analyzer: [html.parser], Beautiful Soup and
    [analyze_code_structure]

    [BeautifulSoup(code, 'html.parser')] feeds the text to a subclass of
    [html.parser.HTMLParser] created with [convert_charrefs=False], and
    builds one element for each start tag the parser reports.  The parser
    is modelled after CPython 3.11 ([Lib/html/parser.py] and
    [Lib/_markupbase.py]).  Of the handlers only the one for start tags
    leaves a trace the program can observe, and only the one for numeric
    character references can raise; the others are passed over. *)

(** [s.startswith(p, i)] *)
Definition startswith_at (p s : text) (i : nat) : bool :=
  startswith p (skipn i s).

(** [s.find(c, i)] for a single character: [None] is the result [-1]. *)
Definition find_at (c : string) (s : text) (i : nat) : option nat :=
  match lit c with
  | [x] => option_map (Nat.add i) (find_char x (skipn i s) 0)
  | _ => None
  end.

(** Case-insensitive match of an ASCII letter under [re.I]: beside the two
    cases of the letter, [i] matches U+0130 and U+0131 and [s] matches
    U+017F. *)
Definition ci_char (x c : N) : bool :=
  (lower_char c =? x)%N
  || (x =? 105)%N && ((c =? 304) || (c =? 305))%N
  || (x =? 115)%N && (c =? 383)%N.

Fixpoint str_ci (s : text) : regex :=
  match s with
  | [] => Empty
  | c :: tl => Cat (Class (ci_char c)) (str_ci tl)
  end.

Definition ws : regex := Class isspace.
Definition squote : N := 39%N.
Definition dquote : N := 34%N.
Definition is_quote (c : N) : bool := (c =? squote)%N || (c =? dquote)%N.

(** [[&<]] *)
Definition interesting_normal : regex := Class (one_of "&<").
(** [</\s*%s\s*>] with [re.I], for the element [elem] *)
Definition interesting_cdata (elem : text) : regex :=
  Cat (str "</") (Cat (star ws) (Cat (str_ci elem) (Cat (star ws) (chr ">")))).
(** [&[a-zA-Z#]] *)
Definition incomplete : regex :=
  Cat (chr "&") (Class (fun c => is_alpha c || one_of "#" c)).
(** [entityref]: an ampersand, a name (group 1) that starts with a letter
    and goes on with letters, digits, [-] and [.], then one character that
    is neither letter nor digit *)
Definition entityref : regex :=
  Cat (chr "&")
    (Cat (Group 1 (Cat (Class is_alpha)
                     (star (Class (fun c => one_of "-." c || is_alpha c
                                            || is_digit c)))))
       (Class (fun c => negb (is_alpha c || is_digit c)))).
Definition is_hex (c : N) : bool :=
  is_digit c || in_range "a" "f" c || in_range "A" "F" c.
(** [charref]: [&#], decimal digits or [x] and hexadecimal digits, then
    one character that is no hexadecimal digit *)
Definition charref : regex :=
  Cat (str "&#")
    (Cat (Or (plus (Class is_digit))
            (Cat (Class (one_of "xX")) (plus (Class is_hex))))
       (Class (fun c => negb (is_hex c)))).
(** [<[a-zA-Z]] *)
Definition starttagopen : regex := Cat (chr "<") (Class is_alpha).
(** [>] *)
Definition piclose : regex := chr ">".
Definition endendtag : regex := chr ">".
(** [--\s*>] *)
Definition _commentclose : regex := Cat (str "--") (Cat (star ws) (chr ">")).
(** []\s*]\s*>] *)
Definition _markedsectionclose : regex :=
  Cat (chr "]") (Cat (star ws) (Cat (chr "]") (Cat (star ws) (chr ">")))).
(** []\s*>] *)
Definition _msmarkedsectionclose : regex :=
  Cat (chr "]") (Cat (star ws) (chr ">")).
(** [_declname]: a letter, then letters, digits, [-], [_] and [.], then
    whitespace *)
Definition _declname : regex :=
  Cat (Class is_alpha)
    (Cat (star (Class (fun c => one_of "-_." c || is_alpha c || is_digit c)))
       (star ws)).

(** A character of a tag name: none of tab, newline, carriage return,
    form feed, space, [/], [>] and NUL *)
Definition tagname_char (c : N) : bool :=
  negb (existsb (N.eqb c) [9; 10; 13; 12; 32; 47; 62; 0]%N).
(** First and further characters of an attribute name *)
Definition attrname_start (c : N) : bool := negb (isspace c || one_of "/>" c).
Definition attrname_char (c : N) : bool := negb (isspace c || one_of "/=>" c).
(** Any number of: whitespace, or a [/] not followed by [>] *)
Definition tag_filler : regex :=
  star (Or ws (Cat (chr "/") (Ahead false (chr ">")))).
(** An attribute name: preceded by a quote, whitespace or [/]; its first
    character is none of whitespace, [/], [>]; the others are none of
    whitespace, [/], [=], [>] *)
Definition attrname_re : regex :=
  Cat (Behind (fun c => is_quote c || isspace c || one_of "/" c))
    (Cat (Class attrname_start) (star (Class attrname_char))).
(** An attribute value: a string in single quotes, a string in double
    quotes, or a run of characters other than [>] and whitespace that does
    not start with a quote *)
Definition attrvalue_re : regex :=
  Or (Cat (Class (N.eqb squote))
        (Cat (star (Class (fun c => negb (c =? squote)%N)))
           (Class (N.eqb squote))))
    (Or (Cat (Class (N.eqb dquote))
           (Cat (star (Class (fun c => negb (c =? dquote)%N)))
              (Class (N.eqb dquote))))
       (Cat (Ahead false (Class is_quote))
          (star (Class (fun c => negb (one_of ">" c || isspace c)))))).

(** [tagfind_tolerant]: the tag name (group 1), a letter and then
    [tagname_char]s, followed by filler *)
Definition tagfind_tolerant : regex :=
  Cat (Group 1 (Cat (Class is_alpha) (star (Class tagname_char)))) tag_filler.

(** [attrfind_tolerant]: the attribute name (group 1), optionally (group
    2) whitespace, one or more [=], whitespace and the value (group 3),
    followed by filler *)
Definition attrfind_tolerant : regex :=
  Cat (Group 1 attrname_re)
    (Cat (opt (Group 2 (Cat (star ws)
                          (Cat (plus (chr "="))
                             (Cat (star ws) (Group 3 attrvalue_re))))))
       tag_filler).

(** [locatestarttagend_tolerant]: [<], the tag name, optionally
    whitespace or [/] and then any number of attributes (name, optional
    value indicator and value, filler), and trailing whitespace *)
Definition locatestarttagend_tolerant : regex :=
  Cat (chr "<")
    (Cat (Class is_alpha)
       (Cat (star (Class tagname_char))                  (* tag name *)
          (Cat (opt
                  (Cat (star (Class (fun c => isspace c || one_of "/" c)))
                     (star
                        (Cat attrname_re                  (* attribute name *)
                           (Cat (opt
                                   (Cat (star ws)
                                      (Cat (plus (chr "="))   (* value indicator *)
                                         (Cat (star ws)
                                            (Cat attrvalue_re (star ws))))))
                              tag_filler)))))
             (star ws)))).                                 (* trailing whitespace *)

(** [endtagfind]: [</], whitespace, the name (group 1), whitespace, [>] *)
Definition endtagfind : regex :=
  Cat (str "</")
    (Cat (star ws)
       (Cat (Group 1 (Cat (Class is_alpha)
                        (star (Class (fun c => one_of "-.:_" c || is_alpha c
                                               || is_digit c)))))
          (Cat (star ws) (chr ">")))).

(** [m.group(n)] with [None] for a group that took no part. *)
Definition group_text (s : text) (n : nat) (m : mstate) : option text :=
  option_map (fun span => slice s span.1 span.2) (group n (caps m)).

(** An attribute value of an element of the tree: a string, or for the
    whitespace-separated attribute [class] the list of its tokens. *)
Inductive attr_value :=
| Single (s : text)
| Multi (tokens : list text).

Record Tag := {
  name : text;
  attrs : gmap text attr_value
}.

(** [nonwhitespace_re.findall(value)] with the pattern [\S+] *)
Definition nonwhitespace_re : regex := plus (Class (fun c => negb (isspace c))).
Definition whitespace_split (value : text) : list text :=
  List.map (fun span => slice value span.1 span.2)
    (re_findall nonwhitespace_re value).

(** The attribute dictionary Beautiful Soup builds from the list of pairs
    the parser reports: a missing value becomes the empty string, a
    repeated attribute keeps its last value, and the value of [class] is
    split at whitespace. *)
Definition attr_dict (attrs : list (text * option text)) : gmap text attr_value :=
  fold_left
    (fun d kv =>
       let value := default [] kv.2 in
       <[kv.1 := if text_eqb kv.1 (lit "class")
                 then Multi (whitespace_split value)
                 else Single value]> d)
    attrs ∅.

Record HTMLParser := {
  cdata_elem : option text;
  elements : list Tag
}.

Definition handle_starttag (self : HTMLParser) (tag : text)
  (attrs : list (text * option text)) : HTMLParser :=
  {| cdata_elem := cdata_elem self;
     elements := elements self ++ [{| name := tag; attrs := attr_dict attrs |}] |}.

Definition set_cdata_mode (self : HTMLParser) (elem : text) : HTMLParser :=
  {| cdata_elem := Some (lower elem); elements := elements self |}.

Definition clear_cdata_mode (self : HTMLParser) : HTMLParser :=
  {| cdata_elem := None; elements := elements self |}.

Definition CDATA_CONTENT_ELEMENTS : list text := [lit "script"; lit "style"].

(** [sys.int_info.default_max_str_digits]: [int(s)] raises [ValueError]
    when the decimal numeral [s] has more digits, leading zeros
    included. *)
Definition max_str_digits : nat := 4300.

(** The number of decimal digits that [s] starts with. *)
Fixpoint digits_run (s : text) : nat :=
  match s with
  | c :: tl => if is_digit c then S (digits_run tl) else 0
  | [] => 0
  end.

(** [s] holds [&#] followed by more than [max_str_digits] decimal
    digits. *)
Fixpoint long_charref (s : text) : bool :=
  match s with
  | [] => false
  | c :: tl =>
      startswith (lit "&#") s && (max_str_digits <? digits_run (skipn 1 tl))
      || long_charref tl
  end.

(** Beautiful Soup's [handle_charref(name)]: the name is converted with
    [int(name.lstrip('x'), 16)] when it starts with [x] or [X] and with
    [int(name)] otherwise, where it is a run of decimal digits; the
    character is then handed on as text, which leaves no trace here. *)
Definition handle_charref (name : text) : outcome unit :=
  if startswith (lit "x") name || startswith (lit "X") name then Returns tt
  else if max_str_digits <? length name then Raises ValueError
  else Returns tt.

Section Parser.

(** [_charref.sub(_replace_charref, s)] of [html.unescape] when it
    returns: the replacement of character references, which rests on the
    table of HTML5 entities. *)
Variable replace_charrefs : text -> text.

(** [html.unescape].  [_replace_charref] converts a decimal reference
    with [int] and so raises on one of more than 4300 digits.  A match of
    [_charref] starts at [&] and holds no second [&], so the substitution
    visits every [&] at which the pattern matches; at [&#] and a digit its
    first alternative takes the whole run of digits. *)
Definition unescape (s : text) : outcome text :=
  if negb (contains (lit "&") s) then Returns s
  else if long_charref s then Raises ValueError
  else Returns (replace_charrefs s).

(** Positions returned by the [parse_*] methods: [None] is [-1], the
    construct is not complete yet. *)

Definition check_for_whole_start_tag (rawdata : text) (i : nat)
  : outcome (option nat) :=
  match re_match locatestarttagend_tolerant rawdata i with
  | Some m =>
      let j := pos m in
      let next := slice rawdata j (j + 1) in
      if text_eqb next (lit ">") then Returns (Some (j + 1))
      else if text_eqb next (lit "/") then
        if startswith_at (lit "/>") rawdata j then Returns (Some (j + 2))
        else if startswith_at (lit "/") rawdata j then Returns None
        else if i <? j then Returns (Some j) else Returns (Some (i + 1))
      else if text_eqb next [] then Returns None
      else if contains next
                (lit "abcdefghijklmnopqrstuvwxyz=/ABCDEFGHIJKLMNOPQRSTUVWXYZ")
      then Returns None
      else if i <? j then Returns (Some j) else Returns (Some (i + 1))
  | None => Raises (AssertionError "we should not get here!")
  end.

(** The quotes around an attribute value are dropped. *)
Definition unquote (attrvalue : text) : text :=
  let first := firstn 1 attrvalue in
  let last := skipn (length attrvalue - 1) attrvalue in
  if text_eqb first [squote] && text_eqb last [squote]
     || text_eqb first [dquote] && text_eqb last [dquote]
  then slice attrvalue 1 (length attrvalue - 1)
  else attrvalue.

(** The loop of [parse_starttag] that collects the attributes from offset
    [k] up to [endpos]. *)
Fixpoint parse_attrs (fuel : nat) (rawdata : text) (k endpos : nat)
  (attrs : list (text * option text))
  : outcome (nat * list (text * option text)) :=
  match fuel with
  | O => Diverges
  | S fuel' =>
      if k <? endpos then
        match re_match attrfind_tolerant rawdata k with
        | None => Returns (k, attrs)
        | Some m =>
            let attrname := default [] (group_text rawdata 1 m) in
            let rest := group_text rawdata 2 m in
            let attrvalue := group_text rawdata 3 m in
            let attrvalue :=
              match rest with
              | None | Some [] => None
              | Some _ => option_map unquote attrvalue
              end in
            attrvalue <-
              match attrvalue with
              | Some ((_ :: _) as v) => v <- unescape v ;; Returns (Some v)
              | other => Returns other
              end ;;
            parse_attrs fuel' rawdata (pos m) endpos
              (attrs ++ [(lower attrname, attrvalue)])
        end
      else Returns (k, attrs)
  end.

Definition parse_starttag (self : HTMLParser) (rawdata : text) (i : nat)
  : outcome (HTMLParser * option nat) :=
  endpos <- check_for_whole_start_tag rawdata i ;;
  match endpos with
  | None => Returns (self, None)
  | Some endpos =>
      match re_match tagfind_tolerant rawdata (i + 1) with
      | None => Raises (AssertionError "unexpected call to parse_starttag()")
      | Some m =>
          let k := pos m in
          let tag := lower (default [] (group_text rawdata 1 m)) in
          r <- parse_attrs (S (endpos - k)) rawdata k endpos [] ;;
          let '(k, attrs) := r in
          let end_ := strip (slice rawdata k endpos) in
          if negb (text_eqb end_ (lit ">") || text_eqb end_ (lit "/>")) then
            Returns (self, Some endpos)
          else if text_eqb end_ (lit "/>") then
            Returns (handle_starttag self tag attrs, Some endpos)
          else
            let self := handle_starttag self tag attrs in
            let self :=
              if existsb (text_eqb tag) CDATA_CONTENT_ELEMENTS
              then set_cdata_mode self tag else self in
            Returns (self, Some endpos)
      end
  end.

Definition parse_bogus_comment (rawdata : text) (i : nat) : option nat :=
  option_map S (find_at ">" rawdata (i + 2)).

Definition parse_endtag (self : HTMLParser) (rawdata : text) (i : nat)
  : outcome (HTMLParser * option nat) :=
  match re_search endendtag rawdata (i + 1) with
  | None => Returns (self, None)
  | Some (_, m) =>
      let gtpos := pos m in
      match re_match endtagfind rawdata i with
      | None =>
          if found (cdata_elem self) then Returns (self, Some gtpos)
          else
            match re_match tagfind_tolerant rawdata (i + 2) with
            | None =>
                if text_eqb (slice rawdata i (i + 3)) (lit "</>")
                then Returns (self, Some (i + 3))
                else Returns (self, parse_bogus_comment rawdata i)
            | Some namematch =>
                (* the result of [find] is [-1] when there is no [>] *)
                match find_at ">" rawdata (pos namematch) with
                | Some gtpos => Returns (self, Some (gtpos + 1))
                | None => Returns (self, Some 0)
                end
            end
      | Some m =>
          let elem := lower (default [] (group_text rawdata 1 m)) in
          match cdata_elem self with
          | Some cdata =>
              if negb (text_eqb elem cdata) then Returns (self, Some gtpos)
              else Returns (clear_cdata_mode self, Some gtpos)
          | None => Returns (clear_cdata_mode self, Some gtpos)
          end
      end
  end.

Definition parse_comment (rawdata : text) (i : nat) : outcome (option nat) :=
  if negb (text_eqb (slice rawdata i (i + 4)) (lit "<!--")) then
    Raises (AssertionError "unexpected call to parse_comment()")
  else
    match re_search _commentclose rawdata (i + 4) with
    | None => Returns None
    | Some (_, m) => Returns (Some (pos m))
    end.

Definition parse_pi (rawdata : text) (i : nat) : option nat :=
  match re_search piclose rawdata (i + 2) with
  | None => None
  | Some (_, m) => Some (pos m)
  end.

(** [_scan_name]: the name and the offset after it; [None] is the pair
    [(None, -1)]. *)
Definition _scan_name (rawdata : text) (i declstartpos : nat)
  : outcome (option (text * nat)) :=
  let n := length rawdata in
  if i =? n then Returns None
  else
    match re_match _declname rawdata i with
    | Some m =>
        let s := slice rawdata i (pos m) in
        let name := strip s in
        if i + length s =? n then Returns None
        else Returns (Some (lower name, pos m))
    | None => Raises (AssertionError "expected name token")
    end.

Definition parse_marked_section (rawdata : text) (i : nat)
  : outcome (option nat) :=
  r <- _scan_name rawdata (i + 3) i ;;
  match r with
  | None => Returns None
  | Some (sectName, j) =>
      if existsb (text_eqb sectName)
           [lit "temp"; lit "cdata"; lit "ignore"; lit "include"; lit "rcdata"]
      then
        match re_search _markedsectionclose rawdata (i + 3) with
        | None => Returns None
        | Some (_, m) => Returns (Some (pos m))
        end
      else if existsb (text_eqb sectName) [lit "if"; lit "else"; lit "endif"]
      then
        match re_search _msmarkedsectionclose rawdata (i + 3) with
        | None => Returns None
        | Some (_, m) => Returns (Some (pos m))
        end
      else Raises (AssertionError "unknown status keyword in marked section")
  end.

Definition parse_html_declaration (rawdata : text) (i : nat)
  : outcome (option nat) :=
  if text_eqb (slice rawdata i (i + 4)) (lit "<!--") then parse_comment rawdata i
  else if text_eqb (slice rawdata i (i + 3)) (lit "<![")
  then parse_marked_section rawdata i
  else if text_eqb (lower (slice rawdata i (i + 9))) (lit "<!doctype") then
    match find_at ">" rawdata (i + 9) with
    | None => Returns None
    | Some gtpos => Returns (Some (gtpos + 1))
    end
  else Returns (parse_bogus_comment rawdata i).

(** What one turn of the [while i < n] loop of [goahead] ends with. *)
Inductive control :=
| Continue (self : HTMLParser) (i : nat)
| Break (self : HTMLParser) (i : nat).

(** The branch of [goahead] taken when a construct that starts with [<] is
    not complete ([k < 0]) and the input is at its end: the text up to the
    end is handed to a handler, unless no case applies. *)
Definition incomplete_at_end (rawdata : text) (i : nat) : outcome unit :=
  let n := length rawdata in
  if found (re_match starttagopen rawdata i) then Returns tt
  else if startswith_at (lit "</") rawdata i then Returns tt
  else if startswith_at (lit "<!--") rawdata i then Returns tt
  else if startswith_at (lit "<![CDATA[") rawdata i then Returns tt
  else if text_eqb (lower (slice rawdata i (i + 9))) (lit "<!doctype")
  then Returns tt
  else if startswith_at (lit "<!") rawdata i then Returns tt
  else if startswith_at (lit "<?") rawdata i then Returns tt
  else Raises (AssertionError "we should not get here!").

(** One turn of the loop of [goahead], entered with [i < n]. *)
Definition goahead_turn (end_ : bool) (rawdata : text) (self : HTMLParser)
  (i : nat) : outcome control :=
  let n := length rawdata in
  let interesting :=
    match cdata_elem self with
    | Some elem => interesting_cdata elem
    | None => interesting_normal
    end in
  match
    match re_search interesting rawdata i with
    | Some (j, _) => Some j
    | None => if found (cdata_elem self) then None else Some n
    end
  with
  | None => Returns (Break self i)
  | Some j =>
      let i := j in
      if i =? n then Returns (Break self i)
      else if startswith_at (lit "<") rawdata i then
        r <-
          (if found (re_match starttagopen rawdata i)
           then r <- parse_starttag self rawdata i ;; Returns (Some r)
           else if startswith_at (lit "</") rawdata i
           then r <- parse_endtag self rawdata i ;; Returns (Some r)
           else if startswith_at (lit "<!--") rawdata i
           then k <- parse_comment rawdata i ;; Returns (Some (self, k))
           else if startswith_at (lit "<?") rawdata i
           then Returns (Some (self, parse_pi rawdata i))
           else if startswith_at (lit "<!") rawdata i
           then k <- parse_html_declaration rawdata i ;; Returns (Some (self, k))
           else if (i + 1 <? n) || end_
           then Returns (Some (self, Some (i + 1)))
           else Returns None) ;;
        match r with
        | None => Returns (Break self i)
        | Some (self, Some k) => Returns (Continue self k)
        | Some (self, None) =>
            if negb end_ then Returns (Break self i)
            else
              _ <- incomplete_at_end rawdata i ;;
              Returns (Continue self n)
        end
      else if startswith_at (lit "&#") rawdata i then
        match re_match charref rawdata i with
        | Some m =>
            let name := slice rawdata (i + 2) (pos m - 1) in
            _ <- handle_charref name ;;
            let k := pos m in
            let k := if negb (startswith_at (lit ";") rawdata (k - 1))
                     then k - 1 else k in
            Returns (Continue self k)
        | None =>
            if contains (lit ";") (skipn i rawdata)
            then Returns (Break self (i + 2))
            else Returns (Break self i)
        end
      else if startswith_at (lit "&") rawdata i then
        match re_match entityref rawdata i with
        | Some m =>
            let k := pos m in
            let k := if negb (startswith_at (lit ";") rawdata (k - 1))
                     then k - 1 else k in
            Returns (Continue self k)
        | None =>
            match re_match incomplete rawdata i with
            | Some m =>
                if end_ && text_eqb (slice rawdata i (pos m)) (skipn i rawdata)
                then Returns (Break self (i + 1))
                else Returns (Break self i)
            | None =>
                if i + 1 <? n then Returns (Continue self (i + 1))
                else Returns (Break self i)
            end
        end
      else Raises (AssertionError "interesting.search() lied")
  end.

(** The loop of [goahead].  A turn that does not end the loop is followed
    by another one as long as [i < n]. *)
Fixpoint goahead_loop (fuel : nat) (end_ : bool) (rawdata : text)
  (self : HTMLParser) (i : nat) : outcome (HTMLParser * nat) :=
  match fuel with
  | O => Diverges
  | S fuel' =>
      if i <? length rawdata then
        c <- goahead_turn end_ rawdata self i ;;
        match c with
        | Continue self i => goahead_loop fuel' end_ rawdata self i
        | Break self i => Returns (self, i)
        end
      else Returns (self, i)
  end.

(** [goahead(end)]: the parser afterwards and the text it keeps for the
    next call.  Every turn that continues moves [i] forward, so the loop
    body runs at most [len(rawdata)] times. *)
Definition goahead (end_ : bool) (rawdata : text) (self : HTMLParser)
  : outcome (HTMLParser * text) :=
  r <- goahead_loop (S (length rawdata)) end_ rawdata self 0 ;;
  let '(self, i) := r in
  let n := length rawdata in
  let i := if end_ && (i <? n) && negb (found (cdata_elem self))
           then n else i in
  Returns (self, skipn i rawdata).

(** [parser.feed(markup); parser.close()] on a new parser. *)
Definition feed_and_close (markup : text) : outcome (list Tag) :=
  let parser := {| cdata_elem := None; elements := [] |} in
  r <- goahead false markup parser ;;
  let '(parser, rawdata) := r in
  r <- goahead true rawdata parser ;;
  Returns (elements r.1).

(** [BeautifulSoup(markup, 'html.parser')]: the elements of the tree in
    document order.  An [AssertionError] of the parser is turned into
    [ParserRejectedMarkup]; a [ValueError] passes through. *)
Definition BeautifulSoup (markup : text) : outcome (list Tag) :=
  match feed_and_close markup with
  | Raises (AssertionError _) => Raises ParserRejectedMarkup
  | other => other
  end.

(** How Beautiful Soup matches an attribute value against a function: a
    list of tokens matches if one token does, or else if the tokens joined
    by single spaces do. *)
Definition join_tokens (tokens : list text) : text :=
  match tokens with
  | [] => []
  | t :: tl => fold_left (fun acc x => acc ++ lit " " ++ x) tl t
  end.

Definition _matches (markup : option attr_value)
  (match_against : option text -> bool) : bool :=
  match markup with
  | Some (Multi items) =>
      existsb (fun item => match_against (Some item)) items
      || match_against (Some (join_tokens items))
  | Some (Single s) => match_against (Some s)
  | None => match_against None
  end.

(** [soup.find_all(name, class_=f)] *)
Definition find_all (soup : list Tag) (tag_name : text)
  (class_ : option text -> bool) : list Tag :=
  List.filter
    (fun tag => text_eqb (name tag) tag_name
                && _matches (attrs tag !! lit "class") class_)
    soup.

(** [soup.find(name, class_=f)] *)
Definition find (soup : list Tag) (tag_name : text)
  (class_ : option text -> bool) : option Tag :=
  head (find_all soup tag_name class_).

(** [lambda x: x and sub in x], as a truth value *)
Definition class_has (sub : text) (x : option text) : bool :=
  match x with
  | None | Some [] => false
  | Some x => contains sub x
  end.

Record StructureFacts := {
  has_doctype : bool;
  has_bootstrap_css : bool;
  has_bootstrap_js : bool;
  has_container : bool;
  row_count : nat;
  has_custom_css : bool;
  has_media_query : bool;
  col_elements : nat
}.

(** The result is the dictionary of facts, or [None]. *)
Definition analyze_code_structure (code : text)
  : outcome (option StructureFacts) :=
  try_except
    (soup <- BeautifulSoup code ;;
     Returns (Some
       {| has_doctype := startswith (lit "<!DOCTYPE html>") (strip code);
          has_bootstrap_css :=
            contains (lit "bootstrap") code && contains (lit ".css") code;
          has_bootstrap_js :=
            contains (lit "bootstrap") code && contains (lit ".js") code;
          has_container :=
            found (find soup (lit "div") (class_has (lit "container")));
          row_count := length (find_all soup (lit "div") (class_has (lit "row")));
          has_custom_css := contains (lit "<style>") code;
          has_media_query := contains (lit "@media") code;
          col_elements :=
            length (find_all soup (lit "div") (class_has (lit "col-"))) |}))
    (fun _ => Returns None).

(** [structure_score] of the report: the number of criteria met. *)
Definition structure_score (structure : StructureFacts) : nat :=
  list_sum (List.map Nat.b2n
    [has_doctype structure;
     has_bootstrap_css structure;
     has_bootstrap_js structure;
     has_container structure;
     2 <=? row_count structure;
     has_custom_css structure;
     has_media_query structure;
     6 <=? col_elements structure]).

End Parser.

(** ** The reference document

    [EXPECTED_HTML], character for character, except that the string below
    writes an apostrophe where the document has a double quote (the
    document itself contains no apostrophe); [EXPECTED_HTML] puts the
    double quotes back. *)

Definition EXPECTED_HTML_apostrophes : string :=
"<!DOCTYPE html>
<html lang='en'>
<head>
  <meta charset='UTF-8'>
  <meta name='viewport' content='width=device-width, initial-scale=1.0'>
  <title>Advanced Bootstrap Grid Layout</title>
  <!-- Bootstrap CSS -->
  <link href='https://cdn.jsdelivr.net/npm/bootstrap@5.3.2/dist/css/bootstrap.min.css' rel='stylesheet'>
  <style>
    /* Custom media query (extra challenge) */
    @media (max-width: 600px) {
      .hero-text {
        font-size: 1.2rem;
        text-align: center;
      }
    }
    .box {
      padding: 20px;
      color: white;
      border-radius: 8px;
    }
  </style>
</head>
<body>
  <div class='container mt-4'>
    <!-- Hero Section -->
    <div class='row mb-4'>
      <div class='col-12 bg-dark text-white p-4 hero-text'>
        <h2 class='mb-0'>Advanced Bootstrap Grid Layout</h2>
        <p class='mb-0'>This layout changes at 3 different breakpoints.</p>
      </div>
    </div>
    <!-- Main 3-Column Layout -->
    <div class='row g-3'>
      <div class='col-12 col-md-6 col-lg-4'>
        <div class='box bg-primary'>Main Box 1</div>
      </div>
      <div class='col-12 col-md-6 col-lg-4'>
        <div class='box bg-success'>Main Box 2</div>
      </div>
      <div class='col-12 col-md-12 col-lg-4'>
        <div class='box bg-danger'>Main Box 3</div>
      </div>
    </div>
    <!-- Nested Grid Section -->
    <div class='row mt-4'>
      <div class='col-12 col-lg-8'>
        <div class='box bg-warning text-dark'>
          <h4>Main Content Area</h4>
          <!-- Nested Row -->
          <div class='row mt-3'>
            <div class='col-6 col-md-4'>
              <div class='box bg-secondary'>Nested 1</div>
            </div>
            <div class='col-6 col-md-4'>
              <div class='box bg-info text-dark'>Nested 2</div>
            </div>
            <div class='col-12 col-md-4'>
              <div class='box bg-dark'>Nested 3</div>
            </div>
          </div>
        </div>
      </div>
      <!-- Sidebar -->
      <div class='col-12 col-lg-4'>
        <div class='box bg-primary'>Sidebar Area</div>
      </div>
    </div>
  </div>
  <!-- Bootstrap JS -->
  <script src='https://cdn.jsdelivr.net/npm/bootstrap@5.3.2/dist/js/bootstrap.bundle.min.js'></script>
</body>
</html>".

Definition EXPECTED_HTML : text :=
  List.map (fun c => if (c =? squote)%N then dquote else c)
    (lit EXPECTED_HTML_apostrophes).

(** ** The page: the script of [app.py] from the button on

    Streamlit runs the script from top to bottom at every interaction.  A
    run reads the text area ([user_code]), whether the button was the
    widget clicked ([st.button] is true in the run its click starts, and
    in no other) and [st.session_state], which alone survives from run to
    run.  What the run puts on the page is kept as the list of the calls
    on [st], in the order in which they are made; the columns and
    expanders they are placed in are layout: a column is not recorded, an
    expander is recorded where it is opened. *)

(** The value of an f-string.  [fixed1 x suffix] is [f"{x:.1f}suffix"]:
    the number is kept, its rendering with one decimal is not modelled. *)
Inductive formatted :=
| plain (s : text)
| fixed1 (x : Q) (suffix : text).

Inductive element :=
| st_divider
| st_subheader (body : text)
| st_metric (label : text) (value : formatted)
| st_success (body : text)
| st_warning (body : text)
| st_error (body : text)
| st_info (body : text)
| st_write (body : text)
| st_expander (label : text)
| st_code (body : text) (language : text).

(** Truth value of a string. *)
Definition nonempty (s : text) : bool :=
  match s with [] => false | _ :: _ => true end.

(** The two marks of the report, U+2705 and U+274C. *)
Definition check_mark : text := [9989%N].
Definition cross_mark : text := [10060%N].

(** [if st.button(...):] and its body.  The session state holds truth
    values under string keys. *)
Definition analyze_button (clicked : bool) (user_code : text)
  (session_state : gmap string bool) : gmap string bool * list element :=
  if clicked then
    if nonempty (strip user_code)
    then (<["analyze"%string := true]> session_state, [])
    else (session_state, [st_error (lit "Please enter some code to analyze!")])
  else (session_state, []).

(** [with result_col1:].  The similarity is a float; the comparisons with
    0.95, 0.80 and 1.0 are modelled on the rational it rounds, which gives
    the same answers for texts of fewer than [10^14] characters. *)
Definition result_col1 (similarity : Q) : list element :=
  [st_metric (lit "Code Similarity") (fixed1 (similarity * 100) (lit "%"));
   if Qle_bool (95 # 100) similarity
   then st_success (check_mark ++ lit " Excellent match!")
   else if Qle_bool (80 # 100) similarity
   then st_warning ([9888; 65039]%N ++ lit " Good match with minor differences")
   else st_error (cross_mark ++ lit " Significant differences detected")].

(** [with result_col2:] *)
Definition result_col2 (ai_score : Q) : list element :=
  [st_metric (lit "AI Writing Score") (fixed1 ai_score (lit "/10"));
   if Qle_bool 7 ai_score
   then st_info ([129302%N] ++ lit " Highly likely AI-generated")
   else if Qle_bool 4 ai_score
   then st_info ([129300%N] ++ lit " Possibly AI-assisted")
   else st_info ([128100%N] ++ lit " Likely human-written")].

(** [with result_col3:].  A dictionary with eight keys is true, [None] is
    false. *)
Definition result_col3 (structure : option StructureFacts) : list element :=
  match structure with
  | Some structure =>
      [st_metric (lit "Structure Score")
         (plain (lit (str_of_nat (structure_score structure)) ++ lit "/8"))]
  | None => []
  end.

(** [with detail_col1:] *)
Definition detail_col1 (structure : option StructureFacts) : list element :=
  st_subheader ([127959; 65039]%N ++ lit " Structure Analysis") ::
  match structure with
  | Some structure =>
      let mark (b : bool) := if b then check_mark else cross_mark in
      [st_write (lit "**Elements Found:**");
       st_write (lit "- DOCTYPE declaration: "
                 ++ mark (has_doctype structure));
       st_write (lit "- Bootstrap CSS: "
                 ++ mark (has_bootstrap_css structure));
       st_write (lit "- Bootstrap JS: " ++ mark (has_bootstrap_js structure));
       st_write (lit "- Container div: " ++ mark (has_container structure));
       st_write (lit "- Row elements: "
                 ++ lit (str_of_nat (row_count structure)));
       st_write (lit "- Column elements: "
                 ++ lit (str_of_nat (col_elements structure)));
       st_write (lit "- Custom CSS: " ++ mark (has_custom_css structure));
       st_write (lit "- Media queries: "
                 ++ mark (has_media_query structure))]
  | None => [st_error (lit "Could not parse HTML structure")]
  end.

(** [with detail_col2:] *)
Definition detail_col2 (ai_indicators : list string) : list element :=
  st_subheader ([129302%N] ++ lit " AI Indicators") ::
  match ai_indicators with
  | _ :: _ =>
      st_write (lit "**Detected Indicators:**") ::
      List.map (fun indicator => st_write (lit "- " ++ lit indicator))
        ai_indicators
  | [] => [st_write (lit "No strong AI indicators detected")]
  end.

(** [if similarity < 1.0:] and its body *)
Definition code_comparison (similarity : Q) (user_code : text)
  : list element :=
  if negb (Qle_bool 1 similarity) then
    [st_divider;
     st_subheader ([128203%N] ++ lit " Code Comparison");
     st_expander (lit "View Expected Code");
     st_code EXPECTED_HTML (lit "html");
     st_expander (lit "View Your Code");
     st_code user_code (lit "html")]
  else [].

Section Page.

Variable replace_charrefs : text -> text.

(** The body of the [if] of the analysis section. *)
Definition analysis_section (user_code : text) : outcome (list element) :=
  similarity <- calculate_similarity user_code EXPECTED_HTML ;;
  structure <- analyze_code_structure replace_charrefs user_code ;;
  let '(ai_score, ai_indicators) := check_ai_indicators user_code in
  Returns
    ([st_divider; st_subheader ([128202%N] ++ lit " Analysis Results")]
     ++ result_col1 similarity
     ++ result_col2 ai_score
     ++ result_col3 structure
     ++ [st_divider]
     ++ detail_col1 structure
     ++ detail_col2 ai_indicators
     ++ code_comparison similarity user_code).

(** One run of the script, from the button to the end of the analysis
    section: the session state afterwards and what was put on the page. *)
Definition script (clicked : bool) (user_code : text)
  (session_state : gmap string bool)
  : outcome (gmap string bool * list element) :=
  let '(session_state, col2) :=
    analyze_button clicked user_code session_state in
  if bool_decide (session_state !! "analyze"%string = Some true)
     && nonempty (strip user_code)
  then
    shown <- analysis_section user_code ;;
    Returns (session_state, col2 ++ shown)
  else Returns (session_state, col2).

End Page.

(** ** Notions used to state the properties *)

(** *** Lines and indentation *)

(** The last character of a text, [None] for the empty text. *)
Definition last_char (s : text) : option N := List.last (List.map Some s) None.

(** A line starts after [before]: at the start of the text or right after
    a newline. *)
Definition line_start (before : text) : Prop :=
  before = [] \/ exists b, before = b ++ [10%N].

(** *** Class tokens *)

(** The class tokens of an element. *)
Definition class_tokens (t : Tag) : list text :=
  match attrs t !! lit "class" with
  | Some (Multi tokens) => tokens
  | Some (Single s) => [s]
  | None => []
  end.

(** The element carries a class token that contains [sub]. *)
Definition has_class_token (sub : text) (t : Tag) : bool :=
  existsb (contains sub) (class_tokens t).

Definition is_div (t : Tag) : bool := text_eqb (name t) (lit "div").

(** The count as the specification words it, over elements of any tag
    name: how many elements carry a class token that contains [sub]. *)
Definition spec_count_elements (sub : text) (soup : list Tag) : nat :=
  length (List.filter (has_class_token sub) soup).

Definition space : N := 32%N.

(** *** Sample texts *)

(** All ten checks trigger on this text. *)
Definition all_ten_text : text :=
  lit "  <!DOCTYPE html><!----><!----><!----><header> viewport container "
  ++ lit "row col- bg- text- mt- <style>@media class=" ++ dq ++ lit "a-b" ++ dq
  ++ lit " cdn.jsdelivr.net <div class=" ++ dq ++ lit "row<div class=" ++ dq
  ++ lit "row lang=" ++ dq ++ lit "en" ++ dq ++ lit "charset=" ++ dq
  ++ lit "UTF-8" ++ dq.

(** Binary garbage that the parser rejects. *)
Definition garbage : text := [0; 1; 60; 33; 91; 2]%N.

(** Binary data read as text: the first sixteen bytes of a PNG file. *)
Definition png_header : text :=
  [137; 80; 78; 71; 13; 10; 26; 10; 0; 0; 0; 13; 73; 72; 68; 82]%N.

(** A decimal character reference of 4301 digits. *)
Definition long_reference : text :=
  lit "&#" ++ repeat 57%N 4301 ++ lit ";".


(** *** Sessions *)

(** The session state after the runs that a sequence of interactions
    starts, each interaction given by whether it is a click on the button
    and by the text then in the text area. *)
Fixpoint session (replace_charrefs : text -> text)
  (interactions : list (bool * text)) (session_state : gmap string bool)
  : outcome (gmap string bool) :=
  match interactions with
  | [] => Returns session_state
  | (clicked, user_code) :: later =>
      r <- script replace_charrefs clicked user_code session_state ;;
      session replace_charrefs later r.1
  end.

(** Whether [st.session_state] holds a true value under [analyze]. *)
Definition analyze_set (session_state : gmap string bool) : bool :=
  bool_decide (session_state !! "analyze"%string = Some true).

(** A click on the button with a text that is not blank. *)
Definition starts_analysis (interaction : bool * text) : bool :=
  interaction.1 && nonempty (strip interaction.2).

(** *** Comments *)

(** A comment as [comment_re] takes it: the two marks and any text
    between them. *)
Definition comment (m : text) : text := lit "<!--" ++ m ++ lit "-->".

(** *** Character references *)

(** The text holds [&#] followed by more than 4300 decimal digits. *)
Definition holds_long_reference (s : text) : Prop :=
  exists a d b,
    s = a ++ lit "&#" ++ d ++ b
    /\ Forall (fun c => (48 <= c <= 57)%N) d
    /\ 4300 < length d.


(** * Properties *)

(** ** The indicator scorer *)

(** Case analysis on the ten conditions of [ai_checks]. *)
Ltac ten_cases code :=
  destruct (has_indentation code), (3 <=? comment_count code),
    (has_semantic_tags code), (6 <=? bootstrap_count code),
    (has_custom_css_and_media code), (has_kebab_class code),
    (has_doctype_and_viewport code), (has_cdn_link code),
    (has_nested_rows code), (has_lang_and_charset code).

Lemma ai_checks_battery (code : text) :
  ai_checks code =
  (sum_weights (List.map weight (triggered code)),
   List.map (fun c => label c code) (triggered code)).
Proof.
  unfold ai_checks, triggered, battery, sum_weights; cbn [List.filter triggers].
  ten_cases code; reflexivity.
Qed.

Lemma check_ai_indicators_unfold (code : text) :
  check_ai_indicators code =
  (py_min (fst (ai_checks code)) 10, snd (ai_checks code)).
Proof. unfold check_ai_indicators. destruct (ai_checks code); reflexivity. Qed.

Lemma py_min_le_r (a b : Q) : (py_min a b <= b)%Q.
Proof.
  unfold py_min. destruct (Qle_bool a b) eqn:E.
  - apply Qle_bool_iff; exact E.
  - apply Qle_refl.
Qed.

Lemma py_min_ge (a b c : Q) : (c <= a)%Q -> (c <= b)%Q -> (c <= py_min a b)%Q.
Proof. unfold py_min. destruct (Qle_bool a b); auto. Qed.

Lemma fold_left_Qplus_acc (ws : list Q) (a : Q) :
  (fold_left Qplus ws a == a + fold_left Qplus ws 0)%Q.
Proof.
  revert a. induction ws as [|w ws IH]; intros a; simpl.
  - ring.
  - rewrite (IH (a + w)%Q), (IH (0 + w)%Q). ring.
Qed.

Lemma sum_weights_cons (w : Q) (ws : list Q) :
  (sum_weights (w :: ws) == w + sum_weights ws)%Q.
Proof.
  unfold sum_weights. simpl. rewrite fold_left_Qplus_acc. ring.
Qed.

Lemma weight_bounds (c : check) :
  In c battery -> (0 <= weight c)%Q /\ (weight c <= 3 # 2)%Q.
Proof.
  unfold battery. simpl.
  intros H. repeat (destruct H as [<- | H]; [simpl; split; discriminate |]).
  destruct H.
Qed.

Lemma sum_weights_nonneg (cs : list check) :
  (forall c, In c cs -> In c battery) ->
  (0 <= sum_weights (List.map weight cs))%Q.
Proof.
  induction cs as [|c cs IH]; intros Hin.
  - discriminate.
  - simpl. rewrite sum_weights_cons.
    destruct (weight_bounds c) as [H0 _]; [apply Hin; left; reflexivity|].
    assert (0 <= sum_weights (List.map weight cs))%Q
      by (apply IH; intros; apply Hin; right; assumption).
    replace 0%Q with (0 + 0)%Q by reflexivity. apply Qplus_le_compat; assumption.
Qed.

Lemma triggered_in_battery (code : text) (c : check) :
  In c (triggered code) -> In c battery.
Proof. unfold triggered. intros H. apply filter_In in H. tauto. Qed.

Lemma ai_score_nonneg (code : text) : (0 <= fst (ai_checks code))%Q.
Proof.
  rewrite ai_checks_battery. simpl.
  apply sum_weights_nonneg, triggered_in_battery.
Qed.

Lemma prefix_empty (s : string) : String.prefix "" s = true.
Proof. destruct s; reflexivity. Qed.

(** The label of a check determines its weight. *)
Lemma weight_of_label_battery (code : text) (c : check) :
  In c battery -> weight_of_label (label c code) = weight c.
Proof.
  unfold battery. simpl.
  intros H.
  repeat (destruct H as [<- | H];
          [unfold weight_of_label, comments_label, bootstrap_label;
           simpl; rewrite ?prefix_empty; reflexivity |]).
  destruct H.
Qed.

Lemma sum_weight_of_labels (code : text) (cs : list check) :
  (forall c, In c cs -> In c battery) ->
  List.map weight_of_label (List.map (fun c => label c code) cs)
  = List.map weight cs.
Proof.
  induction cs as [|c cs IH]; intros Hin; simpl.
  - reflexivity.
  - rewrite weight_of_label_battery by (apply Hin; left; reflexivity).
    rewrite IH by (intros; apply Hin; right; assumption). reflexivity.
Qed.

Lemma all_ten_text_triggers :
  Forall (fun c => triggers c all_ten_text = true) battery.
Proof. unfold battery. repeat constructor. Qed.

Lemma all_triggered (code : text) :
  Forall (fun c => triggers c code = true) battery ->
  triggered code = battery.
Proof.
  intros H. unfold triggered.
  induction H as [|c cs Hc _ IH]; simpl.
  - reflexivity.
  - rewrite Hc, IH. reflexivity.
Qed.

(** C7. The scorer returns the sum of the weights of the checks that
    trigger, clamped at 10, together with the labels of exactly those
    checks in the order of the battery. *)
Theorem check_ai_indicators_refines_spec (code : text) :
  check_ai_indicators code = score_indicators_spec code.
Proof.
  rewrite check_ai_indicators_unfold, ai_checks_battery. reflexivity.
Qed.

(** C9. The score and the indicators list agree: the score is the sum of
    the weights that belong to the returned labels, capped at 10. *)
Theorem score_matches_indicators (code : text) :
  fst (check_ai_indicators code) =
  py_min (sum_weights (List.map weight_of_label (snd (check_ai_indicators code)))) 10.
Proof.
  rewrite check_ai_indicators_unfold, ai_checks_battery. simpl.
  rewrite sum_weight_of_labels by apply triggered_in_battery. reflexivity.
Qed.

(** C6, as the specification states it, fails: with all ten checks
    triggered the raw sum is not 9.5. *)
Lemma raw_sum_of_all_ten_is_not_9_5 :
  ~ (Forall (fun c => triggers c all_ten_text = true) battery ->
     (fst (ai_checks all_ten_text) == 19 # 2)%Q).
Proof.
  intros H. specialize (H all_ten_text_triggers).
  vm_compute in H. discriminate H.
Qed.

(** C6, amended. When all ten checks trigger the raw sum is 9, below the
    cap of 10; the structure score is an integer from 0 to 8 and the score
    of the indicator scorer lies between 0 and 10. *)
Theorem scores_bounded :
  (forall code,
     Forall (fun c => triggers c code = true) battery ->
     (fst (ai_checks code) == 9)%Q /\ (fst (check_ai_indicators code) == 9)%Q)
  /\ (forall structure, 0 <= structure_score structure <= 8)
  /\ (forall code,
        (0 <= fst (check_ai_indicators code))%Q
        /\ (fst (check_ai_indicators code) <= 10)%Q).
Proof.
  split; [|split].
  - intros code H.
    rewrite check_ai_indicators_unfold, ai_checks_battery, (all_triggered _ H).
    split; reflexivity.
  - intros [d c j k r s m e]. unfold structure_score.
    cbn [has_doctype has_bootstrap_css has_bootstrap_js has_container
         row_count has_custom_css has_media_query col_elements].
    destruct d, c, j, k, (2 <=? r), s, m, (6 <=? e); cbn; lia.
  - intros code. rewrite check_ai_indicators_unfold. simpl. split.
    + apply py_min_ge; [apply ai_score_nonneg | discriminate].
    + apply py_min_le_r.
Qed.

(** The sample text triggers all ten checks and scores 9. *)
Lemma scores_bounded_witness :
  Forall (fun c => triggers c all_ten_text = true) battery
  /\ (fst (ai_checks all_ten_text) == 9)%Q.
Proof.
  split.
  - exact all_ten_text_triggers.
  - exact (proj1 (proj1 scores_bounded all_ten_text all_ten_text_triggers)).
Defined.

(** *** The indentation check *)

(** What [^] accepts, given the character before the position. *)
Definition bol (pv : option N) : bool :=
  match pv with
  | None => true
  | Some c => (c =? 10)%N
  end.

Definition indent_here (pv : option N) (s : text) : bool :=
  bol pv &&
  match s with
  | c1 :: c2 :: _ => isspace c1 && isspace c2
  | _ => false
  end.

Lemma last_char_snoc (s : text) (c : N) : last_char (s ++ [c]) = Some c.
Proof. unfold last_char. rewrite List.map_app. simpl. apply last_last. Qed.

Lemma bol_line_start (before : text) :
  bol (last_char before) = true <-> line_start before.
Proof.
  unfold line_start.
  induction before as [|c before _] using rev_ind.
  - simpl. split; auto.
  - rewrite last_char_snoc. simpl. rewrite N.eqb_eq. split.
    + intros ->. right. exists before. reflexivity.
    + intros [H | [b H]].
      * destruct before; discriminate H.
      * apply app_inj_tail in H. destruct H as [_ H]. exact H.
Qed.

Lemma found_exec_indent (p : nat) (pv : option N) (s : text) :
  found (exec indent_re (MState p pv s []) Some) = indent_here pv s.
Proof.
  unfold indent_re, indent_here, bol. simpl.
  destruct pv as [c|]; [destruct (c =? 10)%N|]; simpl; try reflexivity;
    (destruct s as [|c1 [|c2 tl]]; simpl; try reflexivity;
     [destruct (isspace c1); reflexivity
     |destruct (isspace c1); simpl; [destruct (isspace c2)|]; reflexivity]).
Qed.

Lemma found_search_from (r : regex) (p : nat) (pv : option N) (s : text) :
  found (search_from r p pv s) =
  found (exec r (MState p pv s []) Some) ||
  match s with
  | [] => false
  | c :: tl => found (search_from r (S p) (Some c) tl)
  end.
Proof.
  destruct s as [|c tl]; cbn -[exec];
    destruct (exec r _ Some); reflexivity.
Qed.

Lemma found_search_indent (p : nat) (pv : option N) (s : text) :
  found (search_from indent_re p pv s) =
  indent_here pv s ||
  match s with
  | [] => false
  | c :: tl => found (search_from indent_re (S p) (Some c) tl)
  end.
Proof. rewrite found_search_from, found_exec_indent. reflexivity. Qed.

Lemma search_indent_spec (s before : text) (p : nat) :
  found (search_from indent_re p (last_char before) s) = true <->
  exists mid c1 c2 after,
    s = mid ++ c1 :: c2 :: after /\ line_start (before ++ mid)
    /\ isspace c1 = true /\ isspace c2 = true.
Proof.
  revert before p. induction s as [|c tl IH]; intros before p;
    rewrite found_search_indent, orb_true_iff.
  - split.
    + intros [H | H]; [|discriminate H].
      unfold indent_here in H. rewrite andb_false_r in H. discriminate H.
    + intros (mid & c1 & c2 & after & H & _).
      destruct mid; discriminate H.
  - specialize (IH (before ++ [c]) (S p)). rewrite last_char_snoc in IH.
    rewrite IH. clear IH. split.
    + intros [H | (mid & c1 & c2 & after & -> & Hl & H1 & H2)].
      * unfold indent_here in H. apply andb_true_iff in H. destruct H as [Hb H].
        destruct tl as [|c2 tl]; [discriminate H|].
        apply andb_true_iff in H. destruct H as [H1 H2].
        exists [], c, c2, tl. rewrite app_nil_r.
        repeat split; auto. apply bol_line_start, Hb.
      * exists (c :: mid), c1, c2, after.
        rewrite <- app_assoc in Hl. repeat split; auto.
    + intros (mid & c1 & c2 & after & H & Hl & H1 & H2).
      destruct mid as [|m mid].
      * left. simpl in H. injection H as -> ->. rewrite app_nil_r in Hl.
        unfold indent_here. apply bol_line_start in Hl.
        rewrite Hl, H1, H2. reflexivity.
      * right. simpl in H. injection H as -> ->.
        exists mid, c1, c2, after. rewrite <- app_assoc. repeat split; auto.
Qed.

Lemma has_indentation_spec (code : text) :
  has_indentation code = true <->
  exists before c1 c2 after,
    code = before ++ c1 :: c2 :: after /\ line_start before
    /\ isspace c1 = true /\ isspace c2 = true.
Proof.
  unfold has_indentation, re_search, at_pos. simpl.
  apply (search_indent_spec code [] 0).
Qed.

(** The first label is in the list exactly when the first check
    triggers. *)
Lemma indentation_label_iff (code : text) :
  In "Consistent 2-space indentation"%string (snd (check_ai_indicators code))
  <-> has_indentation code = true.
Proof.
  rewrite check_ai_indicators_unfold, ai_checks_battery. cbn [snd].
  rewrite in_map_iff. unfold triggered. split.
  - intros (c & Hl & Hc). apply filter_In in Hc. destruct Hc as [Hb Ht].
    unfold battery in Hb. simpl in Hb.
    destruct Hb as [<- | Hb]; [exact Ht|].
    repeat (destruct Hb as [<- | Hb];
            [unfold label, comments_label, bootstrap_label in Hl;
             simpl in Hl; discriminate Hl |]).
    destruct Hb.
  - intros H.
    exists {| triggers := has_indentation; weight := 1;
              label := fun _ => "Consistent 2-space indentation"%string |}.
    split; [reflexivity|]. apply filter_In. split; [left; reflexivity|exact H].
Qed.

(** C10. The indentation indicator is reported exactly when some line of
    the input begins with two whitespace characters of any kind, not only
    spaces: a line that starts with two tabs triggers it although the text
    holds no two-space indentation, and so do consecutive blank lines. *)
Theorem indentation_check_any_whitespace :
  (forall code,
     In "Consistent 2-space indentation"%string
        (snd (check_ai_indicators code))
     <-> exists before c1 c2 after,
           code = before ++ c1 :: c2 :: after /\ line_start before
           /\ isspace c1 = true /\ isspace c2 = true)
  /\ (exists code,
        contains (lit "  ") code = false
        /\ In "Consistent 2-space indentation"%string
              (snd (check_ai_indicators code)))
  /\ In "Consistent 2-space indentation"%string
        (snd (check_ai_indicators (lit "a" ++ [10; 10; 10]%N ++ lit "b"))).
Proof.
  split; [|split].
  - intros code. rewrite indentation_label_iff. apply has_indentation_spec.
  - exists ([9; 9]%N ++ lit "<p>tabs</p>"). split.
    + reflexivity.
    + apply indentation_label_iff. reflexivity.
  - apply indentation_label_iff. reflexivity.
Qed.

(** ** The similarity scorer *)

Local Open Scope Z_scope.

Lemma py_index_in_range (s : text) (i : Z) :
  0 <= i < Z.of_nat (length s) ->
  exists c, py_index s i = Returns c /\ nth_error s (Z.to_nat i) = Some c.
Proof.
  intros H. unfold py_index.
  replace (i <? 0) with false by (symmetry; apply Z.ltb_ge; lia).
  replace ((0 <=? i) && (i <? Z.of_nat (length s)))%bool with true
    by (symmetry; apply andb_true_iff; split;
        [apply Z.leb_le | apply Z.ltb_lt]; lia).
  destruct (nth_error s (Z.to_nat i)) as [c|] eqn:E.
  - exists c. split; reflexivity.
  - apply nth_error_None in E. lia.
Qed.

Lemma py_range_nil (lo hi : Z) : hi <= lo -> py_range lo hi = [].
Proof.
  intros H. unfold py_range.
  replace (Z.to_nat (hi - lo)) with 0%nat by lia. reflexivity.
Qed.

Lemma py_range_cons (lo hi : Z) :
  lo < hi -> py_range lo hi = lo :: py_range (lo + 1) hi.
Proof.
  intros H. unfold py_range.
  replace (Z.to_nat (hi - lo)) with (S (Z.to_nat (hi - (lo + 1)))) by lia.
  simpl. f_equal; [lia|].
  rewrite <- seq_shift, List.map_map.
  apply List.map_ext. intros k. lia.
Qed.

(** A window [a[alo:ahi]], [b[blo:bhi]] inside the two sequences. *)
Definition window_ok (m : SequenceMatcher) (w : Z * Z * Z * Z) : Prop :=
  let '(alo, ahi, blo, bhi) := w in
  0 <= alo <= ahi /\ ahi <= Z.of_nat (length (seq_a m)) /\
  0 <= blo <= bhi /\ bhi <= Z.of_nat (length (seq_b m)).

(** A block inside a window. *)
Definition in_window (w : Z * Z * Z * Z) (x : block) : Prop :=
  let '(alo, ahi, blo, bhi) := w in
  let '(i, j, k) := x in
  alo <= i /\ blo <= j /\ 0 <= k /\ i + k <= ahi /\ j + k <= bhi.

(** The lengths recorded for row [i] fit between the start of the window
    and the cell they belong to. *)
Definition row_fits (alo blo i : Z) (j2len : gmap Z Z) : Prop :=
  forall j k, j2len !! j = Some k ->
    1 <= k /\ k <= i - alo + 1 /\ k <= j - blo + 1.

Lemma scan_row_fits (alo ahi blo bhi i : Z) (j2len : gmap Z Z) (js : list Z) :
  alo <= i < ahi ->
  row_fits alo blo (i - 1) j2len ->
  forall newj2len best,
    row_fits alo blo i newj2len ->
    in_window (alo, ahi, blo, bhi) best ->
    row_fits alo blo i (scan_row i blo bhi j2len js newj2len best).1
    /\ in_window (alo, ahi, blo, bhi)
         (scan_row i blo bhi j2len js newj2len best).2.
Proof.
  intros Hi Hprev. induction js as [|j js IH]; intros newj2len best Hnew Hbest.
  - simpl. auto.
  - simpl. destruct (j <? blo) eqn:Hlo; [apply IH; assumption|].
    destruct (bhi <=? j) eqn:Hhi; [simpl; auto|].
    apply Z.ltb_ge in Hlo. apply Z.leb_gt in Hhi.
    destruct best as [[besti bestj] bestsize].
    set (k := default 0 (j2len !! (j - 1)) + 1).
    assert (Hk : 1 <= k /\ k <= i - alo + 1 /\ k <= j - blo + 1).
    { subst k. destruct (j2len !! (j - 1)) as [k'|] eqn:E; simpl.
      - apply Hprev in E. lia.
      - lia. }
    apply IH.
    + intros j' k' E. destruct (decide (j = j')) as [<- | Hne].
      * rewrite lookup_insert_eq in E. injection E as <-. exact Hk.
      * rewrite lookup_insert_ne in E by exact Hne. apply Hnew in E. exact E.
    + destruct (bestsize <? k); [|exact Hbest].
      simpl. lia.
Qed.

Lemma scan_rows_in_window (m : SequenceMatcher) (alo ahi blo bhi : Z)
  (rows : nat) :
  forall i0 j2len best,
    0 <= alo <= i0 -> ahi <= Z.of_nat (length (seq_a m)) ->
    Z.to_nat (ahi - i0) = rows ->
    row_fits alo blo (i0 - 1) j2len ->
    in_window (alo, ahi, blo, bhi) best ->
    exists best',
      scan_rows m blo bhi (py_range i0 ahi) j2len best = Returns best'
      /\ in_window (alo, ahi, blo, bhi) best'.
Proof.
  induction rows as [|rows IH]; intros i0 j2len best Hlo Hhi Hrows Hfit Hbest.
  - rewrite py_range_nil by lia. simpl. eauto.
  - rewrite py_range_cons by lia. simpl.
    destruct (py_index_in_range (seq_a m) i0) as (c & -> & _); [lia|]. simpl.
    pose proof (scan_row_fits alo ahi blo bhi i0 j2len
                  (default [] (b2j m !! c)) ltac:(lia) Hfit ∅ best) as H.
    destruct (scan_row i0 blo bhi j2len (default [] (b2j m !! c)) ∅ best)
      as [newj2len best1].
    destruct H as [Hfit1 Hbest1]; [intros j k E; rewrite lookup_empty in E; discriminate|exact Hbest|].
    apply IH; try lia.
    + replace (i0 + 1 - 1) with i0 by lia. exact Hfit1.
    + exact Hbest1.
Qed.

Lemma extend_left_in_window (m : SequenceMatcher) (alo ahi blo bhi : Z)
  (junk : bool) (fuel : nat) :
  window_ok m (alo, ahi, blo, bhi) ->
  forall best,
    in_window (alo, ahi, blo, bhi) best ->
    (Z.to_nat (best.1.1 - alo) < fuel)%nat ->
    exists best',
      extend_left fuel m alo blo junk best = Returns best'
      /\ in_window (alo, ahi, blo, bhi) best'.
Proof.
  intros Hw. induction fuel as [|fuel IH]; intros [[besti bestj] bestsize] Hb Hfuel.
  - lia.
  - simpl in *. destruct Hw as (Ha & Hla & Hb' & Hlb).
    destruct ((alo <? besti) && (blo <? bestj))%bool eqn:E; [|eauto].
    apply andb_true_iff in E. destruct E as [E1 E2].
    apply Z.ltb_lt in E1, E2.
    destruct (py_index_in_range (seq_b m) (bestj - 1)) as (bj & -> & _); [lia|].
    simpl. destruct (eqb (isbjunk m bj) junk); [|eauto].
    destruct (py_index_in_range (seq_a m) (besti - 1)) as (ai & -> & _); [lia|].
    simpl. destruct (ai =? bj)%N; [|eauto].
    apply IH; simpl; lia.
Qed.

Lemma extend_right_in_window (m : SequenceMatcher) (alo ahi blo bhi : Z)
  (junk : bool) (fuel : nat) :
  window_ok m (alo, ahi, blo, bhi) ->
  forall best,
    in_window (alo, ahi, blo, bhi) best ->
    (Z.to_nat (ahi - best.1.1 - best.2) < fuel)%nat ->
    exists best',
      extend_right fuel m ahi bhi junk best = Returns best'
      /\ in_window (alo, ahi, blo, bhi) best'.
Proof.
  intros Hw. induction fuel as [|fuel IH]; intros [[besti bestj] bestsize] Hb Hfuel.
  - lia.
  - simpl in *. destruct Hw as (Ha & Hla & Hb' & Hlb).
    destruct ((besti + bestsize <? ahi) && (bestj + bestsize <? bhi))%bool eqn:E;
      [|eauto].
    apply andb_true_iff in E. destruct E as [E1 E2].
    apply Z.ltb_lt in E1, E2.
    destruct (py_index_in_range (seq_b m) (bestj + bestsize)) as (bj & -> & _);
      [lia|].
    simpl. destruct (eqb (isbjunk m bj) junk); [|eauto].
    destruct (py_index_in_range (seq_a m) (besti + bestsize)) as (ai & -> & _);
      [lia|].
    simpl. destruct (ai =? bj)%N; [|eauto].
    apply IH; simpl; lia.
Qed.

(** [find_longest_match] returns a block inside the window it is given:
    no index leaves the sequences and every loop ends. *)
Lemma find_longest_match_in_window (m : SequenceMatcher) (alo ahi blo bhi : Z) :
  window_ok m (alo, ahi, blo, bhi) ->
  exists best,
    find_longest_match m alo ahi blo bhi = Returns best
    /\ in_window (alo, ahi, blo, bhi) best.
Proof.
  intros Hw. unfold find_longest_match.
  pose proof Hw as (Ha & Hla & Hb & Hlb).
  destruct (scan_rows_in_window m alo ahi blo bhi (Z.to_nat (ahi - alo)) alo ∅
              (alo, blo, 0)) as (b1 & -> & H1); try lia; try reflexivity.
  { intros j k E. rewrite lookup_empty in E. discriminate. }
  { simpl. lia. }
  cbn [bind].
  destruct (extend_left_in_window m alo ahi blo bhi false
              (turns (b1.1.1 - alo)) Hw b1 H1) as (b2 & -> & H2);
    [unfold turns; lia|].
  cbn [bind].
  destruct (extend_right_in_window m alo ahi blo bhi false
              (turns (ahi - b2.1.1 - b2.2)) Hw b2 H2) as (b3 & -> & H3);
    [unfold turns; lia|].
  cbn [bind].
  destruct (extend_left_in_window m alo ahi blo bhi true
              (turns (b3.1.1 - alo)) Hw b3 H3) as (b4 & -> & H4);
    [unfold turns; lia|].
  cbn [bind].
  destruct (extend_right_in_window m alo ahi blo bhi true
              (turns (ahi - b4.1.1 - b4.2)) Hw b4 H4) as (b5 & -> & H5);
    [unfold turns; lia|].
  cbn [bind]. eauto.
Qed.

(** What the windows of the queue still cover of [a], counted so that
    every turn of the loop lowers it. *)
Definition queue_weight (queue : list (Z * Z * Z * Z)) : nat :=
  list_sum (List.map (fun w => S (2 * Z.to_nat (w.1.1.2 - w.1.1.1))) queue).

Lemma queue_weight_cons (alo ahi blo bhi : Z) (queue : list (Z * Z * Z * Z)) :
  queue_weight ((alo, ahi, blo, bhi) :: queue)
  = (S (2 * Z.to_nat (ahi - alo)) + queue_weight queue)%nat.
Proof. reflexivity. Qed.

Lemma match_queue_returns (m : SequenceMatcher) (fuel : nat) :
  forall queue matching_blocks,
    Forall (window_ok m) queue ->
    (queue_weight queue < fuel)%nat ->
    exists blocks, match_queue fuel m queue matching_blocks = Returns blocks.
Proof.
  induction fuel as [|fuel IH]; intros queue blocks Hq Hfuel; [lia|].
  destruct queue as [|[[[alo ahi] blo] bhi] queue]; cbn [match_queue];
    [eauto|].
  inversion Hq as [|w q Hw Hq']; subst.
  destruct (find_longest_match_in_window m alo ahi blo bhi Hw)
    as ([[i j] k] & -> & Hin).
  cbn [bind]. cbn [in_window] in Hin. destruct Hw as (Ha & Hla & Hb & Hlb).
  rewrite queue_weight_cons in Hfuel.
  destruct (k =? 0) eqn:Hk.
  - apply IH; [exact Hq' | lia].
  - apply Z.eqb_neq in Hk. apply IH.
    + assert (H1 : Forall (window_ok m)
                     (if ((alo <? i) && (blo <? j))%bool
                      then (alo, i, blo, j) :: queue else queue)).
      { destruct ((alo <? i) && (blo <? j))%bool eqn:E1; [|exact Hq'].
        apply andb_true_iff in E1. destruct E1 as [E1 E1'].
        apply Z.ltb_lt in E1, E1'.
        constructor; [cbn [window_ok]; lia | exact Hq']. }
      destruct ((i + k <? ahi) && (j + k <? bhi))%bool eqn:E2; [|exact H1].
      apply andb_true_iff in E2. destruct E2 as [E2 E2'].
      apply Z.ltb_lt in E2, E2'.
      constructor; [cbn [window_ok]; lia | exact H1].
    + destruct ((i + k <? ahi) && (j + k <? bhi))%bool;
        destruct ((alo <? i) && (blo <? j))%bool;
        rewrite ?queue_weight_cons; lia.
Qed.

Lemma get_matching_blocks_returns (m : SequenceMatcher) :
  exists blocks, get_matching_blocks m = Returns blocks.
Proof.
  unfold get_matching_blocks.
  destruct (match_queue_returns m
              (queue_turns (Z.of_nat (length (seq_a m))))
              [(0, Z.of_nat (length (seq_a m)), 0, Z.of_nat (length (seq_b m)))]
              []) as (blocks & ->).
  - constructor; [|constructor]. cbn [window_ok]. lia.
  - rewrite queue_weight_cons. unfold queue_turns, queue_weight.
    cbn [List.map]. change (list_sum []) with 0%nat. lia.
  - cbn [bind]. eauto.
Qed.

(** The similarity scorer returns a number for every pair of texts. *)
Lemma calculate_similarity_returns (text1 text2 : text) :
  exists q, calculate_similarity text1 text2 = Returns q.
Proof.
  unfold calculate_similarity, ratio.
  destruct (get_matching_blocks_returns
              (new_SequenceMatcher (strip text1) (strip text2))) as (blocks & ->).
  cbn [bind]. eauto.
Qed.

(** *** The index [b2j] *)

(** The offsets of [c] in [b], counted from [i], in increasing order. *)
Fixpoint positions (c : N) (b : text) (i : Z) : list Z :=
  match b with
  | [] => []
  | x :: tl =>
      if (x =? c)%N then i :: positions c tl (i + 1)
      else positions c tl (i + 1)
  end.

Lemma index_elements_lookup (c : N) (b : text) :
  forall (i : Z) (m : gmap N (list Z)),
    default [] (index_elements i b m !! c)
    = default [] (m !! c) ++ positions c b i.
Proof.
  induction b as [|x tl IH]; intros i m; simpl.
  - rewrite app_nil_r. reflexivity.
  - rewrite IH. destruct (N.eqb_spec x c) as [-> | Hne].
    + rewrite lookup_insert_eq. simpl. rewrite <- app_assoc. reflexivity.
    + rewrite lookup_insert_ne by exact Hne. reflexivity.
Qed.

Lemma positions_In (c : N) (b : text) :
  forall (i j : Z),
    In j (positions c b i) <->
    i <= j /\ nth_error b (Z.to_nat (j - i)) = Some c.
Proof.
  induction b as [|x tl IH]; intros i j; simpl.
  - split; [tauto|]. intros [_ H]. destruct (Z.to_nat (j - i)); discriminate.
  - assert (Htl : In j (positions c tl (i + 1)) <->
                  i < j /\ nth_error (x :: tl) (Z.to_nat (j - i)) = Some c).
    { rewrite IH. split; intros [H1 H2]; (split; [lia|]).
      - replace (Z.to_nat (j - i)) with (S (Z.to_nat (j - (i + 1)))) by lia.
        exact H2.
      - replace (Z.to_nat (j - i)) with (S (Z.to_nat (j - (i + 1)))) in H2 by lia.
        exact H2. }
    destruct (N.eqb_spec x c) as [-> | Hne]; simpl; rewrite Htl.
    + split.
      * intros [<- | [H1 H2]]; [|split; [lia|exact H2]].
        split; [lia|]. rewrite Z.sub_diag. reflexivity.
      * intros [H1 H2]. destruct (Z.eq_dec i j) as [->|]; [left; reflexivity|].
        right. split; [lia|exact H2].
    + split.
      * intros [H1 H2]. split; [lia|exact H2].
      * intros [H1 H2]. split; [|exact H2].
        destruct (Z.eq_dec i j) as [->|]; [|lia].
        rewrite Z.sub_diag in H2. simpl in H2. congruence.
Qed.

Lemma positions_sorted (c : N) (b : text) :
  forall i, StronglySorted Z.lt (positions c b i).
Proof.
  induction b as [|x tl IH]; intros i; simpl.
  - constructor.
  - destruct (x =? c)%N; [|apply IH].
    constructor; [apply IH|].
    apply List.Forall_forall. intros j Hj. apply positions_In in Hj. lia.
Qed.

(** The entry of [b2j] for a character, with [[]] for no entry, is empty
    (the character is popular, or absent) or lists all its positions. *)
Lemma chain_b_lookup (b : text) (c : N) :
  default [] ((chain_b b).1.1 !! c) = []
  \/ default [] ((chain_b b).1.1 !! c) = positions c b 0.
Proof.
  pose proof (index_elements_lookup c b 0 ∅) as H.
  rewrite lookup_empty in H. simpl in H.
  unfold chain_b. destruct (200 <=? Z.of_nat (length b)); cbn [fst].
  - match goal with |- context [filter ?P ?m !! c] =>
      destruct (filter P m !! c) as [v|] eqn:E end.
    + apply map_lookup_filter_Some in E. destruct E as [E _].
      rewrite E in H. right. exact H.
    + left. reflexivity.
  - right. exact H.
Qed.

Lemma chain_b_no_junk (b : text) : (chain_b b).1.2 = ∅.
Proof. unfold chain_b. destruct (200 <=? Z.of_nat (length b)); reflexivity. Qed.

Lemma new_SequenceMatcher_fields (a b : text) :
  seq_a (new_SequenceMatcher a b) = a
  /\ seq_b (new_SequenceMatcher a b) = b
  /\ b2j (new_SequenceMatcher a b) = (chain_b b).1.1
  /\ bjunk (new_SequenceMatcher a b) = ∅.
Proof.
  unfold new_SequenceMatcher. pose proof (chain_b_no_junk b) as H.
  destruct (chain_b b) as [[m j] p]. simpl in *. auto.
Qed.

(** *** A text compared with itself *)

Section SelfMatch.

Variable x : text.
Variable m : SequenceMatcher.
Hypothesis m_a : seq_a m = x.
Hypothesis m_b : seq_b m = x.
Hypothesis m_b2j :
  forall c, default [] (b2j m !! c) = []
            \/ default [] (b2j m !! c) = positions c x 0.
Hypothesis m_junk : bjunk m = ∅.

Let n : Z := Z.of_nat (length x).

(** A character with an entry in [b2j]. *)
Definition rare (c : N) : bool :=
  match default [] (b2j m !! c) with
  | [] => false
  | _ :: _ => true
  end.

(** The length of the run of rare characters of [x] that ends at offset
    [i]. *)
Fixpoint run (i : nat) : Z :=
  match nth_error x i with
  | Some c =>
      if rare c
      then 1 + match i with O => 0 | S i' => run i' end
      else 0
  | None => 0
  end.

Definition run_at (j : Z) : Z := if j <? 0 then 0 else run (Z.to_nat j).

Lemma run_eq (i : nat) :
  run i = match nth_error x i with
          | Some c =>
              if rare c
              then 1 + match i with O => 0 | S i' => run i' end
              else 0
          | None => 0
          end.
Proof. destruct i; reflexivity. Qed.

Lemma run_nonneg (i : nat) : 0 <= run i.
Proof.
  induction i as [|i IH]; rewrite run_eq;
    (destruct (nth_error x _) as [c|]; [destruct (rare c)|]; lia).
Qed.

Lemma run_at_nonneg (j : Z) : 0 <= run_at j.
Proof. unfold run_at. destruct (j <? 0); [lia | apply run_nonneg]. Qed.

Lemma run_at_step (j : Z) (c : N) :
  0 <= j -> nth_error x (Z.to_nat j) = Some c -> rare c = true ->
  run_at j = run_at (j - 1) + 1.
Proof.
  intros Hj Hc Hr. unfold run_at.
  replace (j <? 0) with false by (symmetry; apply Z.ltb_ge; lia).
  destruct (Z.eq_dec j 0) as [-> | Hne].
  - change (Z.to_nat 0) with 0%nat in *. rewrite run_eq, Hc, Hr. reflexivity.
  - replace (j - 1 <? 0) with false by (symmetry; apply Z.ltb_ge; lia).
    replace (Z.to_nat j) with (S (Z.to_nat (j - 1))) in * by lia.
    rewrite run_eq, Hc, Hr. lia.
Qed.

Lemma run_at_zero (j : Z) (c : N) :
  0 <= j -> nth_error x (Z.to_nat j) = Some c -> rare c = false ->
  run_at j = 0.
Proof.
  intros Hj Hc Hr. unfold run_at.
  replace (j <? 0) with false by (symmetry; apply Z.ltb_ge; lia).
  rewrite run_eq, Hc, Hr. reflexivity.
Qed.

(** After row [i]: every recorded length is at most the run that ends at
    [i] and the run that ends at its own column, and the cell on the
    diagonal holds the run itself. *)
Definition cells_bounded (i : Z) (j2len : gmap Z Z) : Prop :=
  forall j k, j2len !! j = Some k -> 1 <= k /\ k <= run_at i /\ k <= run_at j.

Definition row_inv (i : Z) (j2len : gmap Z Z) : Prop :=
  cells_bounded i j2len /\ default 0 (j2len !! i) = run_at i.

(** The best block lies on the diagonal and is at least as long as every
    run that ends at or before row [i]. *)
Definition best_inv (i : Z) (best : block) : Prop :=
  best.1.1 = best.1.2 /\ 0 <= best.2
  /\ forall j, 0 <= j <= i -> run_at j <= best.2.

Lemma scan_row_diag (i : Z) (c : N) (j2len : gmap Z Z) :
  0 <= i < n ->
  nth_error x (Z.to_nat i) = Some c ->
  rare c = true ->
  row_inv (i - 1) j2len ->
  forall js newj2len best,
    StronglySorted Z.lt js ->
    (forall j, In j js -> 0 <= j < n /\ nth_error x (Z.to_nat j) = Some c) ->
    cells_bounded i newj2len ->
    best_inv (i - 1) best ->
    (In i js /\ newj2len !! i = None
     \/ (forall j, In j js -> i < j) /\ newj2len !! i = Some (run_at i)
        /\ run_at i <= best.2) ->
    row_inv i (scan_row i 0 n j2len js newj2len best).1
    /\ best_inv i (scan_row i 0 n j2len js newj2len best).2.
Proof.
  intros Hi Hc Hr [Hprev Hdiag].
  pose proof (run_at_step i c ltac:(lia) Hc Hr) as Hstep.
  induction js as [|j js IH]; intros newj2len best Hs Hjs Hnew Hbest Hprog.
  - simpl. destruct Hprog as [[[] _] | (_ & Hd & Hle)].
    split.
    + split; [exact Hnew|]. rewrite Hd. reflexivity.
    + destruct Hbest as (Hb1 & Hb2 & Hb3). repeat split; auto.
      intros j Hj. destruct (Z.eq_dec j i) as [-> | Hne]; [exact Hle|].
      apply Hb3. lia.
  - destruct (Hjs j (or_introl eq_refl)) as [Hjn Hjc].
    inversion Hs as [|? ? Hs' Hlt]; subst.
    pose proof (run_at_step j c ltac:(lia) Hjc Hr) as Hstepj.
    simpl.
    replace (j <? 0) with false by (symmetry; apply Z.ltb_ge; lia).
    fold n. replace (n <=? j) with false by (symmetry; apply Z.leb_gt; lia).
    destruct best as [[besti bestj] bestsize].
    set (k := default 0 (j2len !! (j - 1)) + 1).
    assert (Hk : 1 <= k /\ k <= run_at i /\ k <= run_at j).
    { subst k. destruct (j2len !! (j - 1)) as [k'|] eqn:E; simpl.
      - apply Hprev in E. lia.
      - pose proof (run_at_nonneg (i - 1)). pose proof (run_at_nonneg (j - 1)).
        lia. }
    assert (Hnew' : cells_bounded i (<[j := k]> newj2len)).
    { intros j' k' E. destruct (decide (j = j')) as [<- | Hne].
      - rewrite lookup_insert_eq in E. injection E as <-. exact Hk.
      - rewrite lookup_insert_ne in E by exact Hne. apply Hnew in E. exact E. }
    destruct Hbest as (Hb1 & Hb2 & Hb3). simpl in Hb1, Hb2, Hb3.
    rewrite List.Forall_forall in Hlt.
    assert (Hjs' : forall j', In j' js ->
                     0 <= j' < n /\ nth_error x (Z.to_nat j') = Some c)
      by (intros j' Hj'; apply Hjs; right; exact Hj').
    destruct (Z.lt_trichotomy j i) as [Hji | [-> | Hji]].
    + (* a column before the diagonal *)
      assert (Hno : (bestsize <? k) = false).
      { apply Z.ltb_ge. specialize (Hb3 j ltac:(lia)). lia. }
      rewrite Hno.
      apply IH; [exact Hs' | exact Hjs' | exact Hnew' | repeat split; auto |].
      destruct Hprog as [[[Heq | Hin] Hnone] | (Hall & _)].
      * lia.
      * left. split; [exact Hin|]. rewrite lookup_insert_ne by lia. exact Hnone.
      * specialize (Hall j (or_introl eq_refl)). lia.
    + (* the diagonal *)
      assert (Hki : k = run_at i).
      { subst k. rewrite Hdiag. lia. }
      apply IH; [exact Hs' | exact Hjs' | exact Hnew' | |].
      * destruct (bestsize <? k) eqn:Hup; unfold best_inv; cbn [fst snd];
          repeat split; auto; try lia.
        intros j Hj. apply Z.ltb_lt in Hup. specialize (Hb3 j Hj). lia.
      * right. split; [|split].
        -- intros j' Hj'. apply Hlt. exact Hj'.
        -- rewrite lookup_insert_eq. rewrite Hki. reflexivity.
        -- destruct (bestsize <? k) eqn:Hup; simpl.
          ++ lia.
          ++ apply Z.ltb_ge in Hup. lia.
    + (* a column after the diagonal *)
      destruct Hprog as [[[Heq | Hin] _] | (Hall & Hd & Hle)].
      * lia.
      * specialize (Hlt i Hin). lia.
      * simpl in Hle.
        assert (Hno : (bestsize <? k) = false) by (apply Z.ltb_ge; lia).
        rewrite Hno.
        apply IH; [exact Hs' | exact Hjs' | exact Hnew' | repeat split; auto |].
        right. split; [|split].
        -- intros j' Hj'. apply Hall. right. exact Hj'.
        -- rewrite lookup_insert_ne by lia. exact Hd.
        -- exact Hle.
Qed.

Lemma scan_rows_diag (rows : nat) :
  forall i0 j2len best,
    0 <= i0 -> Z.to_nat (n - i0) = rows ->
    row_inv (i0 - 1) j2len ->
    best_inv (i0 - 1) best ->
    forall best',
      scan_rows m 0 n (py_range i0 n) j2len best = Returns best' ->
      best'.1.1 = best'.1.2.
Proof.
  induction rows as [|rows IH]; intros i0 j2len best Hi0 Hrows Hrow Hbest best'.
  - rewrite py_range_nil by lia. simpl. intros [= <-]. apply Hbest.
  - rewrite py_range_cons by lia. simpl. rewrite m_a.
    destruct (py_index_in_range x i0) as (c & -> & Hc); [fold n; lia|].
    cbn [bind].
    assert (Hcase : row_inv i0 (scan_row i0 0 n j2len (default [] (b2j m !! c)) ∅ best).1
                    /\ best_inv i0 (scan_row i0 0 n j2len (default [] (b2j m !! c)) ∅ best).2).
    { destruct (rare c) eqn:Hr.
      - apply (scan_row_diag i0 c); auto; try lia.
        + unfold rare in Hr. destruct (m_b2j c) as [E | E]; rewrite E in *;
            [discriminate Hr | apply positions_sorted].
        + intros j Hj. unfold rare in Hr.
          destruct (m_b2j c) as [E | E]; rewrite E in *; [destruct Hj|].
          apply positions_In in Hj. rewrite Z.sub_0_r in Hj. destruct Hj as [H0 Hj].
          split; [|exact Hj]. split; [exact H0|].
          assert (Z.to_nat j < length x)%nat
            by (apply nth_error_Some; rewrite Hj; discriminate).
          unfold n. lia.
        + intros j k E. rewrite lookup_empty in E. discriminate E.
        + left. split; [|apply lookup_empty].
          unfold rare in Hr. destruct (m_b2j c) as [E | E]; rewrite E in *;
            [discriminate Hr|].
          apply positions_In. rewrite Z.sub_0_r. split; [lia|exact Hc].
      - unfold rare in Hr. destruct (default [] (b2j m !! c)) eqn:E; [|discriminate].
        simpl. assert (H0 : run_at i0 = 0)
          by (apply (run_at_zero i0 c); auto; unfold rare; rewrite E; reflexivity).
        split.
        + split.
          * intros j k E'. rewrite lookup_empty in E'. discriminate E'.
          * rewrite lookup_empty. simpl. symmetry. exact H0.
        + destruct Hbest as (Hb1 & Hb2 & Hb3). repeat split; auto.
          intros j Hj. destruct (Z.eq_dec j i0) as [-> | Hne]; [lia|].
          apply Hb3. lia. }
    destruct (scan_row i0 0 n j2len (default [] (b2j m !! c)) ∅ best)
      as [newj2len best1].
    destruct Hcase as [Hrow1 Hbest1]. simpl in Hrow1, Hbest1.
    apply IH; try lia.
    + replace (i0 + 1 - 1) with i0 by lia. exact Hrow1.
    + replace (i0 + 1 - 1) with i0 by lia. exact Hbest1.
Qed.

Lemma isbjunk_false (c : N) : isbjunk m c = false.
Proof.
  unfold isbjunk. rewrite m_junk. apply bool_decide_eq_false.
  apply not_elem_of_empty.
Qed.

(** On the diagonal the block grows to the left up to the start. *)
Lemma extend_left_diag (fuel : nat) :
  forall d s,
    0 <= d <= n -> (Z.to_nat d < fuel)%nat ->
    extend_left fuel m 0 0 false (d, d, s) = Returns (0, 0, s + d).
Proof.
  induction fuel as [|fuel IH]; intros d s Hd Hfuel; [lia|].
  simpl. destruct (0 <? d) eqn:E; simpl.
  - apply Z.ltb_lt in E. rewrite m_a, m_b.
    destruct (py_index_in_range x (d - 1)) as (c & -> & _); [fold n; lia|].
    cbn [bind]. rewrite isbjunk_false. simpl. rewrite N.eqb_refl.
    rewrite IH by lia. f_equal. f_equal. lia.
  - apply Z.ltb_ge in E. replace d with 0 by lia.
    rewrite Z.add_0_r. reflexivity.
Qed.

(** From the start of both sequences the block grows to the right up to
    the end. *)
Lemma extend_right_diag (fuel : nat) :
  forall s,
    0 <= s <= n -> (Z.to_nat (n - s) < fuel)%nat ->
    extend_right fuel m n n false (0, 0, s) = Returns (0, 0, n).
Proof.
  induction fuel as [|fuel IH]; intros s Hs Hfuel; [lia|].
  simpl. rewrite !Z.add_0_l. destruct (s <? n) eqn:E; simpl.
  - apply Z.ltb_lt in E. rewrite m_a, m_b.
    destruct (py_index_in_range x s) as (c & -> & _); [fold n; lia|].
    cbn [bind]. rewrite isbjunk_false. simpl. rewrite N.eqb_refl.
    apply IH; lia.
  - apply Z.ltb_ge in E. replace s with n by lia. reflexivity.
Qed.

(** The longest match of a text with itself is the whole text. *)
Lemma find_longest_match_self :
  find_longest_match m 0 n 0 n = Returns (0, 0, n).
Proof.
  assert (Hw : window_ok m (0, n, 0, n)).
  { cbn [window_ok]. rewrite m_a, m_b. fold n. lia. }
  unfold find_longest_match.
  destruct (scan_rows_in_window m 0 n 0 n (Z.to_nat (n - 0)) 0 ∅ (0, 0, 0))
    as ([[d d'] s] & E & Hin); try lia; try reflexivity.
  { rewrite m_a. fold n. lia. }
  { intros j k E. rewrite lookup_empty in E. discriminate. }
  { cbn [in_window]. lia. }
  pose proof (scan_rows_diag _ 0 ∅ (0, 0, 0) ltac:(lia) eq_refl) as Hd.
  specialize (Hd ltac:(split;
      [intros j k E'; rewrite lookup_empty in E'; discriminate
      |rewrite lookup_empty; reflexivity])).
  specialize (Hd ltac:(repeat split; simpl; try lia)).
  specialize (Hd _ E). simpl in Hd. subst d'.
  rewrite E. cbn [bind fst snd]. cbn [in_window] in Hin.
  rewrite Z.sub_0_r.
  rewrite extend_left_diag by (unfold turns; lia). cbn [bind fst snd].
  rewrite extend_right_diag by (unfold turns; lia). cbn [bind fst snd].
  unfold turns. simpl. destruct (0 + n <? n) eqn:E'.
  - apply Z.ltb_lt in E'. lia.
  - reflexivity.
Qed.

End SelfMatch.

(** *** Reflexivity, and the order of the arguments *)

Lemma collapse_single (n : Z) :
  n <> 0 -> collapse [(0, 0, n)] (0, 0, 0) [] = [(0, 0, n)].
Proof.
  intros Hn. cbn [collapse]. rewrite !Z.add_0_l, Z.eqb_refl. cbn [andb].
  apply Z.eqb_neq in Hn. rewrite Hn. reflexivity.
Qed.

Lemma ratio_whole (n : Z) : 0 < n -> (_calculate_ratio n (n + n) == 1)%Q.
Proof.
  intros Hn. unfold _calculate_ratio.
  replace (n + n =? 0) with false by (symmetry; apply Z.eqb_neq; lia).
  unfold Qeq, Qdiv, Qmult, Qinv, inject_Z. simpl.
  destruct (n + n) as [|p|p] eqn:E; try lia. simpl. lia.
Qed.

Lemma ratio_self (x : text) :
  exists q, ratio (new_SequenceMatcher x x) = Returns q /\ (q == 1)%Q.
Proof.
  destruct (new_SequenceMatcher_fields x x) as (Ha & Hb & Hj & Hk).
  pose proof (find_longest_match_self x (new_SequenceMatcher x x) Ha Hb) as Hf.
  specialize (Hf ltac:(intros c; rewrite Hj; apply chain_b_lookup) Hk).
  unfold ratio, get_matching_blocks. rewrite Ha, Hb.
  set (n := Z.of_nat (length x)) in *.
  unfold queue_turns. cbn [match_queue]. rewrite Hf. cbn [bind].
  destruct (n =? 0) eqn:E.
  - apply Z.eqb_eq in E. rewrite E. eexists. split; reflexivity.
  - apply Z.eqb_neq in E. rewrite !Z.add_0_l, !Z.ltb_irrefl.
    cbn [andb app bind sort_blocks fold_right insert_block].
    rewrite collapse_single by exact E.
    eexists. split; [reflexivity|].
    unfold sum_sizes. cbn [app fold_right snd]. rewrite !Z.add_0_r.
    apply ratio_whole. lia.
Qed.

(** C4. The similarity of a text with itself is 1. *)
Theorem similarity_reflexive (x : text) :
  exists q, calculate_similarity x x = Returns q /\ (q == 1)%Q.
Proof. unfold calculate_similarity. apply ratio_self. Qed.

(** C3, as the specification states it, fails: the ratio depends on the
    order of its arguments. *)
Lemma similarity_not_symmetric :
  calculate_similarity (lit "tide") (lit "diet") = Returns (2 # 8)
  /\ calculate_similarity (lit "diet") (lit "tide") = Returns (4 # 8)
  /\ ~ (2 # 8 == 4 # 8)%Q.
Proof.
  split; [vm_compute; reflexivity|].
  split; [vm_compute; reflexivity|].
  intros H. vm_compute in H. discriminate H.
Qed.

Lemma scan_rows_no_entries (m : SequenceMatcher) (blo bhi : Z) (rows : nat) :
  b2j m = ∅ ->
  forall i0 ahi j2len best,
    0 <= i0 -> ahi <= Z.of_nat (length (seq_a m)) ->
    Z.to_nat (ahi - i0) = rows ->
    scan_rows m blo bhi (py_range i0 ahi) j2len best = Returns best.
Proof.
  intros Hm. induction rows as [|rows IH]; intros i0 ahi j2len best H0 Hhi Hrows.
  - rewrite py_range_nil by lia. reflexivity.
  - rewrite py_range_cons by lia. simpl.
    destruct (py_index_in_range (seq_a m) i0) as (c & -> & _); [lia|].
    cbn [bind]. rewrite Hm, lookup_empty. simpl. apply IH; lia.
Qed.

Lemma extend_left_at_start (fuel : nat) (m : SequenceMatcher) (alo blo : Z)
  (junk : bool) (i j k : Z) :
  i <= alo \/ j <= blo ->
  extend_left (S fuel) m alo blo junk (i, j, k) = Returns (i, j, k).
Proof.
  intros H. cbn [extend_left].
  replace ((alo <? i) && (blo <? j))%bool with false; [reflexivity|].
  symmetry. apply andb_false_iff. rewrite !Z.ltb_ge. tauto.
Qed.

Lemma extend_right_at_end (fuel : nat) (m : SequenceMatcher) (ahi bhi : Z)
  (junk : bool) (i j k : Z) :
  ahi <= i + k \/ bhi <= j + k ->
  extend_right (S fuel) m ahi bhi junk (i, j, k) = Returns (i, j, k).
Proof.
  intros H. cbn [extend_right].
  replace ((i + k <? ahi) && (j + k <? bhi))%bool with false; [reflexivity|].
  symmetry. apply andb_false_iff. rewrite !Z.ltb_ge. tauto.
Qed.

(** With nothing in [b] to match, the longest match is empty. *)
Lemma find_longest_match_nothing (m : SequenceMatcher) (la lb : Z) :
  b2j m = ∅ \/ la = 0 ->
  0 <= la <= Z.of_nat (length (seq_a m)) ->
  lb = 0 \/ la = 0 ->
  find_longest_match m 0 la 0 lb = Returns (0, 0, 0).
Proof.
  intros Hj Hla Hl. unfold find_longest_match.
  assert (Hs : scan_rows m 0 lb (py_range 0 la) ∅ (0, 0, 0) = Returns (0, 0, 0)).
  { destruct Hj as [Hj | ->].
    - apply (scan_rows_no_entries m 0 lb (Z.to_nat (la - 0)) Hj); lia.
    - reflexivity. }
  rewrite Hs. cbn [bind fst snd]. unfold turns.
  rewrite extend_left_at_start by lia. cbn [bind fst snd].
  rewrite extend_right_at_end by lia. cbn [bind fst snd].
  rewrite extend_left_at_start by lia. cbn [bind fst snd].
  rewrite extend_right_at_end by lia. reflexivity.
Qed.

Lemma ratio_nothing (m : SequenceMatcher) :
  b2j m = ∅ \/ seq_a m = [] ->
  seq_b m = [] \/ seq_a m = [] ->
  ratio m = Returns (_calculate_ratio 0
                       (Z.of_nat (length (seq_a m)) + Z.of_nat (length (seq_b m)))).
Proof.
  intros Hj Hl. unfold ratio, get_matching_blocks, queue_turns.
  cbn [match_queue]. rewrite find_longest_match_nothing.
  - reflexivity.
  - destruct Hj as [Hj | ->]; [left; exact Hj | right; reflexivity].
  - lia.
  - destruct Hl as [-> | ->]; [left | right]; reflexivity.
Qed.

Lemma ratio_empty_a (s : text) :
  ratio (new_SequenceMatcher [] s)
  = Returns (_calculate_ratio 0 (Z.of_nat (length s))).
Proof.
  destruct (new_SequenceMatcher_fields [] s) as (Ha & Hb & _).
  rewrite ratio_nothing by (right; exact Ha).
  rewrite Ha, Hb. reflexivity.
Qed.

Lemma ratio_empty_b (s : text) :
  ratio (new_SequenceMatcher s [])
  = Returns (_calculate_ratio 0 (Z.of_nat (length s))).
Proof.
  rewrite ratio_nothing by (left; reflexivity).
  cbn [seq_a seq_b new_SequenceMatcher chain_b length]. simpl.
  rewrite Z.add_0_r. reflexivity.
Qed.

(** C3, amended. The similarity does not depend on the order of the two
    texts when they are equal after trimming or when one of them is empty
    after trimming. *)
Theorem similarity_symmetric_when_equal_or_empty (a b : text) :
  strip a = strip b \/ strip a = [] \/ strip b = [] ->
  exists q1 q2,
    calculate_similarity a b = Returns q1
    /\ calculate_similarity b a = Returns q2
    /\ (q1 == q2)%Q.
Proof.
  unfold calculate_similarity. intros [H | [H | H]]; rewrite H.
  - destruct (ratio_self (strip b)) as (q & Hq & _).
    exists q, q. split; [exact Hq|]. split; [exact Hq|]. reflexivity.
  - rewrite ratio_empty_a, ratio_empty_b. eexists. eexists.
    split; [reflexivity|]. split; reflexivity.
  - rewrite ratio_empty_a, ratio_empty_b. eexists. eexists.
    split; [reflexivity|]. split; reflexivity.
Qed.

(** A text against blank text, in both orders. *)
Lemma similarity_symmetric_when_equal_or_empty_witness :
  strip (lit "  ") = []
  /\ exists q1 q2,
       calculate_similarity (lit "abc") (lit "  ") = Returns q1
       /\ calculate_similarity (lit "  ") (lit "abc") = Returns q2
       /\ (q1 == q2)%Q.
Proof.
  split; [reflexivity|].
  apply (similarity_symmetric_when_equal_or_empty (lit "abc") (lit "  ")).
  right. right. reflexivity.
Defined.

Local Close Scope Z_scope.

(** ** The structure analyzer *)

Lemma startswith_before_space (sub a b : text) :
  ~ In space sub ->
  startswith sub (a ++ space :: b) = true -> startswith sub a = true.
Proof.
  revert a. induction sub as [|x sub IH]; intros a Hsp H.
  - destruct a; reflexivity.
  - destruct a as [|y a]; simpl in H.
    + apply andb_true_iff in H. destruct H as [H _]. apply N.eqb_eq in H.
      exfalso. apply Hsp. left. exact H.
    + apply andb_true_iff in H. destruct H as [H1 H2]. simpl.
      rewrite H1. simpl. apply IH; [|exact H2].
      intros Hin. apply Hsp. right. exact Hin.
Qed.

Lemma contains_cons (sub : text) (c : N) (s : text) :
  contains sub s = true -> contains sub (c :: s) = true.
Proof. intros H. simpl. rewrite H. apply orb_true_r. Qed.

Lemma contains_unfold (sub s : text) :
  contains sub s =
  startswith sub s || match s with [] => false | _ :: tl => contains sub tl end.
Proof. destruct s; reflexivity. Qed.

(** A text without a space that occurs in [a ++ " " ++ b] occurs in [a]
    or in [b]. *)
Lemma contains_across_space (sub a b : text) :
  sub <> [] -> ~ In space sub ->
  contains sub (a ++ space :: b) = true ->
  contains sub a = true \/ contains sub b = true.
Proof.
  intros Hne Hsp. induction a as [|y a IH]; intros H.
  - right. simpl app in H. rewrite contains_unfold in H.
    apply orb_true_iff in H. destruct H as [H | H]; [|exact H].
    destruct sub as [|x sub]; [congruence|].
    simpl in H. apply andb_true_iff in H. destruct H as [H _].
    apply N.eqb_eq in H. exfalso. apply Hsp. left. exact H.
  - simpl app in H. rewrite contains_unfold in H.
    apply orb_true_iff in H. destruct H as [H | H].
    + left. rewrite contains_unfold.
      rewrite (startswith_before_space sub (y :: a) b Hsp H). reflexivity.
    + destruct (IH H) as [H' | H']; [left | right; exact H'].
      apply contains_cons. exact H'.
Qed.

Lemma contains_join_acc (sub : text) (items : list text) :
  sub <> [] -> ~ In space sub ->
  forall acc,
    contains sub (fold_left (fun acc x => acc ++ lit " " ++ x) items acc) = true ->
    contains sub acc = true \/ existsb (contains sub) items = true.
Proof.
  intros Hne Hsp. induction items as [|x items IH]; intros acc H; simpl in *.
  - left. exact H.
  - destruct (IH _ H) as [H' | H'].
    + apply (contains_across_space sub acc x Hne Hsp) in H'.
      destruct H' as [H' | H']; [left; exact H' | right].
      rewrite H'. reflexivity.
    + right. rewrite H'. apply orb_true_r.
Qed.

Lemma contains_join_tokens (sub : text) (items : list text) :
  sub <> [] -> ~ In space sub ->
  contains sub (join_tokens items) = true ->
  existsb (contains sub) items = true.
Proof.
  intros Hne Hsp H. destruct items as [|t items]; simpl in *.
  - destruct sub; [congruence | discriminate H].
  - apply contains_join_acc in H; [|exact Hne|exact Hsp].
    destruct H as [-> | ->]; [reflexivity | apply orb_true_r].
Qed.

Lemma class_has_contains (sub x : text) :
  sub <> [] -> class_has sub (Some x) = contains sub x.
Proof.
  intros Hne. destruct x as [|c x]; [|reflexivity].
  destruct sub; [congruence | reflexivity].
Qed.

(** Beautiful Soup's match of the class attribute against
    [lambda x: x and sub in x] holds exactly when some class token contains
    [sub]: matching the joined tokens adds nothing. *)
Lemma _matches_class_token (sub : text) (t : Tag) :
  sub <> [] -> ~ In space sub ->
  _matches (attrs t !! lit "class") (class_has sub) = has_class_token sub t.
Proof.
  intros Hne Hsp. unfold has_class_token, class_tokens, _matches.
  destruct (attrs t !! lit "class") as [[s | items]|].
  - rewrite class_has_contains by exact Hne. cbn [existsb].
    rewrite orb_false_r. reflexivity.
  - rewrite class_has_contains by exact Hne.
    assert (E : existsb (fun item => class_has sub (Some item)) items
                = existsb (contains sub) items).
    { induction items as [|i items IH]; cbn [existsb]; [reflexivity|].
      rewrite class_has_contains, IH by exact Hne. reflexivity. }
    rewrite E. destruct (existsb (contains sub) items) eqn:E1; [reflexivity|].
    cbn [orb]. destruct (contains sub (join_tokens items)) eqn:E2; [|reflexivity].
    apply contains_join_tokens in E2; [|exact Hne|exact Hsp]. congruence.
  - reflexivity.
Qed.

Lemma find_all_divs (sub : text) (soup : list Tag) :
  sub <> [] -> ~ In space sub ->
  find_all soup (lit "div") (class_has sub)
  = List.filter (fun t => is_div t && has_class_token sub t) soup.
Proof.
  intros Hne Hsp. unfold find_all, is_div.
  induction soup as [|t soup IH]; simpl; [reflexivity|].
  rewrite _matches_class_token, IH by assumption. reflexivity.
Qed.

Lemma found_head_filter {A} (f : A -> bool) (l : list A) :
  found (head (List.filter f l)) = existsb f l.
Proof.
  induction l as [|x l IH]; simpl; [reflexivity|].
  destruct (f x); [reflexivity | exact IH].
Qed.

(** C2, as the specification states it, fails: an element that is not a
    [div] is not counted.  The text [<span class="row">] has one element
    with a class token that contains "row", and a [row_count] of 0. *)
Lemma span_row_is_not_counted :
  ~ (exists replace_charrefs soup facts,
       let code := lit "<span class=" ++ dq ++ lit "row" ++ dq ++ lit ">" in
       BeautifulSoup replace_charrefs code = Returns soup
       /\ analyze_code_structure replace_charrefs code = Returns (Some facts)
       /\ row_count facts = spec_count_elements (lit "row") soup).
Proof.
  intros (rc & soup & facts & H1 & H2 & H3).
  vm_compute in H1. injection H1 as <-.
  vm_compute in H2. injection H2 as <-.
  vm_compute in H3. discriminate H3.
Qed.

Section Analyzer.

Variable replace_charrefs : text -> text.

(** C2, amended. For every text that parses, [has_container] tells whether
    some [div] element carries a class token that contains "container",
    and [row_count] and [col_elements] count the [div] elements that carry
    a class token containing "row" and "col-". *)
Theorem structure_counts_div_elements (code : text) (soup : list Tag) :
  BeautifulSoup replace_charrefs code = Returns soup ->
  exists facts,
    analyze_code_structure replace_charrefs code = Returns (Some facts)
    /\ has_container facts
       = existsb (fun t => is_div t && has_class_token (lit "container") t) soup
    /\ row_count facts
       = length (List.filter
                   (fun t => is_div t && has_class_token (lit "row") t) soup)
    /\ col_elements facts
       = length (List.filter
                   (fun t => is_div t && has_class_token (lit "col-") t) soup).
Proof.
  intros H. unfold analyze_code_structure. rewrite H. cbn [bind try_except].
  eexists. split; [reflexivity|].
  cbn [has_container row_count col_elements]. unfold find.
  rewrite !find_all_divs by (try discriminate; vm_compute; intuition discriminate).
  rewrite found_head_filter. repeat split; reflexivity.
Qed.

(** The analyzer returns [None] exactly when the parser raises; a text the
    lenient parser accepts, however odd, yields facts. *)
Lemma analyze_none_iff_parser_raises (code : text) :
  analyze_code_structure replace_charrefs code = Returns None
  <-> exists e, BeautifulSoup replace_charrefs code = Raises e.
Proof.
  unfold analyze_code_structure.
  destruct (BeautifulSoup replace_charrefs code) as [soup|e|];
    cbn [bind try_except]; split; try discriminate; eauto.
  - intros [e H]. discriminate H.
  - intros [e' H]. discriminate H.
Qed.

End Analyzer.

(** A [div] and a [span] of class "row": one row is counted. *)
Lemma structure_counts_div_elements_witness :
  let code := lit "<div class=" ++ dq ++ lit "row g-3" ++ dq
              ++ lit "><span class=" ++ dq ++ lit "row" ++ dq ++ lit ">" in
  exists soup facts,
    BeautifulSoup (fun s => s) code = Returns soup
    /\ analyze_code_structure (fun s => s) code = Returns (Some facts)
    /\ row_count facts = 1%nat.
Proof.
  intros code.
  assert (H : exists soup, BeautifulSoup (fun s => s) code = Returns soup)
    by (eexists; vm_compute; reflexivity).
  destruct H as [soup H].
  destruct (structure_counts_div_elements (fun s => s) code soup H)
    as (facts & Hf & _ & Hr & _).
  exists soup, facts. split; [exact H|]. split; [exact Hf|].
  rewrite Hr. vm_compute in H. injection H as <-. reflexivity.
Defined.

(** *** The reference document *)

(** C1, as the specification states it, fails: the reference document has
    neither 5 rows nor 11 columns. *)
Lemma reference_counts_are_not_5_and_11 :
  ~ (exists replace_charrefs facts,
       analyze_code_structure replace_charrefs EXPECTED_HTML
       = Returns (Some facts)
       /\ (row_count facts = 5%nat \/ col_elements facts = 11%nat)).
Proof.
  intros (rc & facts & H & H5).
  vm_compute in H. injection H as <-.
  destruct H5 as [H5 | H11]; [discriminate H5 | discriminate H11].
Qed.

(** C1, amended. Analysing the reference document itself gives similarity
    1, every boolean fact true, 4 rows and 9 columns (at least 2 and 6),
    and a structure score of 8. *)
Theorem reference_document_analysis (replace_charrefs : text -> text) :
  (exists q, calculate_similarity EXPECTED_HTML EXPECTED_HTML = Returns q
             /\ (q == 1)%Q)
  /\ exists facts,
       analyze_code_structure replace_charrefs EXPECTED_HTML
       = Returns (Some facts)
       /\ facts = {| has_doctype := true; has_bootstrap_css := true;
                     has_bootstrap_js := true; has_container := true;
                     row_count := 4; has_custom_css := true;
                     has_media_query := true; col_elements := 9 |}
       /\ (2 <= row_count facts)%nat /\ (6 <= col_elements facts)%nat
       /\ structure_score facts = 8%nat.
Proof.
  split; [unfold calculate_similarity; apply ratio_self|].
  eexists. split; [vm_compute; reflexivity|].
  split; [reflexivity|]. vm_compute. repeat split; lia.
Qed.

(** *** What a match consumes *)

(** The least number of characters a match of the pattern consumes. *)
Fixpoint min_len (r : regex) : nat :=
  match r with
  | Empty => 0
  | Class _ => 1
  | Cat r1 r2 => min_len r1 + min_len r2
  | Or r1 r2 => Nat.min (min_len r1) (min_len r2)
  | Star _ _ => 0
  | Group _ r1 => min_len r1
  | Ahead _ _ | Behind _ | Bol => 0
  end.

(** Every character class of the pattern, outside look-ahead, only accepts
    characters that satisfy [P]. *)
Fixpoint classes_all (P : N -> Prop) (r : regex) : Prop :=
  match r with
  | Class p => forall c, p c = true -> P c
  | Cat r1 r2 | Or r1 r2 => classes_all P r1 /\ classes_all P r2
  | Star _ r1 | Group _ r1 => classes_all P r1
  | Empty | Ahead _ _ | Behind _ | Bol => True
  end.

(** [st'] is [st] after consuming at least [least] characters, all of them
    satisfying [P]. *)
Definition advances (P : N -> Prop) (least : nat) (st st' : mstate) : Prop :=
  exists w, rest st = w ++ rest st' /\ pos st' = pos st + length w
            /\ least <= length w /\ Forall P w.

Ltac split4 := split; [|split; [|split]].

Lemma advances_refl (P : N -> Prop) (st : mstate) : advances P 0 st st.
Proof. exists []. split4; auto. Qed.

Lemma advances_trans (P : N -> Prop) (a b : nat) (st1 st2 st3 : mstate) :
  advances P a st1 st2 -> advances P b st2 st3 -> advances P (a + b) st1 st3.
Proof.
  intros (w1 & E1 & P1 & L1 & F1) (w2 & E2 & P2 & L2 & F2).
  exists (w1 ++ w2). rewrite E1, E2, P2, P1, <- app_assoc, length_app.
  split4; try lia; [reflexivity|]. apply Forall_app. split; assumption.
Qed.

Lemma advances_weaken (P : N -> Prop) (a b : nat) (st st' : mstate) :
  b <= a -> advances P a st st' -> advances P b st st'.
Proof.
  intros Hab (w & E & Hp & L & F). exists w. split4; auto. lia.
Qed.

Lemma star_loop_advances (P : N -> Prop)
  (body : mstate -> (mstate -> option mstate) -> option mstate) :
  (forall st k res, body st k = Some res ->
     exists st', k st' = Some res /\ advances P 0 st st') ->
  forall greedy k fuel st res,
    star_loop body greedy k fuel st = Some res ->
    exists st', k st' = Some res /\ advances P 0 st st'.
Proof.
  intros Hbody greedy k fuel.
  induction fuel as [|fuel IH]; intros st res H; simpl in H.
  - exists st. split; [exact H | apply advances_refl].
  - assert (Hagain :
      body st (fun st' => if pos st <? pos st'
                          then star_loop body greedy k fuel st' else None)
      = Some res -> exists st', k st' = Some res /\ advances P 0 st st').
    { intros Hb. apply Hbody in Hb. destruct Hb as (st1 & Hk & Ha).
      destruct (pos st <? pos st1); [|discriminate Hk].
      apply IH in Hk. destruct Hk as (st2 & Hk & Ha2).
      exists st2. split; [exact Hk|].
      apply (advances_trans P 0 0 st st1 st2); assumption. }
    destruct greedy.
    + destruct (body st _) as [r1|] eqn:E.
      * injection H as <-. apply Hagain. reflexivity.
      * exists st. split; [exact H | apply advances_refl].
    + destruct (k st) as [r1|] eqn:E.
      * injection H as <-. exists st. split; [exact E | apply advances_refl].
      * apply Hagain. exact H.
Qed.

(** A successful match hands to its continuation a state that lies at
    least [min_len r] characters further, and the characters in between
    are accepted by the classes of [r]. *)
Lemma exec_advances (P : N -> Prop) (r : regex) :
  classes_all P r ->
  forall st k res,
    exec r st k = Some res ->
    exists st', k st' = Some res /\ advances P (min_len r) st st'.
Proof.
  induction r as [|p|r1 IH1 r2 IH2|r1 IH1 r2 IH2|g r1 IH1|n r1 IH1|b r1 _|p|];
    intros Hcls st k res H; cbn [exec] in H.
  - exists st. split; [exact H | apply advances_refl].
  - destruct (rest st) as [|c tl] eqn:E; [discriminate H|].
    destruct (p c) eqn:Hp; [|discriminate H].
    eexists. split; [exact H|].
    exists [c]. simpl. rewrite E. split4; try lia; [reflexivity|].
    constructor; [apply Hcls; exact Hp | constructor].
  - destruct Hcls as [H1 H2].
    apply (IH1 H1) in H. destruct H as (st1 & H & A1).
    apply (IH2 H2) in H. destruct H as (st2 & H & A2).
    exists st2. split; [exact H|]. simpl.
    apply (advances_trans P _ _ st st1 st2); assumption.
  - destruct Hcls as [H1 H2]. simpl.
    destruct (exec r1 st k) as [res1|] eqn:E.
    + injection H as <-. apply (IH1 H1) in E. destruct E as (st1 & E & A).
      exists st1. split; [exact E|].
      apply (advances_weaken P (min_len r1)); [lia | exact A].
    + apply (IH2 H2) in H. destruct H as (st1 & E' & A).
      exists st1. split; [exact E'|].
      apply (advances_weaken P (min_len r2)); [lia | exact A].
  - simpl in Hcls. apply (star_loop_advances P (exec r1)) in H; [exact H|].
    intros st0 k0 res0 H0. apply (IH1 Hcls) in H0.
    destruct H0 as (st1 & H0 & A). exists st1. split; [exact H0|].
    apply (advances_weaken P (min_len r1)); [lia | exact A].
  - simpl in Hcls. apply (IH1 Hcls) in H. destruct H as (st1 & H & A).
    eexists. split; [exact H|]. exact A.
  - exists st. split; [|apply advances_refl].
    destruct (exec r1 st Some); destruct b; congruence.
  - exists st. split; [|apply advances_refl].
    destruct (prev st) as [c|]; [|discriminate H].
    destruct (p c); [exact H | discriminate H].
  - exists st. split; [|apply advances_refl].
    destruct (prev st) as [c|]; [|exact H].
    destruct (c =? 10)%N; [exact H | discriminate H].
Qed.

Lemma classes_all_True (r : regex) : classes_all (fun _ => True) r.
Proof. induction r; simpl; auto. Qed.

(** The end of a match lies behind its start. *)
Lemma re_match_advances (P : N -> Prop) (r : regex) (s : text) (i : nat)
  (m : mstate) :
  classes_all P r ->
  re_match r s i = Some m ->
  exists w, skipn i s = w ++ rest m /\ pos m = i + length w
            /\ min_len r <= length w /\ Forall P w.
Proof.
  intros Hcls H. unfold re_match in H.
  apply (exec_advances P r Hcls) in H. destruct H as (st' & [= ->] & A).
  exact A.
Qed.

Lemma re_match_pos (r : regex) (s : text) (i : nat) (m : mstate) :
  re_match r s i = Some m -> i + min_len r <= pos m.
Proof.
  intros H. apply (re_match_advances (fun _ => True) r s i m) in H;
    [|apply classes_all_True].
  destruct H as (w & _ & -> & L & _). lia.
Qed.

Lemma search_from_advances (P : N -> Prop) (r : regex) :
  classes_all P r ->
  forall s p pv j m,
    search_from r p pv s = Some (j, m) ->
    exists u w, s = u ++ w ++ rest m /\ j = p + length u
                /\ pos m = j + length w /\ min_len r <= length w
                /\ Forall P w.
Proof.
  intros Hcls. induction s as [|c tl IH]; intros p pv j m H; cbn -[exec] in H.
  - destruct (exec r (MState p pv [] []) Some) as [st|] eqn:E; [|discriminate H].
    injection H as <- <-.
    apply (exec_advances P r Hcls) in E. destruct E as (st' & [= ->] & A).
    destruct A as (w & E1 & E2 & L & F). simpl in E1, E2.
    exists [], w. simpl. split; [exact E1|]. split; [lia|]. split; [lia|]. split; [lia|exact F].
  - destruct (exec r (MState p pv (c :: tl) []) Some) as [st|] eqn:E.
    + injection H as <- <-.
      apply (exec_advances P r Hcls) in E. destruct E as (st' & [= ->] & A).
      destruct A as (w & E1 & E2 & L & F). simpl in E1, E2.
      exists [], w. simpl. split; [exact E1|]. split; [lia|]. split; [lia|]. split; [lia|exact F].
    + apply IH in H. destruct H as (u & w & E1 & E2 & E3 & L & F).
      exists (c :: u), w. simpl. rewrite E1.
      split; [reflexivity|]. split; [lia|]. split; [lia|]. split; [lia|exact F].
Qed.

Lemma re_search_pos (r : regex) (s : text) (i j : nat) (m : mstate) :
  i <= length s ->
  re_search r s i = Some (j, m) ->
  i <= j /\ j + min_len r <= pos m /\ j <= length s.
Proof.
  intros Hi H. unfold re_search in H.
  apply (search_from_advances (fun _ => True) r (classes_all_True r)) in H.
  destruct H as (u & w & E1 & E2 & E3 & L & _).
  simpl in E1, E2.
  assert (Hlen : length (skipn i s) = length s - i) by apply length_skipn.
  rewrite E1, !length_app in Hlen.
  repeat split; lia.
Qed.

(** *** The turns of a repetition

    A repetition is run with as many turns as the text that is left has
    characters, plus one.  That bound is never reached: more turns give
    the same result. *)

Definition reachable (st st' : mstate) : Prop :=
  advances (fun _ => True) 0 st st'.

Lemma reachable_refl (st : mstate) : reachable st st.
Proof. apply advances_refl. Qed.

Lemma reachable_trans (st1 st2 st3 : mstate) :
  reachable st1 st2 -> reachable st2 st3 -> reachable st1 st3.
Proof. apply (advances_trans _ 0 0). Qed.

(** A matcher that only calls its continuation on states reachable from
    the one it starts at. *)
Definition local (body : mstate -> (mstate -> option mstate) -> option mstate)
  : Prop :=
  forall st k1 k2,
    (forall st', reachable st st' -> k1 st' = k2 st') ->
    body st k1 = body st k2.

Lemma star_loop_local
  (body : mstate -> (mstate -> option mstate) -> option mstate)
  (greedy : bool) :
  local body ->
  forall fuel st k1 k2,
    (forall st', reachable st st' -> k1 st' = k2 st') ->
    star_loop body greedy k1 fuel st = star_loop body greedy k2 fuel st.
Proof.
  intros Hbody. induction fuel as [|fuel IH]; intros st k1 k2 Hk; simpl.
  - apply Hk, reachable_refl.
  - rewrite (Hk st (reachable_refl st)).
    rewrite (Hbody st
               (fun st' => if pos st <? pos st'
                           then star_loop body greedy k1 fuel st' else None)
               (fun st' => if pos st <? pos st'
                           then star_loop body greedy k2 fuel st' else None)).
    + reflexivity.
    + intros st' Hr. destruct (pos st <? pos st'); [|reflexivity].
      apply IH. intros st'' Hr'. apply Hk.
      apply (reachable_trans st st' st''); assumption.
Qed.

Lemma exec_local (r : regex) : local (exec r).
Proof.
  induction r as [|p|r1 IH1 r2 IH2|r1 IH1 r2 IH2|g r1 IH1|n r1 IH1|b r1 _|p|];
    intros st k1 k2 Hk; cbn [exec].
  - apply Hk, reachable_refl.
  - destruct (rest st) as [|c tl] eqn:E; [reflexivity|].
    destruct (p c); [|reflexivity]. apply Hk.
    exists [c]. rewrite E. simpl. split4; auto. lia.
  - apply IH1. intros st' Hr. apply IH2. intros st'' Hr'. apply Hk.
    apply (reachable_trans st st' st''); assumption.
  - rewrite (IH1 st k1 k2 Hk), (IH2 st k1 k2 Hk). reflexivity.
  - apply star_loop_local; assumption.
  - apply IH1. intros st' Hr. apply Hk. exact Hr.
  - rewrite (Hk st (reachable_refl st)). reflexivity.
  - rewrite (Hk st (reachable_refl st)). reflexivity.
  - rewrite (Hk st (reachable_refl st)). reflexivity.
Qed.

Lemma star_loop_more_fuel (r : regex) (greedy : bool)
  (k : mstate -> option mstate) (fuel : nat) :
  forall st,
    length (rest st) < fuel ->
    star_loop (exec r) greedy k fuel st
    = star_loop (exec r) greedy k (S fuel) st.
Proof.
  induction fuel as [|fuel IH]; intros st Hlen; [lia|].
  change (star_loop (exec r) greedy k (S (S fuel)) st)
    with (let again (_ : unit) :=
            exec r st (fun st' => if pos st <? pos st'
                                  then star_loop (exec r) greedy k (S fuel) st'
                                  else None) in
          if greedy
          then match again tt with Some res => Some res | None => k st end
          else match k st with Some res => Some res | None => again tt end).
  cbn [star_loop]. cbv zeta.
  rewrite (exec_local r st
             (fun st' => if pos st <? pos st'
                         then star_loop (exec r) greedy k fuel st' else None)
             (fun st' => if pos st <? pos st'
                         then star_loop (exec r) greedy k (S fuel) st'
                         else None)); [reflexivity|].
  intros st' (w & E & Hp & _ & _).
  destruct (pos st <? pos st') eqn:Hlt; [|reflexivity].
  apply Nat.ltb_lt in Hlt. apply IH.
  rewrite E, length_app in Hlen. lia.
Qed.

(** The result of a repetition does not depend on the number of turns it
    is allowed, once that number exceeds the length of the text left. *)
Lemma star_fuel_suffices (r : regex) (greedy : bool)
  (k : mstate -> option mstate) (st : mstate) (extra : nat) :
  exec (Star greedy r) st k
  = star_loop (exec r) greedy k (S (length (rest st)) + extra) st.
Proof.
  cbn [exec]. induction extra as [|extra IH].
  - rewrite Nat.add_0_r. reflexivity.
  - rewrite IH, Nat.add_succ_r. apply star_loop_more_fuel. lia.
Qed.

(** *** The parser moves forward *)

Lemma re_search_start (r : regex) (s : text) (i j : nat) (m : mstate) :
  re_search r s i = Some (j, m) -> i <= j /\ j + min_len r <= pos m.
Proof.
  intros H. unfold re_search in H.
  apply (search_from_advances (fun _ => True) r (classes_all_True r)) in H.
  destruct H as (u & w & E1 & E2 & E3 & L & _). simpl in E2. lia.
Qed.

Lemma find_char_In (x : N) (s : text) :
  In x s -> exists j, find_char x s 0 = Some j.
Proof.
  induction s as [|c s IH]; intros H; [destruct H|].
  simpl. destruct (c =? x)%N eqn:E; [eauto|].
  destruct H as [H | H]; [apply N.eqb_neq in E; congruence|].
  destruct (IH H) as [j ->]. simpl. eauto.
Qed.

Lemma find_at_start (c : string) (s : text) (i j : nat) :
  find_at c s i = Some j -> i <= j.
Proof.
  unfold find_at. destruct (lit c) as [|x [|]]; try discriminate.
  destruct (find_char x (skipn i s) 0); simpl; [|discriminate].
  intros [= <-]. lia.
Qed.

Lemma startswith_app (p s : text) :
  startswith p s = true -> exists r, s = p ++ r.
Proof.
  revert s. induction p as [|x p IH]; intros s H.
  - exists s. reflexivity.
  - destruct s as [|y s]; [discriminate H|]. simpl in H.
    apply andb_true_iff in H. destruct H as [H1 H2].
    apply N.eqb_eq in H1. subst y. destruct (IH s H2) as [r ->].
    exists r. reflexivity.
Qed.

(** What a [parse_*] method returns lies behind the offset [i] it was
    called with, unless the construct is incomplete. *)
Definition past (i : nat) (o : outcome (option nat)) : Prop :=
  match o with
  | Returns (Some k) => i < k
  | Returns None | Raises _ => True
  | Diverges => False
  end.

Definition past_with (i : nat) (o : outcome (HTMLParser * option nat)) : Prop :=
  match o with
  | Returns (_, Some k) => i < k
  | Returns (_, None) | Raises _ => True
  | Diverges => False
  end.

Section Progress.

Variable replace_charrefs : text -> text.
Variable rawdata : text.

Lemma check_for_whole_start_tag_past (i : nat) :
  past i (check_for_whole_start_tag rawdata i).
Proof.
  unfold check_for_whole_start_tag.
  destruct (re_match locatestarttagend_tolerant rawdata i) as [m|] eqn:E;
    [|exact I].
  apply re_match_pos in E.
  change (min_len locatestarttagend_tolerant) with 2 in E.
  repeat match goal with
         | |- past _ (if ?b then _ else _) => destruct b
         end; simpl; lia.
Qed.

Lemma parse_attrs_ends (endpos : nat) (fuel : nat) :
  forall k attrs,
    endpos - k < fuel ->
    parse_attrs replace_charrefs fuel rawdata k endpos attrs <> Diverges.
Proof.
  induction fuel as [|fuel IH]; intros k attrs Hfuel; [lia|].
  cbn [parse_attrs]. destruct (k <? endpos) eqn:Hk; [|discriminate].
  apply Nat.ltb_lt in Hk.
  destruct (re_match attrfind_tolerant rawdata k) as [m|] eqn:E;
    [|discriminate].
  apply re_match_pos in E. change (min_len attrfind_tolerant) with 1 in E.
  match goal with
  | |- (x <- ?v ;; _) <> _ => assert (Hv : v <> Diverges)
  end.
  { match goal with
    | |- match ?a with _ => _ end <> _ => destruct a as [[|c v]|]
    end; try discriminate.
    unfold unescape.
    destruct (negb _); [discriminate|].
    destruct (long_charref _); discriminate. }
  match goal with
  | |- (x <- ?v ;; _) <> _ => destruct v as [attrvalue|e|]
  end; cbn [bind]; [|discriminate|congruence].
  apply IH. lia.
Qed.

Lemma parse_starttag_past (self : HTMLParser) (i : nat) :
  past_with i (parse_starttag replace_charrefs self rawdata i).
Proof.
  unfold parse_starttag.
  pose proof (check_for_whole_start_tag_past i) as H.
  destruct (check_for_whole_start_tag rawdata i) as [[endpos|]|e|];
    cbn [bind]; try exact I; [|destruct H].
  simpl in H.
  destruct (re_match tagfind_tolerant rawdata (i + 1)) as [m|]; [|exact I].
  pose proof (parse_attrs_ends endpos (S (endpos - pos m)) (pos m) []
                ltac:(lia)) as Ha.
  destruct (parse_attrs replace_charrefs (S (endpos - pos m)) rawdata (pos m)
              endpos []) as [[k attrs]|e|]; cbn [bind];
    [|exact I|congruence].
  repeat match goal with
         | |- past_with _ (if ?b then _ else _) => destruct b
         end; exact H.
Qed.

Lemma parse_bogus_comment_past (i : nat) :
  past i (Returns (parse_bogus_comment rawdata i)).
Proof.
  unfold parse_bogus_comment.
  destruct (find_at ">" rawdata (i + 2)) as [j|] eqn:E; simpl; [|exact I].
  apply find_at_start in E. lia.
Qed.

Lemma gt_class : classes_all (fun c => c = 62%N) endendtag.
Proof.
  simpl. intros c H. apply bool_decide_eq_true in H. injection H as ->.
  reflexivity.
Qed.

Lemma tagfind_no_gt : classes_all (fun c => c <> 62%N) tagfind_tolerant.
Proof.
  simpl. repeat split; intros c H ->; vm_compute in H; discriminate H.
Qed.

(** After [</] and a tag name, a [>] that occurs behind the [</] occurs
    behind the name. *)
Lemma gt_after_name (i : nat) (m namematch : mstate) (j : nat) :
  startswith_at (lit "</") rawdata i = true ->
  re_search endendtag rawdata (i + 1) = Some (j, m) ->
  re_match tagfind_tolerant rawdata (i + 2) = Some namematch ->
  exists g, find_at ">" rawdata (pos namematch) = Some g.
Proof.
  intros Hs Hgt Hname.
  unfold startswith_at in Hs. apply startswith_app in Hs.
  destruct Hs as [r Hr].
  assert (H1 : skipn (i + 1) rawdata = 47%N :: r).
  { rewrite Nat.add_comm, <- skipn_skipn, Hr. reflexivity. }
  assert (H2 : skipn (i + 2) rawdata = r).
  { rewrite Nat.add_comm, <- skipn_skipn, Hr. reflexivity. }
  unfold re_search in Hgt. cbn [at_pos pos prev rest] in Hgt.
  apply (search_from_advances _ _ gt_class) in Hgt.
  destruct Hgt as (u & w & E1 & _ & _ & L & F).
  change (min_len endendtag) with 1 in L.
  assert (Hin : In 62%N r).
  { destruct w as [|c w]; [simpl in L; lia|].
    inversion F as [|? ? Hc _]; subst c.
    assert (Hin : In 62%N (47%N :: r)).
    { rewrite <- H1, E1. apply in_or_app. right. left. reflexivity. }
    destruct Hin as [Hin | Hin]; [discriminate Hin | exact Hin]. }
  apply (re_match_advances _ _ _ _ _ tagfind_no_gt) in Hname.
  destruct Hname as (w' & E2 & E3 & _ & F').
  rewrite H2 in E2.
  assert (Hrest : skipn (pos namematch) rawdata = rest namematch).
  { rewrite E3, Nat.add_comm, <- skipn_skipn, H2, E2.
    rewrite skipn_app, skipn_all, Nat.sub_diag. reflexivity. }
  assert (Hin' : In 62%N (rest namematch)).
  { rewrite E2 in Hin. apply in_app_or in Hin.
    destruct Hin as [Hin | Hin]; [|exact Hin].
    rewrite List.Forall_forall in F'. exfalso. exact (F' _ Hin eq_refl). }
  unfold find_at. change (lit ">") with [62%N]. cbv beta iota.
  rewrite Hrest. destruct (find_char_In _ _ Hin') as [g ->]. simpl. eauto.
Qed.

Lemma parse_endtag_past (self : HTMLParser) (i : nat) :
  startswith_at (lit "</") rawdata i = true ->
  past_with i (parse_endtag self rawdata i).
Proof.
  intros Hs. unfold parse_endtag.
  destruct (re_search endendtag rawdata (i + 1)) as [[j m]|] eqn:Hgt;
    [|exact I].
  pose proof (re_search_start _ _ _ _ _ Hgt) as [Hj Hm].
  change (min_len endendtag) with 1 in Hm.
  destruct (re_match endtagfind rawdata i) as [m'|].
  - destruct (cdata_elem self) as [cdata|];
      [destruct (negb _)|]; simpl; lia.
  - destruct (found (cdata_elem self)); [simpl; lia|].
    destruct (re_match tagfind_tolerant rawdata (i + 2)) as [namematch|] eqn:Hn.
    + destruct (gt_after_name i m namematch j Hs Hgt Hn) as [g Hg].
      rewrite Hg. apply find_at_start in Hg. apply re_match_pos in Hn.
      simpl. lia.
    + destruct (text_eqb _ _); [simpl; lia|].
      pose proof (parse_bogus_comment_past i) as H.
      destruct (parse_bogus_comment rawdata i); exact H.
Qed.

Lemma parse_comment_past (i : nat) : past i (parse_comment rawdata i).
Proof.
  unfold parse_comment. destruct (negb _); [exact I|].
  destruct (re_search _commentclose rawdata (i + 4)) as [[j m]|] eqn:E;
    [|exact I].
  apply re_search_start in E. simpl. lia.
Qed.

Lemma parse_pi_past (i : nat) : past i (Returns (parse_pi rawdata i)).
Proof.
  unfold parse_pi.
  destruct (re_search piclose rawdata (i + 2)) as [[j m]|] eqn:E; [|exact I].
  apply re_search_start in E. simpl. lia.
Qed.

Lemma parse_marked_section_past (i : nat) :
  past i (parse_marked_section rawdata i).
Proof.
  unfold parse_marked_section, _scan_name.
  destruct (i + 3 =? length rawdata); [exact I|].
  destruct (re_match _declname rawdata (i + 3)) as [m|]; [|exact I].
  destruct (_ =? length rawdata); [exact I|]. cbn [bind].
  destruct (existsb _ _).
  - destruct (re_search _markedsectionclose rawdata (i + 3)) as [[j m']|] eqn:E;
      [|exact I].
    apply re_search_start in E. simpl. lia.
  - destruct (existsb _ _); [|exact I].
    destruct (re_search _msmarkedsectionclose rawdata (i + 3)) as [[j m']|] eqn:E;
      [|exact I].
    apply re_search_start in E. simpl. lia.
Qed.

Lemma parse_html_declaration_past (i : nat) :
  past i (parse_html_declaration rawdata i).
Proof.
  unfold parse_html_declaration.
  destruct (text_eqb _ _); [apply parse_comment_past|].
  destruct (text_eqb _ _); [apply parse_marked_section_past|].
  destruct (text_eqb _ _).
  - destruct (find_at ">" rawdata (i + 9)) as [g|] eqn:E; [|exact I].
    apply find_at_start in E. simpl. lia.
  - apply parse_bogus_comment_past.
Qed.

End Progress.

(** *** The parser and the analyzer return *)

Section Termination.

Variable replace_charrefs : text -> text.

(** A turn of the loop of [goahead] neither raises nor hangs in a way that
    would keep [i] in place: when the loop goes on, [i] has grown. *)
Definition turn_ok (i : nat) (o : outcome control) : Prop :=
  match o with
  | Returns (Continue _ k) => i < k
  | Returns (Break _ _) | Raises _ => True
  | Diverges => False
  end.

Lemma goahead_turn_ok (end_ : bool) (rawdata : text) (self : HTMLParser)
  (i : nat) :
  i < length rawdata ->
  turn_ok i (goahead_turn replace_charrefs end_ rawdata self i).
Proof.
  intros Hi. unfold goahead_turn.
  set (interesting := match cdata_elem self with
                      | Some elem => interesting_cdata elem
                      | None => interesting_normal
                      end).
  assert (Hj : forall j,
             match re_search interesting rawdata i with
             | Some (j, _) => Some j
             | None => if found (cdata_elem self) then None
                       else Some (length rawdata)
             end = Some j -> i <= j <= length rawdata).
  { intros j. destruct (re_search interesting rawdata i) as [[j' m]|] eqn:E.
    - intros [= <-]. apply re_search_pos in E; lia.
    - destruct (found (cdata_elem self)); [discriminate|].
      intros [= <-]. lia. }
  destruct (match re_search interesting rawdata i with
            | Some (j, _) => Some j
            | None => if found (cdata_elem self) then None
                      else Some (length rawdata)
            end) as [j|]; [|exact I].
  specialize (Hj j eq_refl). clearbody interesting.
  destruct (j =? length rawdata) eqn:Hn; [exact I|].
  apply Nat.eqb_neq in Hn.
  destruct (startswith_at (lit "<") rawdata j).
  - (* a construct that starts with [<] *)
    assert (Hr : forall (r : outcome (option (HTMLParser * option nat))),
               match r with
               | Returns (Some (_, Some k)) => j < k
               | Diverges => False
               | _ => True
               end ->
               turn_ok i
                 (r <- r ;;
                  match r with
                  | None => Returns (Break self j)
                  | Some (self, Some k) => Returns (Continue self k)
                  | Some (self, None) =>
                      if negb end_ then Returns (Break self j)
                      else _ <- incomplete_at_end rawdata j ;;
                           Returns (Continue self (length rawdata))
                  end)).
    { intros [[[self' [k|]]|]|e|] H; cbn [bind turn_ok]; try exact I.
      - lia.
      - destruct (negb end_); [exact I|].
        destruct (incomplete_at_end rawdata j) as [[]|e|] eqn:E;
          cbn [bind turn_ok]; try exact I; [lia|].
        unfold incomplete_at_end in E.
        repeat match type of E with
               | (if ?b then _ else _) = _ => destruct b
               end; discriminate E.
      - destruct H. }
    apply Hr. clear Hr.
    destruct (found (re_match starttagopen rawdata j)).
    { pose proof (parse_starttag_past replace_charrefs rawdata self j) as H.
      destruct (parse_starttag replace_charrefs self rawdata j)
        as [[self' [k|]]|e|]; cbn [bind]; auto. }
    destruct (startswith_at (lit "</") rawdata j) eqn:Hs.
    { pose proof (parse_endtag_past rawdata self j Hs) as H.
      destruct (parse_endtag self rawdata j)
        as [[self' [k|]]|e|]; cbn [bind]; auto. }
    destruct (startswith_at (lit "<!--") rawdata j).
    { pose proof (parse_comment_past rawdata j) as H.
      destruct (parse_comment rawdata j) as [[k|]|e|]; cbn [bind]; auto. }
    destruct (startswith_at (lit "<?") rawdata j).
    { pose proof (parse_pi_past rawdata j) as H.
      destruct (parse_pi rawdata j) as [k|]; auto. }
    destruct (startswith_at (lit "<!") rawdata j).
    { pose proof (parse_html_declaration_past rawdata j) as H.
      destruct (parse_html_declaration rawdata j) as [[k|]|e|];
        cbn [bind]; auto. }
    destruct ((j + 1 <? length rawdata) || end_); [lia | exact I].
  - destruct (startswith_at (lit "&#") rawdata j).
    + destruct (re_match charref rawdata j) as [m|] eqn:E.
      * apply re_match_pos in E. change (min_len charref) with 4 in E.
        destruct (handle_charref _) as [[]|e|] eqn:Eh; cbn [bind];
          [|exact I|].
        -- destruct (negb _); simpl; lia.
        -- unfold handle_charref in Eh.
           repeat match type of Eh with
                  | (if ?b then _ else _) = _ => destruct b
                  end; discriminate Eh.
      * destruct (contains _ _); exact I.
    + destruct (startswith_at (lit "&") rawdata j); [|exact I].
      destruct (re_match entityref rawdata j) as [m|] eqn:E.
      * apply re_match_pos in E. change (min_len entityref) with 3 in E.
        destruct (negb _); simpl; lia.
      * destruct (re_match incomplete rawdata j) as [m|].
        -- destruct (end_ && _); exact I.
        -- destruct (j + 1 <? length rawdata); [simpl; lia | exact I].
Qed.

Lemma goahead_loop_returns (end_ : bool) (rawdata : text) (fuel : nat) :
  forall self i,
    length rawdata - i < fuel ->
    goahead_loop replace_charrefs fuel end_ rawdata self i <> Diverges.
Proof.
  induction fuel as [|fuel IH]; intros self i Hfuel; [lia|].
  cbn [goahead_loop]. destruct (i <? length rawdata) eqn:Hi; [|discriminate].
  apply Nat.ltb_lt in Hi.
  pose proof (goahead_turn_ok end_ rawdata self i Hi) as H.
  destruct (goahead_turn replace_charrefs end_ rawdata self i)
    as [[self' k | self' k]|e|]; cbn [bind]; try discriminate.
  - simpl in H. apply IH. lia.
  - destruct H.
Qed.

Lemma goahead_returns (end_ : bool) (rawdata : text) (self : HTMLParser) :
  goahead replace_charrefs end_ rawdata self <> Diverges.
Proof.
  unfold goahead.
  pose proof (goahead_loop_returns end_ rawdata (S (length rawdata)) self 0
                ltac:(lia)) as H.
  destruct (goahead_loop replace_charrefs (S (length rawdata)) end_ rawdata self 0)
    as [[self' i]|e|]; cbn [bind]; [discriminate | discriminate | congruence].
Qed.

(** The parser ends on every text: it returns a tree or raises. *)
Lemma BeautifulSoup_ends (markup : text) :
  BeautifulSoup replace_charrefs markup <> Diverges.
Proof.
  unfold BeautifulSoup, feed_and_close.
  pose proof (goahead_returns false markup
                {| cdata_elem := None; elements := [] |}) as H1.
  destruct (goahead replace_charrefs false markup _) as [[parser rawdata]|e|];
    cbn [bind]; [|destruct e; discriminate|congruence].
  pose proof (goahead_returns true rawdata parser) as H2.
  destruct (goahead replace_charrefs true rawdata parser) as [r|e|];
    cbn [bind]; [discriminate | destruct e; discriminate | congruence].
Qed.

(** The analyzer returns on every text: the facts, or [None]. *)
Lemma analyze_code_structure_returns (code : text) :
  exists r, analyze_code_structure replace_charrefs code = Returns r.
Proof.
  unfold analyze_code_structure.
  pose proof (BeautifulSoup_ends code) as H.
  destruct (BeautifulSoup replace_charrefs code) as [soup|e|];
    cbn [bind try_except]; [eauto | eauto | congruence].
Qed.

End Termination.

(** ** Parse failures *)

(** The first bytes of a PNG file are analysed like any text without
    markup: they give the facts of an empty document. *)
Lemma png_header_facts (replace_charrefs : text -> text) :
  analyze_code_structure replace_charrefs png_header
  = Returns (Some {| has_doctype := false; has_bootstrap_css := false;
                     has_bootstrap_js := false; has_container := false;
                     row_count := 0; has_custom_css := false;
                     has_media_query := false; col_elements := 0 |}).
Proof. vm_compute. reflexivity. Qed.

Lemma garbage_rejected (replace_charrefs : text -> text) :
  BeautifulSoup replace_charrefs garbage = Raises ParserRejectedMarkup.
Proof. vm_compute. reflexivity. Qed.

Lemma long_reference_rejected (replace_charrefs : text -> text) :
  BeautifulSoup replace_charrefs long_reference = Raises ValueError.
Proof. vm_compute. reflexivity. Qed.

(** C5, as the specification states it, fails: binary text is not a parse
    failure.  The parser is lenient, and on the first bytes of a PNG file
    the analyzer returns facts, not [None]. *)
Lemma binary_text_is_analysed :
  ~ (exists replace_charrefs,
       analyze_code_structure replace_charrefs png_header = Returns None).
Proof.
  intros [replace_charrefs H]. rewrite png_header_facts in H. discriminate H.
Qed.

(** C5, amended. No exception escapes the analyzer: it returns the facts
    or [None], and [None] exactly when the parser raises.  The parser
    raises on particular texts only, such as an ill-formed marked section
    or a decimal character reference of more than 4300 digits; other
    garbage, binary data included, yields facts. *)
Theorem parse_failure_gives_none (replace_charrefs : text -> text) :
  (forall code,
     exists r, analyze_code_structure replace_charrefs code = Returns r)
  /\ (forall code,
        analyze_code_structure replace_charrefs code = Returns None
        <-> exists e, BeautifulSoup replace_charrefs code = Raises e)
  /\ (BeautifulSoup replace_charrefs garbage = Raises ParserRejectedMarkup
      /\ analyze_code_structure replace_charrefs garbage = Returns None)
  /\ (BeautifulSoup replace_charrefs long_reference = Raises ValueError
      /\ analyze_code_structure replace_charrefs long_reference
         = Returns None)
  /\ exists facts,
       analyze_code_structure replace_charrefs png_header
       = Returns (Some facts).
Proof.
  split; [exact (analyze_code_structure_returns replace_charrefs)|].
  split; [exact (analyze_none_iff_parser_raises replace_charrefs)|].
  split; [|split].
  - split; [apply garbage_rejected|].
    apply analyze_none_iff_parser_raises. eexists. apply garbage_rejected.
  - split; [apply long_reference_rejected|].
    apply analyze_none_iff_parser_raises. eexists.
    apply long_reference_rejected.
  - eexists. apply png_header_facts.
Qed.

(** ** Totality *)

(** C8. The three core functions return a value on every text and never
    raise: the similarity is a number, the analyzer yields the facts or
    [None], the scorer a score and its labels; on the empty text they
    yield the defaults 1, the facts of an empty document, and a score of 0
    with no indicator. *)
Theorem core_functions_total (replace_charrefs : text -> text) :
  (forall text1 text2, exists q, calculate_similarity text1 text2 = Returns q)
  /\ (forall code,
        exists r, analyze_code_structure replace_charrefs code = Returns r)
  /\ (forall code,
        exists score indicators, check_ai_indicators code = (score, indicators))
  /\ calculate_similarity [] [] = Returns 1%Q
  /\ analyze_code_structure replace_charrefs []
     = Returns (Some {| has_doctype := false; has_bootstrap_css := false;
                        has_bootstrap_js := false; has_container := false;
                        row_count := 0; has_custom_css := false;
                        has_media_query := false; col_elements := 0 |})
  /\ check_ai_indicators [] = (0%Q, []).
Proof.
  split; [exact calculate_similarity_returns|].
  split; [exact (analyze_code_structure_returns replace_charrefs)|].
  split; [intros code; destruct (check_ai_indicators code); eauto|].
  split; [reflexivity|]. split; reflexivity.
Qed.

(** * Further properties *)

(** ** Matching blocks *)

Local Open Scope Z_scope.

Lemma py_index_value (s : text) (i : Z) (c : N) :
  0 <= i -> py_index s i = Returns c -> nth_error s (Z.to_nat i) = Some c.
Proof.
  intros Hi. unfold py_index.
  replace (i <? 0) with false by (symmetry; apply Z.ltb_ge; lia).
  destruct ((0 <=? i) && (i <? Z.of_nat (length s)))%bool; [|discriminate].
  destruct (nth_error s (Z.to_nat i)); [|discriminate].
  intros [= ->]. reflexivity.
Qed.

Section Blocks.

Variable m : SequenceMatcher.

(** Every offset that [b2j] lists for a character holds that character. *)
Hypothesis b2j_sound :
  forall c j, In j (default [] (b2j m !! c)) ->
              0 <= j /\ nth_error (seq_b m) (Z.to_nat j) = Some c.

(** [a[i] == b[j]], both offsets inside the sequences. *)
Definition same_at (i j : Z) : Prop :=
  0 <= i /\ 0 <= j /\
  exists c, nth_error (seq_a m) (Z.to_nat i) = Some c
            /\ nth_error (seq_b m) (Z.to_nat j) = Some c.

(** [a[i:i+k] == b[j:j+k]], element by element. *)
Definition block_matches (x : block) : Prop :=
  forall t, 0 <= t < x.2 -> same_at (x.1.1 + t) (x.1.2 + t).

(** The lengths recorded for row [i] are lengths of matches that end at
    [a[i]] and [b[j]]. *)
Definition row_matches (i : Z) (j2len : gmap Z Z) : Prop :=
  forall j k, j2len !! j = Some k ->
    forall t, 0 <= t < k -> same_at (i - t) (j - t).

Lemma scan_row_matches (i blo bhi : Z) (c : N) (j2len : gmap Z Z)
  (js : list Z) :
  0 <= i ->
  nth_error (seq_a m) (Z.to_nat i) = Some c ->
  (forall j, In j js ->
     0 <= j /\ nth_error (seq_b m) (Z.to_nat j) = Some c) ->
  row_matches (i - 1) j2len ->
  forall newj2len best,
    row_matches i newj2len ->
    block_matches best ->
    row_matches i (scan_row i blo bhi j2len js newj2len best).1
    /\ block_matches (scan_row i blo bhi j2len js newj2len best).2.
Proof.
  intros Hi Hc Hjs Hprev.
  induction js as [|j js IH]; intros newj2len best Hnew Hbest.
  - simpl. auto.
  - assert (Hjs' : forall j', In j' js ->
               0 <= j' /\ nth_error (seq_b m) (Z.to_nat j') = Some c)
      by (intros j' Hj'; apply Hjs; right; exact Hj').
    destruct (Hjs j (or_introl eq_refl)) as [Hj0 Hjc].
    simpl. destruct (j <? blo); [apply IH; assumption|].
    destruct (bhi <=? j); [simpl; auto|].
    destruct best as [[besti bestj] bestsize].
    set (k := default 0 (j2len !! (j - 1)) + 1).
    assert (Hk : forall t, 0 <= t < k -> same_at (i - t) (j - t)).
    { intros t Ht. destruct (Z.eq_dec t 0) as [-> | Hne].
      - rewrite !Z.sub_0_r. split; [exact Hi|]. split; [exact Hj0|].
        exists c. split; assumption.
      - subst k. destruct (j2len !! (j - 1)) as [k'|] eqn:E; simpl in Ht;
          [|lia].
        replace (i - t) with (i - 1 - (t - 1)) by lia.
        replace (j - t) with (j - 1 - (t - 1)) by lia.
        apply (Hprev _ _ E). lia. }
    apply IH; [exact Hjs' | |].
    + intros j' k' E. destruct (decide (j = j')) as [<- | Hne].
      * rewrite lookup_insert_eq in E. injection E as <-. exact Hk.
      * rewrite lookup_insert_ne in E by exact Hne. exact (Hnew _ _ E).
    + destruct (bestsize <? k); [|exact Hbest].
      intros t Ht. cbn [fst snd] in *.
      replace (i - k + 1 + t) with (i - (k - 1 - t)) by lia.
      replace (j - k + 1 + t) with (j - (k - 1 - t)) by lia.
      apply Hk. lia.
Qed.

Lemma scan_rows_matches (blo bhi : Z) (rows : nat) :
  forall i0 ahi j2len best best',
    0 <= i0 -> Z.to_nat (ahi - i0) = rows ->
    row_matches (i0 - 1) j2len ->
    block_matches best ->
    scan_rows m blo bhi (py_range i0 ahi) j2len best = Returns best' ->
    block_matches best'.
Proof.
  induction rows as [|rows IH]; intros i0 ahi j2len best best' Hi0 Hrows Hrow Hb.
  - rewrite py_range_nil by lia. simpl. intros [= <-]. exact Hb.
  - rewrite py_range_cons by lia. simpl.
    destruct (py_index (seq_a m) i0) as [c| |] eqn:E; cbn [bind];
      try discriminate.
    apply py_index_value in E; [|exact Hi0].
    pose proof (scan_row_matches i0 blo bhi c j2len (default [] (b2j m !! c))
                  Hi0 E (b2j_sound c)) as H.
    replace (i0 - 1) with (i0 - 1) in H by reflexivity.
    specialize (H Hrow ∅ best).
    destruct (scan_row i0 blo bhi j2len (default [] (b2j m !! c)) ∅ best)
      as [newj2len best1].
    destruct H as [H1 H2];
      [intros j k E'; rewrite lookup_empty in E'; discriminate | exact Hb |].
    apply IH; try lia; [|exact H2].
    replace (i0 + 1 - 1) with i0 by lia. exact H1.
Qed.

Lemma extend_left_matches (alo blo : Z) (junk : bool) (fuel : nat) :
  0 <= alo -> 0 <= blo ->
  forall best best',
    block_matches best ->
    extend_left fuel m alo blo junk best = Returns best' ->
    block_matches best'.
Proof.
  intros Ha Hb. induction fuel as [|fuel IH];
    intros [[besti bestj] bestsize] best' Hbest; simpl; [discriminate|].
  destruct ((alo <? besti) && (blo <? bestj))%bool eqn:E;
    [|intros [= <-]; exact Hbest].
  apply andb_true_iff in E. destruct E as [E1 E2]. apply Z.ltb_lt in E1, E2.
  destruct (py_index (seq_b m) (bestj - 1)) as [bj| |] eqn:Ebj; cbn [bind];
    try discriminate.
  destruct (eqb (isbjunk m bj) junk); [|intros [= <-]; exact Hbest].
  destruct (py_index (seq_a m) (besti - 1)) as [ai| |] eqn:Eai; cbn [bind];
    try discriminate.
  destruct (ai =? bj)%N eqn:Eq; [|intros [= <-]; exact Hbest].
  apply N.eqb_eq in Eq. subst bj.
  apply py_index_value in Ebj; [|lia]. apply py_index_value in Eai; [|lia].
  apply IH. intros t Ht. cbn [fst snd] in *.
  destruct (Z.eq_dec t 0) as [-> | Hne].
  - rewrite !Z.add_0_r. split; [lia|]. split; [lia|]. exists ai. auto.
  - replace (besti - 1 + t) with (besti + (t - 1)) by lia.
    replace (bestj - 1 + t) with (bestj + (t - 1)) by lia.
    apply (Hbest (t - 1)). cbn [fst snd]. lia.
Qed.

Lemma extend_right_matches (ahi bhi : Z) (junk : bool) (fuel : nat) :
  forall best best',
    0 <= best.1.1 -> 0 <= best.1.2 -> 0 <= best.2 ->
    block_matches best ->
    extend_right fuel m ahi bhi junk best = Returns best' ->
    block_matches best'.
Proof.
  induction fuel as [|fuel IH];
    intros [[besti bestj] bestsize] best' Hi Hj Hk Hbest; simpl;
    [discriminate|].
  cbn [fst snd] in *.
  destruct ((besti + bestsize <? ahi) && (bestj + bestsize <? bhi))%bool;
    [|intros [= <-]; exact Hbest].
  destruct (py_index (seq_b m) (bestj + bestsize)) as [bj| |] eqn:Ebj;
    cbn [bind]; try discriminate.
  destruct (eqb (isbjunk m bj) junk); [|intros [= <-]; exact Hbest].
  destruct (py_index (seq_a m) (besti + bestsize)) as [ai| |] eqn:Eai;
    cbn [bind]; try discriminate.
  destruct (ai =? bj)%N eqn:Eq; [|intros [= <-]; exact Hbest].
  apply N.eqb_eq in Eq. subst bj.
  apply py_index_value in Ebj; [|lia]. apply py_index_value in Eai; [|lia].
  apply IH; cbn [fst snd]; try lia.
  intros t Ht. cbn [fst snd] in *.
  destruct (Z.eq_dec t bestsize) as [-> | Hne].
  - split; [lia|]. split; [lia|]. exists ai. auto.
  - apply (Hbest t). cbn [fst snd]. lia.
Qed.

(** The block [find_longest_match] returns lies in the window and its two
    sides are equal. *)
Lemma find_longest_match_matches (alo ahi blo bhi : Z) (best : block) :
  window_ok m (alo, ahi, blo, bhi) ->
  find_longest_match m alo ahi blo bhi = Returns best ->
  in_window (alo, ahi, blo, bhi) best /\ block_matches best.
Proof.
  intros Hw H. pose proof Hw as (Ha & Hla & Hb & Hlb).
  destruct (find_longest_match_in_window m alo ahi blo bhi Hw)
    as (best0 & E0 & Hin). rewrite H in E0. injection E0 as <-.
  split; [exact Hin|].
  unfold find_longest_match in H.
  destruct (scan_rows_in_window m alo ahi blo bhi (Z.to_nat (ahi - alo)) alo ∅
              (alo, blo, 0)) as (b1 & E1 & H1); try lia; try reflexivity.
  { intros j k E. rewrite lookup_empty in E. discriminate. }
  { cbn [in_window]. lia. }
  assert (M1 : block_matches b1).
  { apply (scan_rows_matches blo bhi (Z.to_nat (ahi - alo)) alo ahi ∅
             (alo, blo, 0) b1);
      try lia; try reflexivity; try exact E1.
    - intros j k E. rewrite lookup_empty in E. discriminate.
    - intros t Ht. cbn [snd] in Ht. lia. }
  rewrite E1 in H. cbn [bind] in H.
  destruct (extend_left_in_window m alo ahi blo bhi false
              (turns (b1.1.1 - alo)) Hw b1 H1) as (b2 & E2 & H2);
    [unfold turns; lia|].
  pose proof (extend_left_matches alo blo false _ ltac:(lia) ltac:(lia)
                b1 b2 M1 E2) as M2.
  rewrite E2 in H. cbn [bind] in H.
  destruct (extend_right_in_window m alo ahi blo bhi false
              (turns (ahi - b2.1.1 - b2.2)) Hw b2 H2) as (b3 & E3 & H3);
    [unfold turns; lia|].
  assert (M3 : block_matches b3).
  { destruct b2 as [[i2 j2] k2]. cbn [in_window] in H2.
    refine (extend_right_matches ahi bhi false _ (i2, j2, k2) b3
              _ _ _ M2 E3); cbn [fst snd]; lia. }
  rewrite E3 in H. cbn [bind] in H.
  destruct (extend_left_in_window m alo ahi blo bhi true
              (turns (b3.1.1 - alo)) Hw b3 H3) as (b4 & E4 & H4);
    [unfold turns; lia|].
  pose proof (extend_left_matches alo blo true _ ltac:(lia) ltac:(lia)
                b3 b4 M3 E4) as M4.
  rewrite E4 in H. cbn [bind] in H.
  destruct (extend_right_in_window m alo ahi blo bhi true
              (turns (ahi - b4.1.1 - b4.2)) Hw b4 H4) as (b5 & E5 & H5);
    [unfold turns; lia|].
  rewrite E5 in H. cbn [bind] in H. injection H as <-.
  destruct b4 as [[i4 j4] k4]. cbn [in_window] in H4.
  refine (extend_right_matches ahi bhi true _ (i4, j4, k4) b5
            _ _ _ M4 E5); cbn [fst snd]; lia.
Qed.

End Blocks.

(** ** The number of matched characters *)

Lemma sum_sizes_app (l1 l2 : list block) :
  sum_sizes (l1 ++ l2) = sum_sizes l1 + sum_sizes l2.
Proof.
  unfold sum_sizes. induction l1 as [|x l1 IH]; simpl; [reflexivity|].
  rewrite IH. lia.
Qed.

Lemma sum_sizes_insert_block (x : block) (l : list block) :
  sum_sizes (insert_block x l) = x.2 + sum_sizes l.
Proof.
  induction l as [|y l IH]; simpl; [reflexivity|].
  destruct (block_leb x y); [reflexivity|].
  change (sum_sizes (y :: insert_block x l))
    with (y.2 + sum_sizes (insert_block x l)).
  rewrite IH. change (sum_sizes (y :: l)) with (y.2 + sum_sizes l). lia.
Qed.

Lemma sum_sizes_sort_blocks (l : list block) :
  sum_sizes (sort_blocks l) = sum_sizes l.
Proof.
  unfold sort_blocks. induction l as [|x l IH]; simpl; [reflexivity|].
  rewrite sum_sizes_insert_block, IH. reflexivity.
Qed.

Lemma sum_sizes_collapse (l : list block) :
  forall cur acc,
    sum_sizes (collapse l cur acc) = sum_sizes acc + cur.2 + sum_sizes l.
Proof.
  induction l as [|[[i2 j2] k2] l IH]; intros [[i1 j1] k1] acc;
    cbn [collapse snd].
  - destruct (k1 =? 0) eqn:E.
    + apply Z.eqb_eq in E. subst. simpl. lia.
    + rewrite sum_sizes_app. simpl. lia.
  - destruct ((i1 + k1 =? i2) && (j1 + k1 =? j2))%bool; rewrite IH;
      cbn [snd]; change (sum_sizes ((i2, j2, k2) :: l))
                   with (k2 + sum_sizes l); [lia|].
    destruct (k1 =? 0) eqn:E.
    + apply Z.eqb_eq in E. subst. lia.
    + rewrite sum_sizes_app. simpl. lia.
Qed.

Section Total.

Variable m : SequenceMatcher.

Hypothesis b2j_sound :
  forall c j, In j (default [] (b2j m !! c)) ->
              0 <= j /\ nth_error (seq_b m) (Z.to_nat j) = Some c.

(** What the windows of a queue span of [a], and of [b]. *)
Definition span_a (queue : list (Z * Z * Z * Z)) : Z :=
  fold_right (fun w acc => w.1.1.2 - w.1.1.1 + acc) 0 queue.

Definition span_b (queue : list (Z * Z * Z * Z)) : Z :=
  fold_right (fun w acc => w.2 - w.1.2 + acc) 0 queue.

(** The two sides of a window are the same text. *)
Definition window_agrees (w : Z * Z * Z * Z) : Prop :=
  let '(alo, ahi, blo, bhi) := w in
  ahi - alo = bhi - blo
  /\ forall t, 0 <= t < ahi - alo -> same_at m (alo + t) (blo + t).

Lemma span_nonneg (queue : list (Z * Z * Z * Z)) :
  Forall (window_ok m) queue -> 0 <= span_a queue /\ 0 <= span_b queue.
Proof.
  induction 1 as [|[[[alo ahi] blo] bhi] q Hw Hq IH]; simpl; [lia|].
  cbn [window_ok] in Hw. lia.
Qed.

(** The loop over the queue: the blocks it adds are pairs of equal
    pieces, they hold no more characters than the queued windows span on
    either side, and when they hold as many on both sides each queued
    window has equal sides. *)
Lemma match_queue_total (fuel : nat) :
  forall queue blocks result,
    Forall (window_ok m) queue ->
    match_queue fuel m queue blocks = Returns result ->
    sum_sizes blocks <= sum_sizes result
    /\ sum_sizes result <= sum_sizes blocks + span_a queue
    /\ sum_sizes result <= sum_sizes blocks + span_b queue
    /\ (Forall (block_matches m) blocks -> Forall (block_matches m) result)
    /\ (sum_sizes result = sum_sizes blocks + span_a queue ->
        sum_sizes result = sum_sizes blocks + span_b queue ->
        Forall window_agrees queue).
Proof.
  induction fuel as [|fuel IH]; intros queue blocks result Hq;
    [discriminate|].
  destruct queue as [|[[[alo ahi] blo] bhi] queue]; cbn [match_queue].
  { intros [= <-]. simpl. repeat split; try lia; auto. }
  inversion Hq as [|w q Hw Hq']; subst.
  destruct (find_longest_match m alo ahi blo bhi) as [[[i j] k]| |] eqn:E;
    cbn [bind]; try discriminate.
  destruct (find_longest_match_matches m b2j_sound alo ahi blo bhi _ Hw E)
    as [Hin Hm].
  cbn [in_window] in Hin. pose proof Hw as (Ha & Hla & Hb & Hlb).
  change (span_a ((alo, ahi, blo, bhi) :: queue))
    with (ahi - alo + span_a queue).
  change (span_b ((alo, ahi, blo, bhi) :: queue))
    with (bhi - blo + span_b queue).
  destruct (k =? 0) eqn:Hk.
  - intros H. destruct (IH _ _ _ Hq' H) as (I1 & I2 & I3 & I4 & I5).
    split; [exact I1|]. split; [lia|]. split; [lia|]. split; [exact I4|].
    intros Ea Eb. constructor; [|apply I5; lia].
    cbn [window_agrees]. split; [lia|]. intros t Ht. lia.
  - apply Z.eqb_neq in Hk.
    set (left_ := ((alo <? i) && (blo <? j))%bool).
    set (right_ := ((i + k <? ahi) && (j + k <? bhi))%bool).
    set (q1 := if left_ then (alo, i, blo, j) :: queue else queue).
    set (q2 := if right_ then (i + k, ahi, j + k, bhi) :: q1 else q1).
    assert (Hq1 : Forall (window_ok m) q1).
    { subst q1 left_.
      destruct ((alo <? i) && (blo <? j))%bool eqn:E1; [|exact Hq'].
      apply andb_true_iff in E1. destruct E1 as [E1 E1'].
      apply Z.ltb_lt in E1, E1'.
      constructor; [cbn [window_ok]; lia | exact Hq']. }
    assert (Hq2 : Forall (window_ok m) q2).
    { subst q2 right_.
      destruct ((i + k <? ahi) && (j + k <? bhi))%bool eqn:E2; [|exact Hq1].
      apply andb_true_iff in E2. destruct E2 as [E2 E2'].
      apply Z.ltb_lt in E2, E2'.
      constructor; [cbn [window_ok]; lia | exact Hq1]. }
    assert (Sa1 : span_a q1 <= i - alo + span_a queue
                  /\ span_b q1 <= j - blo + span_b queue).
    { subst q1. destruct left_; simpl; lia. }
    assert (Sa2 : span_a q2 <= ahi - (i + k) + span_a q1
                  /\ span_b q2 <= bhi - (j + k) + span_b q1).
    { subst q2. destruct right_; simpl; lia. }
    intros H. destruct (IH _ _ _ Hq2 H) as (I1 & I2 & I3 & I4 & I5).
    rewrite sum_sizes_app in I1, I2, I3, I5.
    change (sum_sizes [(i, j, k)]) with (k + 0) in I1, I2, I3, I5.
    split; [lia|]. split; [lia|]. split; [lia|]. split.
    { intros Hbl. apply I4. apply Forall_app. split; [exact Hbl|].
      constructor; [exact Hm | constructor]. }
    intros Ea Eb.
    assert (Hall : Forall window_agrees q2) by (apply I5; lia).
    assert (Hall1 : Forall window_agrees q1
                    /\ ahi - (i + k) = bhi - (j + k)
                    /\ forall t, 0 <= t < ahi - (i + k) ->
                                 same_at m (i + k + t) (j + k + t)).
    { subst q2. destruct right_ eqn:Er.
      - inversion Hall as [|w q Hw1 Hq1']; subst. split; [exact Hq1'|].
        exact Hw1.
      - split; [exact Hall|].
        assert (span_a q1 = ahi - (i + k) + span_a q1) by lia.
        assert (span_b q1 = bhi - (j + k) + span_b q1) by lia.
        split; [lia|]. intros t Ht. lia. }
    destruct Hall1 as (Hall1 & Hr1 & Hr2).
    assert (Hall0 : Forall window_agrees queue
                    /\ i - alo = j - blo
                    /\ forall t, 0 <= t < i - alo ->
                                 same_at m (alo + t) (blo + t)).
    { subst q1. destruct left_ eqn:El.
      - inversion Hall1 as [|w q Hw1 Hq1']; subst. split; [exact Hq1'|].
        exact Hw1.
      - split; [exact Hall1|].
        assert (span_a queue = i - alo + span_a queue) by lia.
        assert (span_b queue = j - blo + span_b queue) by lia.
        split; [lia|]. intros t Ht. lia. }
    destruct Hall0 as (Hall0 & Hl1 & Hl2).
    constructor; [|exact Hall0].
    cbn [window_agrees]. split; [lia|]. intros t Ht.
    destruct (Z_lt_dec t (i - alo)) as [H1|H1]; [apply Hl2; lia|].
    destruct (Z_lt_dec t (i - alo + k)) as [H2|H2].
    + replace (alo + t) with (i + (t - (i - alo))) by lia.
      replace (blo + t) with (j + (t - (i - alo))) by lia.
      apply (Hm (t - (i - alo))). cbn [snd]. lia.
    + replace (alo + t) with (i + k + (t - (i - alo + k))) by lia.
      replace (blo + t) with (j + k + (t - (i - alo + k))) by lia.
      apply Hr2. lia.
Qed.

Lemma Forall_block_matches_positive (l : list block) :
  Forall (block_matches m) l -> 0 < sum_sizes l ->
  exists i j, same_at m i j.
Proof.
  induction 1 as [|[[i j] k] l Hx Hl IH]; intros Hpos.
  - change (sum_sizes []) with 0 in Hpos. lia.
  - change (sum_sizes ((i, j, k) :: l)) with (k + sum_sizes l) in Hpos.
    destruct (Z_lt_dec 0 k) as [Hk|Hk].
    + exists (i + 0), (j + 0). apply (Hx 0). cbn [snd]. lia.
    + apply IH. lia.
Qed.

(** [ratio] is [2 * M / (len(a) + len(b))] for a number [M] of matched
    characters: no more than either sequence has, as many as both have
    only when the sequences are equal, and positive only when some
    character occurs in both. *)
Lemma ratio_total :
  exists M,
    ratio m = Returns (_calculate_ratio M
                         (Z.of_nat (length (seq_a m))
                          + Z.of_nat (length (seq_b m))))
    /\ 0 <= M
    /\ M <= Z.of_nat (length (seq_a m))
    /\ M <= Z.of_nat (length (seq_b m))
    /\ (M = Z.of_nat (length (seq_a m)) ->
        M = Z.of_nat (length (seq_b m)) -> seq_a m = seq_b m)
    /\ (0 < M -> exists c, In c (seq_a m) /\ In c (seq_b m)).
Proof.
  set (la := Z.of_nat (length (seq_a m))).
  set (lb := Z.of_nat (length (seq_b m))).
  assert (Hq : Forall (window_ok m) [(0, la, 0, lb)]).
  { constructor; [|constructor]. cbn [window_ok]. lia. }
  destruct (match_queue_returns m (queue_turns la) [(0, la, 0, lb)] [] Hq)
    as (blocks & E).
  { rewrite queue_weight_cons. unfold queue_turns, queue_weight.
    cbn [List.map]. change (list_sum []) with 0%nat. lia. }
  destruct (match_queue_total _ _ _ _ Hq E) as (I1 & I2 & I3 & I4 & I5).
  change (sum_sizes []) with 0 in *.
  change (span_a [(0, la, 0, lb)]) with (la - 0 + 0) in *.
  change (span_b [(0, la, 0, lb)]) with (lb - 0 + 0) in *.
  exists (sum_sizes blocks). split.
  { unfold ratio, get_matching_blocks. fold la lb. rewrite E. cbn [bind].
    rewrite sum_sizes_app, sum_sizes_collapse, sum_sizes_sort_blocks.
    cbn [snd]. change (sum_sizes []) with 0.
    change (sum_sizes [(la, lb, 0)]) with (0 + 0).
    replace (0 + 0 + sum_sizes blocks + (0 + 0)) with (sum_sizes blocks)
      by lia.
    reflexivity. }
  split; [lia|]. split; [lia|]. split; [lia|]. split.
  - intros Ea Eb.
    assert (Hag : Forall window_agrees [(0, la, 0, lb)]) by (apply I5; lia).
    inversion Hag as [|w q Hw _]; subst. cbn [window_agrees] in Hw.
    destruct Hw as [Hlen Hsame].
    apply nth_error_ext. intros n.
    destruct (Z_lt_dec (Z.of_nat n) la) as [Hn|Hn].
    + destruct (Hsame (Z.of_nat n) ltac:(lia)) as (_ & _ & c & Hc1 & Hc2).
      rewrite !Z.add_0_l, Nat2Z.id in Hc1, Hc2. congruence.
    + rewrite (proj2 (nth_error_None (seq_a m) n)) by (subst la; lia).
      rewrite (proj2 (nth_error_None (seq_b m) n)) by (subst la lb; lia).
      reflexivity.
  - intros Hpos.
    destruct (Forall_block_matches_positive blocks (I4 (List.Forall_nil _)) Hpos)
      as (i & j & _ & _ & c & Hc1 & Hc2).
    exists c. split; eapply nth_error_In; eassumption.
Qed.

End Total.

Lemma new_SequenceMatcher_b2j_sound (a b : text) (c : N) (j : Z) :
  In j (default [] (b2j (new_SequenceMatcher a b) !! c)) ->
  0 <= j /\ nth_error (seq_b (new_SequenceMatcher a b)) (Z.to_nat j) = Some c.
Proof.
  destruct (new_SequenceMatcher_fields a b) as (_ & -> & -> & _).
  destruct (chain_b_lookup b c) as [-> | ->]; [intros []|].
  intros H. apply positions_In in H. rewrite Z.sub_0_r in H. exact H.
Qed.

(** The number behind a similarity. *)
Lemma calculate_similarity_total (text1 text2 : text) :
  let la := Z.of_nat (length (strip text1)) in
  let lb := Z.of_nat (length (strip text2)) in
  exists M,
    calculate_similarity text1 text2
    = Returns (_calculate_ratio M (la + lb))
    /\ 0 <= M /\ M <= la /\ M <= lb
    /\ (M = la -> M = lb -> strip text1 = strip text2)
    /\ (0 < M -> exists c, In c (strip text1) /\ In c (strip text2)).
Proof.
  intros la lb. unfold calculate_similarity.
  pose proof (ratio_total (new_SequenceMatcher (strip text1) (strip text2))
                (new_SequenceMatcher_b2j_sound _ _)) as H.
  destruct (new_SequenceMatcher_fields (strip text1) (strip text2))
    as (Ha & Hb & _).
  rewrite Ha, Hb in H. exact H.
Qed.

Lemma _calculate_ratio_bounds (M la lb : Z) :
  0 <= M -> M <= la -> M <= lb ->
  (0 <= _calculate_ratio M (la + lb) <= 1)%Q.
Proof.
  intros H0 Ha Hb. unfold _calculate_ratio.
  destruct (la + lb =? 0) eqn:E; [split; discriminate|].
  apply Z.eqb_neq in E.
  unfold Qle, Qdiv, Qmult, Qinv, inject_Z. simpl.
  destruct (la + lb) as [|p|p] eqn:El; try lia. simpl. lia.
Qed.

Lemma _calculate_ratio_one (M len : Z) :
  0 < len -> (_calculate_ratio M len == 1)%Q <-> 2 * M = len.
Proof.
  intros Hlen. unfold _calculate_ratio.
  replace (len =? 0) with false by (symmetry; apply Z.eqb_neq; lia).
  unfold Qeq, Qdiv, Qmult, Qinv, inject_Z. simpl.
  destruct len as [|p|p]; try lia. simpl. lia.
Qed.

Lemma _calculate_ratio_zero (M len : Z) :
  0 < len -> (_calculate_ratio M len == 0)%Q <-> M = 0.
Proof.
  intros Hlen. unfold _calculate_ratio.
  replace (len =? 0) with false by (symmetry; apply Z.eqb_neq; lia).
  unfold Qeq, Qdiv, Qmult, Qinv, inject_Z. simpl.
  destruct len as [|p|p]; try lia. simpl. lia.
Qed.

(** *** [strip] *)

Lemma lstrip_app (s t : text) :
  lstrip (s ++ t)
  = match lstrip s with [] => lstrip t | _ => lstrip s ++ t end.
Proof.
  induction s as [|c s IH]; simpl.
  - destruct (lstrip t); reflexivity.
  - destruct (isspace c); [exact IH | reflexivity].
Qed.

Lemma lstrip_spaces (s : text) : forallb isspace s = true -> lstrip s = [].
Proof.
  induction s as [|c s IH]; simpl; [reflexivity|].
  destruct (isspace c); [exact IH | discriminate].
Qed.

Lemma lstrip_head (s : text) :
  match lstrip s with [] => True | c :: _ => isspace c = false end.
Proof.
  induction s as [|c s IH]; simpl; [exact I|].
  destruct (isspace c) eqn:E; [exact IH | exact E].
Qed.

Lemma lstrip_fixed (s : text) :
  match s with [] => True | c :: _ => isspace c = false end -> lstrip s = s.
Proof. destruct s as [|c s]; simpl; [reflexivity|]. intros ->. reflexivity. Qed.

Lemma lstrip_lstrip (s : text) : lstrip (lstrip s) = lstrip s.
Proof. apply lstrip_fixed, lstrip_head. Qed.

Lemma rstrip_rstrip (s : text) : rstrip (rstrip s) = rstrip s.
Proof. unfold rstrip. rewrite rev_involutive, lstrip_lstrip. reflexivity. Qed.

Lemma rstrip_app_spaces (s t : text) :
  forallb isspace t = true -> rstrip (s ++ t) = rstrip s.
Proof.
  intros Ht. unfold rstrip. rewrite rev_app_distr, lstrip_app.
  rewrite lstrip_spaces; [reflexivity|].
  rewrite forallb_forall in *. intros x Hx. apply Ht. apply in_rev. exact Hx.
Qed.

Lemma lstrip_nonempty_head (s : text) :
  lstrip s <> [] -> forall t, lstrip (s ++ t) = lstrip s ++ t.
Proof.
  intros H t. rewrite lstrip_app. destruct (lstrip s); [congruence|reflexivity].
Qed.

(** The first character of [rstrip s] is the first character of [s], if
    [rstrip s] has one. *)
Lemma rstrip_prefix (s : text) : exists t, s = rstrip s ++ t.
Proof.
  unfold rstrip. induction s as [|c s IH] using rev_ind.
  - exists []. reflexivity.
  - rewrite rev_app_distr. simpl. destruct (isspace c).
    + destruct IH as [t Ht]. exists (t ++ [c]). rewrite app_assoc, <- Ht.
      reflexivity.
    + exists []. simpl. rewrite rev_involutive, app_nil_r. reflexivity.
Qed.

Lemma lstrip_rstrip (s : text) :
  lstrip (rstrip (lstrip s)) = rstrip (lstrip s).
Proof.
  apply lstrip_fixed. pose proof (lstrip_head s) as H.
  destruct (rstrip_prefix (lstrip s)) as [t Ht].
  destruct (rstrip (lstrip s)) as [|c r]; [exact I|].
  rewrite Ht in H. exact H.
Qed.

(** Stripping a stripped text changes nothing. *)
Lemma strip_strip (s : text) : strip (strip s) = strip s.
Proof.
  unfold strip. rewrite lstrip_rstrip. apply rstrip_rstrip.
Qed.

(** White space around a text is stripped with the text's own. *)
Lemma strip_padded (l s r : text) :
  forallb isspace l = true -> forallb isspace r = true ->
  strip (l ++ s ++ r) = strip s.
Proof.
  intros Hl Hr. unfold strip. rewrite lstrip_app, (lstrip_spaces l Hl).
  rewrite lstrip_app. destruct (lstrip s) as [|c t] eqn:E.
  - rewrite (lstrip_spaces r Hr). reflexivity.
  - apply rstrip_app_spaces. exact Hr.
Qed.

Local Close Scope Z_scope.

(** ** The similarity *)

Local Open Scope Z_scope.

(** The similarity is a number from 0 to 1, and is 1 for equal texts
    only. *)
Lemma similarity_facts (text1 text2 : text) :
  exists q, calculate_similarity text1 text2 = Returns q
            /\ (0 <= q <= 1)%Q
            /\ ((q == 1)%Q <-> strip text1 = strip text2).
Proof.
  destruct (calculate_similarity_total text1 text2)
    as (M & E & H0 & Ha & Hb & Heq & _).
  eexists. split; [exact E|].
  split; [apply _calculate_ratio_bounds; assumption|].
  set (la := Z.of_nat (length (strip text1))) in *.
  set (lb := Z.of_nat (length (strip text2))) in *.
  destruct (Z.eq_dec (la + lb) 0) as [Hz|Hz].
  - assert (H1 : strip text1 = []) by (apply length_zero_iff_nil; lia).
    assert (H2 : strip text2 = []) by (apply length_zero_iff_nil; lia).
    rewrite Hz, H1, H2. split; reflexivity.
  - rewrite _calculate_ratio_one by lia. split.
    + intros H. apply Heq; lia.
    + intros H. unfold calculate_similarity in E. rewrite H in E.
      destruct (ratio_self (strip text2)) as (q & Hq & Hq1).
      rewrite Hq in E. injection E as ->.
      assert (Hl : la = lb) by (subst la lb; rewrite H; reflexivity).
      apply _calculate_ratio_one in Hq1; lia.
Qed.

(** X1. The similarity of two texts is a number from 0 to 1. *)
Theorem similarity_between_0_and_1 (text1 text2 : text) :
  exists q, calculate_similarity text1 text2 = Returns q
            /\ (0 <= q <= 1)%Q.
Proof.
  destruct (similarity_facts text1 text2) as (q & E & H & _). eauto.
Qed.

(** X2. The similarity is 1 exactly when the two texts are equal once the
    white space around each is stripped. *)
Theorem similarity_1_iff_same_text (text1 text2 : text) :
  exists q, calculate_similarity text1 text2 = Returns q
            /\ ((q == 1)%Q <-> strip text1 = strip text2).
Proof.
  destruct (similarity_facts text1 text2) as (q & E & _ & H). eauto.
Qed.

(** X3. White space before and after either text does not change the
    similarity. *)
Theorem similarity_ignores_surrounding_space (before after text1 text2 : text) :
  forallb isspace before = true ->
  forallb isspace after = true ->
  calculate_similarity (before ++ text1 ++ after) text2
  = calculate_similarity text1 text2
  /\ calculate_similarity text2 (before ++ text1 ++ after)
     = calculate_similarity text2 text1.
Proof.
  intros Hb Ha. unfold calculate_similarity.
  rewrite (strip_padded before text1 after Hb Ha). split; reflexivity.
Qed.

Lemma similarity_ignores_surrounding_space_witness :
  calculate_similarity (lit " " ++ lit "<p>a b</p>" ++ [10%N; 9%N])
    (lit "<p>ab</p>")
  = calculate_similarity (lit "<p>a b</p>") (lit "<p>ab</p>")
  /\ calculate_similarity (lit "<p>ab</p>")
       (lit " " ++ lit "<p>a b</p>" ++ [10%N; 9%N])
     = calculate_similarity (lit "<p>ab</p>") (lit "<p>a b</p>").
Proof.
  apply (similarity_ignores_surrounding_space (lit " ") [10%N; 9%N]);
    reflexivity.
Defined.

(** X4. Two texts that have no character in common, not both blank, have
    similarity 0. *)
Theorem similarity_0_without_common_character (text1 text2 : text) :
  (forall c, In c (strip text1) -> ~ In c (strip text2)) ->
  strip text1 <> [] \/ strip text2 <> [] ->
  exists q, calculate_similarity text1 text2 = Returns q /\ (q == 0)%Q.
Proof.
  intros Hno Hne.
  destruct (calculate_similarity_total text1 text2)
    as (M & E & H0 & Ha & Hb & _ & Hc).
  eexists. split; [exact E|].
  apply _calculate_ratio_zero.
  - destruct Hne as [Hne|Hne];
      [destruct (strip text1) | destruct (strip text2)];
      try congruence; rewrite length_cons; lia.
  - destruct (Z.eq_dec M 0) as [->|Hm]; [reflexivity|].
    destruct Hc as (c & H1 & H2); [lia|]. destruct (Hno c H1 H2).
Qed.

Lemma similarity_0_without_common_character_witness :
  exists q, calculate_similarity (lit " abc") (lit "xyz ") = Returns q
            /\ (q == 0)%Q.
Proof.
  apply similarity_0_without_common_character.
  - intros c. vm_compute. intuition congruence.
  - left. vm_compute. discriminate.
Defined.

Lemma similarity_length_bound (text1 text2 : text) :
  let la := Z.of_nat (length (strip text1)) in
  let lb := Z.of_nat (length (strip text2)) in
  exists q, calculate_similarity text1 text2 = Returns q
            /\ (q * inject_Z (la + lb) <= inject_Z (2 * Z.min la lb))%Q.
Proof.
  intros la lb.
  destruct (calculate_similarity_total text1 text2)
    as (M & E & H0 & Ha & Hb & _).
  fold la lb in E, Ha, Hb.
  eexists. split; [exact E|]. unfold _calculate_ratio.
  destruct (la + lb =? 0) eqn:Ez.
  - apply Z.eqb_eq in Ez. rewrite Ez.
    unfold Qle, Qmult, inject_Z. simpl. lia.
  - apply Z.eqb_neq in Ez.
    unfold Qle, Qdiv, Qmult, Qinv, inject_Z. simpl.
    destruct (la + lb) as [|p|p] eqn:El; try lia. simpl.
    rewrite !Z.mul_1_r. rewrite Pos2Z.inj_mul.
    assert (M <= Z.min la lb) by lia.
    destruct M as [|m|m]; try lia; nia.
Qed.

Lemma _calculate_ratio_mono (M M' len : Z) :
  M <= M' -> 0 <= len ->
  (_calculate_ratio M len <= _calculate_ratio M' len)%Q.
Proof.
  intros HM Hlen. unfold _calculate_ratio.
  destruct (len =? 0) eqn:E; [apply Qle_refl|].
  apply Z.eqb_neq in E.
  unfold Qle, Qdiv, Qmult, Qinv, inject_Z. simpl.
  destruct len as [|p|p]; try lia. simpl. nia.
Qed.

(** X5. The similarity is at most the ratio that the shorter text matched
    in full would give, [2.0 * min(la, lb) / (la + lb)] for the lengths
    [la] and [lb] of the two texts stripped of the white space around
    them. *)
Theorem similarity_at_most_length_ratio (text1 text2 : text) :
  let la := Z.of_nat (length (strip text1)) in
  let lb := Z.of_nat (length (strip text2)) in
  exists q, calculate_similarity text1 text2 = Returns q
            /\ (q <= _calculate_ratio (Z.min la lb) (la + lb))%Q.
Proof.
  intros la lb.
  destruct (calculate_similarity_total text1 text2)
    as (M & E & H0 & Ha & Hb & _).
  fold la lb in E, Ha, Hb.
  eexists. split; [exact E|]. apply _calculate_ratio_mono; lia.
Qed.

Local Close Scope Z_scope.

(** ** The score and the indicators *)

(** The score and the number of indicators as functions of the ten
    conditions. *)
Definition score_of (conditions : list bool) : Q :=
  sum_weights
    (List.map snd
       (List.filter fst (combine conditions (List.map weight battery)))).

Definition count_of (conditions : list bool) : nat :=
  length (List.filter id conditions).

Definition conditions (code : text) : list bool :=
  List.map (fun c => triggers c code) battery.

Lemma ai_checks_conditions (code : text) :
  fst (ai_checks code) = score_of (conditions code)
  /\ length (snd (ai_checks code)) = count_of (conditions code).
Proof.
  unfold ai_checks, conditions, battery, score_of, count_of, sum_weights;
    cbn [List.map triggers weight combine].
  ten_cases code; split; reflexivity.
Qed.

Fixpoint all_conditions (n : nat) : list (list bool) :=
  match n with
  | O => [[]]
  | S n => List.map (cons true) (all_conditions n)
           ++ List.map (cons false) (all_conditions n)
  end.

Lemma all_conditions_complete (l : list bool) :
  In l (all_conditions (length l)).
Proof.
  induction l as [|b l IH]; simpl; [left; reflexivity|].
  apply in_or_app. destruct b; [left | right]; apply in_map; exact IH.
Qed.

(** What holds of every combination of the ten conditions. *)
Definition tiers_ok (l : list bool) : bool :=
  let s := score_of l in
  let n := count_of l in
  Qle_bool 0 s && Qle_bool s 9
  && Qeq_bool s (inject_Z (Z.of_nat (Z.to_nat (Qnum (Qred (s * 2))))) / 2)
  && Qeq_bool (py_min s 10) s
  && (n <=? 10)
  && implb (Qle_bool 7 s) (7 <=? n)
  && implb (Qle_bool 4 s) (4 <=? n)
  && implb (9 <=? n) (Qle_bool 7 s)
  && implb (6 <=? n) (Qle_bool 4 s)
  && Bool.eqb (Qeq_bool s 0) (n =? 0)
  && (Z.to_nat (Qnum (Qred (s * 2))) <=? 18).

Lemma tiers_ok_all : forallb tiers_ok (all_conditions 10) = true.
Proof. vm_compute. reflexivity. Qed.

Lemma tiers_ok_code (code : text) : tiers_ok (conditions code) = true.
Proof.
  pose proof tiers_ok_all as H. rewrite forallb_forall in H. apply H.
  apply (all_conditions_complete (conditions code)).
Qed.

Lemma implb_impl (a b : bool) : implb a b = true -> a = true -> b = true.
Proof. destruct a, b; simpl; congruence. Qed.

Lemma implb_contra (a b : bool) : implb a b = true -> b = false -> a = false.
Proof. destruct a, b; simpl; congruence. Qed.

(** The score is the sum before [min], a multiple of one half from 0 to 9,
    and is tied to the number of indicators. *)
Lemma scorer_tiers (code : text) :
  let s := fst (check_ai_indicators code) in
  let n := length (snd (check_ai_indicators code)) in
  s = fst (ai_checks code)
  /\ (exists k : nat, k <= 18 /\ (s == inject_Z (Z.of_nat k) / 2)%Q)
  /\ n <= 10
  /\ ((7 <= s)%Q -> 7 <= n)
  /\ ((4 <= s)%Q -> 4 <= n)
  /\ (9 <= n -> (7 <= s)%Q)
  /\ (6 <= n -> (4 <= s)%Q)
  /\ ((s == 0)%Q <-> n = 0).
Proof.
  intros s n. subst s n. rewrite check_ai_indicators_unfold. cbn [fst snd].
  destruct (ai_checks_conditions code) as [Hs Hn]. rewrite Hs, Hn.
  pose proof (tiers_ok_code code) as H. unfold tiers_ok in H.
  set (s := score_of (conditions code)) in *.
  set (n := count_of (conditions code)) in *.
  repeat (apply andb_true_iff in H; destruct H as [H ?]).
  assert (Hmin : py_min s 10 = s).
  { unfold py_min. replace (Qle_bool s 10) with true; [reflexivity|].
    symmetry. apply Qle_bool_iff. apply Qle_trans with 9%Q;
      [apply Qle_bool_iff; assumption | discriminate]. }
  rewrite Hmin. split; [reflexivity|]. split.
  { eexists. split; [apply Nat.leb_le; eassumption|].
    apply Qeq_bool_iff. assumption. }
  split; [apply Nat.leb_le; assumption|].
  split; [intros Hq; apply Nat.leb_le; eapply implb_impl;
          [eassumption | apply Qle_bool_iff; exact Hq]|].
  split; [intros Hq; apply Nat.leb_le; eapply implb_impl;
          [eassumption | apply Qle_bool_iff; exact Hq]|].
  split; [intros Hq; apply Qle_bool_iff; eapply implb_impl;
          [eassumption | apply Nat.leb_le; exact Hq]|].
  split; [intros Hq; apply Qle_bool_iff; eapply implb_impl;
          [eassumption | apply Nat.leb_le; exact Hq]|].
  match goal with E : Bool.eqb _ _ = true |- _ => apply eqb_prop in E;
    rename E into Hz end.
  rewrite <- Qeq_bool_iff, Hz. apply Nat.eqb_eq.
Qed.

(** X6. The cap of 10 never changes the score: it is the sum of the
    weights added, a multiple of one half between 0 and 9. *)
Theorem ai_score_is_uncapped (code : text) :
  fst (check_ai_indicators code) = fst (ai_checks code)
  /\ exists k : nat,
       k <= 18
       /\ (fst (check_ai_indicators code) == inject_Z (Z.of_nat k) / 2)%Q.
Proof.
  destruct (scorer_tiers code) as (H1 & H2 & _). split; assumption.
Qed.

(** X7. At most ten indicators are returned.  A score of 7 or more takes
    at least seven indicators and a score of 4 or more at least four;
    nine indicators give a score of at least 7 and six a score of at
    least 4. *)
Theorem ai_score_and_indicator_count (code : text) :
  let score := fst (check_ai_indicators code) in
  let indicators := snd (check_ai_indicators code) in
  length indicators <= 10
  /\ ((7 <= score)%Q -> 7 <= length indicators)
  /\ ((4 <= score)%Q -> 4 <= length indicators)
  /\ (9 <= length indicators -> (7 <= score)%Q)
  /\ (6 <= length indicators -> (4 <= score)%Q).
Proof.
  destruct (scorer_tiers code) as (_ & _ & H). cbv zeta.
  tauto.
Qed.

(** X8. The score is 0 exactly when no indicator is returned. *)
Theorem ai_score_0_iff_no_indicators (code : text) :
  (fst (check_ai_indicators code) == 0)%Q
  <-> snd (check_ai_indicators code) = [].
Proof.
  destruct (scorer_tiers code) as (_ & _ & _ & _ & _ & _ & _ & H).
  cbv zeta in H. rewrite H. apply length_zero_iff_nil.
Qed.

(** ** The naming check *)

Lemma exec_str_re_inv (l : text) :
  forall p pv s cs k res,
    exec (str_re l) (MState p pv s cs) k = Some res ->
    exists tl pv', s = l ++ tl
                   /\ k (MState (p + length l) pv' tl cs) = Some res.
Proof.
  induction l as [|c l IH]; intros p pv s cs k res H.
  - exists s, pv. rewrite Nat.add_0_r. split; [reflexivity | exact H].
  - cbn [str_re exec rest pos caps] in H. destruct s as [|x s]; [discriminate|].
    destruct (N.eqb_spec c x) as [<- | _]; [|discriminate].
    apply IH in H. destruct H as (tl & pv' & -> & H).
    exists tl, pv'. split; [reflexivity|].
    rewrite length_cons, Nat.add_succ_r. exact H.
Qed.

Lemma exec_str_re_app (l : text) :
  forall p pv tl cs,
    exists pv', forall k,
      exec (str_re l) (MState p pv (l ++ tl) cs) k
      = k (MState (p + length l) pv' tl cs).
Proof.
  induction l as [|c l IH]; intros p pv tl cs.
  - exists pv. intros k. rewrite Nat.add_0_r. reflexivity.
  - destruct (IH (S p) (Some c) tl cs) as [pv' E]. exists pv'. intros k.
    cbn [str_re exec rest pos caps app]. rewrite N.eqb_refl, E.
    rewrite length_cons, Nat.add_succ_r. reflexivity.
Qed.

Lemma star_loop_greedy_S
  (body : mstate -> (mstate -> option mstate) -> option mstate)
  (k : mstate -> option mstate) (fuel : nat) (st : mstate) :
  star_loop body true k (S fuel) st
  = match body st (fun st' => if pos st <? pos st'
                              then star_loop body true k fuel st'
                              else None) with
    | Some res => Some res
    | None => k st
    end.
Proof. reflexivity. Qed.

Lemma exec_Class (f : N -> bool) (p : nat) (pv : option N) (s : text)
  (cs : list (nat * (nat * nat))) (k : mstate -> option mstate) :
  exec (Class f) (MState p pv s cs) k
  = match s with
    | c :: tl => if f c then k (MState (S p) (Some c) tl cs) else None
    | [] => None
    end.
Proof. reflexivity. Qed.

Lemma exec_Cat (r1 r2 : regex) (st : mstate) (k : mstate -> option mstate) :
  exec (Cat r1 r2) st k = exec r1 st (fun st' => exec r2 st' k).
Proof. reflexivity. Qed.

Lemma exec_Star (greedy : bool) (r : regex) (st : mstate)
  (k : mstate -> option mstate) :
  exec (Star greedy r) st k
  = star_loop (exec r) greedy k (S (length (rest st))) st.
Proof. reflexivity. Qed.

Lemma star_class_inv (f : N -> bool) (k : mstate -> option mstate)
  (fuel : nat) :
  forall p pv s cs res,
    star_loop (exec (Class f)) true k fuel (MState p pv s cs) = Some res ->
    exists w tl pv', s = w ++ tl /\ forallb f w = true
                     /\ k (MState (p + length w) pv' tl cs) = Some res.
Proof.
  induction fuel as [|fuel IH]; intros p pv s cs res H.
  - exists [], s, pv. rewrite Nat.add_0_r. auto.
  - rewrite star_loop_greedy_S, exec_Class in H. cbn [pos] in H.
    assert (Hk : k (MState p pv s cs) = Some res ->
                 exists w tl pv', s = w ++ tl /\ forallb f w = true
                   /\ k (MState (p + length w) pv' tl cs) = Some res).
    { intros Hk. exists [], s, pv. rewrite Nat.add_0_r. auto. }
    destruct s as [|c s]; [exact (Hk H)|].
    destruct (f c) eqn:Ec; [|exact (Hk H)].
    replace (p <? S p) with true in H by (symmetry; apply Nat.ltb_lt; lia).
    destruct (star_loop (exec (Class f)) true k fuel
                (MState (S p) (Some c) s cs)) as [r|] eqn:E;
      [|exact (Hk H)].
    injection H as ->. apply IH in E.
    destruct E as (w & tl & pv' & -> & Hw & E).
    exists (c :: w), tl, pv'. split; [reflexivity|]. split.
    + simpl. rewrite Ec. exact Hw.
    + rewrite length_cons, Nat.add_succ_r. exact E.
Qed.

Lemma star_class_run (f : N -> bool) (k : mstate -> option mstate) (w : text) :
  forall fuel p pv tl cs,
    forallb f w = true -> length w <= fuel ->
    (forall pv', found (k (MState (p + length w) pv' tl cs)) = true) ->
    found (star_loop (exec (Class f)) true k fuel (MState p pv (w ++ tl) cs))
    = true.
Proof.
  induction w as [|c w IH]; intros fuel p pv tl cs Hw Hf Hk.
  - rewrite Nat.add_0_r in Hk. cbn [app]. destruct fuel as [|fuel];
      [apply Hk|].
    rewrite star_loop_greedy_S.
    destruct (exec (Class f) (MState p pv tl cs) _); [reflexivity | apply Hk].
  - destruct fuel as [|fuel]; [simpl in Hf; lia|].
    simpl in Hw. apply andb_true_iff in Hw. destruct Hw as [Hc Hw].
    rewrite star_loop_greedy_S. cbn [app]. rewrite exec_Class, Hc. cbn [pos].
    replace (p <? S p) with true by (symmetry; apply Nat.ltb_lt; lia).
    specialize (IH fuel (S p) (Some c) tl cs Hw ltac:(simpl in Hf; lia)).
    rewrite length_cons, Nat.add_succ_r in Hk. specialize (IH Hk).
    destruct (star_loop _ _ _ _ _); [reflexivity | discriminate IH].
Qed.

(** A lower-case letter or a hyphen. *)
Definition kebab_char (c : N) : bool := in_range "a" "z" c || one_of "-" c.

(** The text starts with [class=], a double quote, one or more letters
    and hyphens, and a double quote. *)
Definition kebab_here (s : text) : Prop :=
  exists w after,
    s = lit "class=" ++ dq ++ w ++ dq ++ after
    /\ w <> [] /\ forallb kebab_char w = true.

Lemma found_exec_kebab (p : nat) (pv : option N) (s : text) :
  found (exec kebab_re (MState p pv s []) Some) = true <-> kebab_here s.
Proof.
  unfold kebab_re, str, plus. fold kebab_char. split.
  - destruct (exec _ _ Some) as [res|] eqn:E; [intros _ | discriminate].
    cbn [exec] in E.
    apply exec_str_re_inv in E. destruct E as (s1 & pv1 & -> & E).
    apply exec_str_re_inv in E. destruct E as (s2 & pv2 & -> & E).
    cbn [exec rest pos caps] in E. destruct s2 as [|c s2]; [discriminate|].
    destruct (kebab_char c) eqn:Ec; [|discriminate].
    apply star_class_inv in E. destruct E as (w & tl & pv3 & -> & Hw & E).
    apply exec_str_re_inv in E. destruct E as (s3 & pv4 & -> & _).
    exists (c :: w), s3. split; [reflexivity|]. split; [discriminate|].
    simpl. rewrite Ec. exact Hw.
  - intros (w & after & -> & Hne & Hw).
    destruct w as [|c w]; [congruence|].
    simpl in Hw. apply andb_true_iff in Hw. destruct Hw as [Hc Hw].
    rewrite exec_Cat.
    destruct (exec_str_re_app (lit "class=") p pv
                (dq ++ (c :: w) ++ dq ++ after) []) as [pv1 E1].
    rewrite E1, exec_Cat.
    destruct (exec_str_re_app dq (p + length (lit "class=")) pv1
                ((c :: w) ++ dq ++ after) []) as [pv2 E2].
    rewrite E2, !exec_Cat. cbn [app]. rewrite exec_Class, Hc, exec_Star.
    cbn [rest].
    apply star_class_run; [exact Hw | rewrite length_app; lia |].
    intros pv'.
    destruct (exec_str_re_app dq
                (S (p + length (lit "class=") + length dq) + length w)
                pv' after []) as [pv3 E3].
    rewrite E3. reflexivity.
Qed.

Lemma found_search_here (r : regex) (here : text -> Prop) :
  (forall p pv s, found (exec r (MState p pv s []) Some) = true <-> here s) ->
  forall s p pv,
    found (search_from r p pv s) = true
    <-> exists before after, s = before ++ after /\ here after.
Proof.
  intros Hr. induction s as [|c tl IH]; intros p pv;
    rewrite found_search_from, orb_true_iff, Hr.
  - split.
    + intros [H | H]; [|discriminate]. exists [], []. auto.
    + intros (before & after & E & H). left.
      symmetry in E. apply app_eq_nil in E. destruct E as [_ ->]. exact H.
  - rewrite IH. split.
    + intros [H | (before & after & -> & H)].
      * exists [], (c :: tl). auto.
      * exists (c :: before), after. auto.
    + intros (before & after & E & H). destruct before as [|x before].
      * left. simpl in E. rewrite E. exact H.
      * right. simpl in E. injection E as -> ->. eauto.
Qed.

Lemma has_kebab_class_spec (code : text) :
  has_kebab_class code = true
  <-> exists before after, code = before ++ after /\ kebab_here after.
Proof.
  unfold has_kebab_class, re_search, at_pos. simpl.
  apply (found_search_here kebab_re kebab_here found_exec_kebab).
Qed.

Lemma label_in_indicators (code : text) (l : string) :
  In l (snd (check_ai_indicators code))
  <-> exists c, In c battery /\ triggers c code = true /\ label c code = l.
Proof.
  rewrite check_ai_indicators_unfold, ai_checks_battery. cbn [snd].
  rewrite in_map_iff. unfold triggered. split.
  - intros (c & Hl & Hc). apply filter_In in Hc. exists c. tauto.
  - intros (c & Hb & Ht & Hl). exists c. split; [exact Hl|].
    apply filter_In. auto.
Qed.

(** X9. The indicator for naming is returned exactly when the text holds
    [class=] followed by a non-empty word of lower-case ASCII letters and
    hyphens between double quotes, with nothing else between the
    quotes. *)
Theorem kebab_indicator_iff (code : text) :
  In "Consistent kebab-case naming"%string (snd (check_ai_indicators code))
  <-> exists before w after,
        code = before ++ lit "class=" ++ dq ++ w ++ dq ++ after
        /\ w <> []
        /\ Forall (fun c => (97 <= c <= 122)%N \/ c = 45%N) w.
Proof.
  assert (Hchar : forall w,
            forallb kebab_char w = true
            <-> Forall (fun c => (97 <= c <= 122)%N \/ c = 45%N) w).
  { intros w. induction w as [|c w IH]; simpl.
    - split; [constructor | reflexivity].
    - rewrite andb_true_iff, IH, List.Forall_cons_iff.
      assert (Hc : kebab_char c = true <-> (97 <= c <= 122)%N \/ c = 45%N).
      { unfold kebab_char, in_range, one_of. simpl.
        rewrite !orb_true_iff, andb_true_iff, !N.leb_le, N.eqb_eq.
        intuition discriminate. }
      rewrite Hc. reflexivity. }
  rewrite label_in_indicators. split.
  - intros (c & Hb & Ht & Hl). unfold battery in Hb. simpl in Hb.
    repeat (destruct Hb as [<- | Hb];
            [unfold label, comments_label, bootstrap_label in Hl;
             simpl in Hl; try discriminate Hl |]); [|destruct Hb].
    cbn [triggers] in Ht. apply has_kebab_class_spec in Ht.
    destruct Ht as (before & after & -> & w & post & -> & Hne & Hw).
    exists before, w, post. rewrite <- Hchar. auto.
  - intros (before & w & after & -> & Hne & Hw).
    exists {| triggers := has_kebab_class; weight := 1 # 2;
              label := fun _ => "Consistent kebab-case naming"%string |}.
    split; [unfold battery; simpl; tauto|]. split; [|reflexivity].
    cbn [triggers]. apply has_kebab_class_spec.
    exists before, (lit "class=" ++ dq ++ w ++ dq ++ after).
    split; [reflexivity|]. exists w, after. rewrite Hchar. auto.
Qed.

(** ** The check for nested rows *)

Lemma startswith_app_iff (p s : text) :
  startswith p s = true <-> exists r, s = p ++ r.
Proof.
  revert s. induction p as [|x p IH]; intros s; simpl.
  - split; eauto.
  - destruct s as [|y s]; [split; [discriminate | intros [r H]; discriminate]|].
    rewrite andb_true_iff, N.eqb_eq, IH. split.
    + intros [-> [r ->]]. eauto.
    + intros [r [= -> ->]]. eauto.
Qed.

Lemma count_from_skip (sub x t : text) :
  count_from sub (x ++ t) (length x) = count_from sub t 0.
Proof.
  induction x as [|c x IH]; simpl; [|exact IH].
  destruct t; reflexivity.
Qed.

(** [n] occurrences of [sub] one after the other, with any text before,
    between and after them. *)
Fixpoint occurrences (n : nat) (sub s : text) : Prop :=
  match n with
  | O => True
  | S n => exists a r, s = a ++ sub ++ r /\ occurrences n sub r
  end.

Lemma occurrences_app (n : nat) (sub x s : text) :
  occurrences n sub s -> occurrences n sub (x ++ s).
Proof.
  destruct n as [|n]; simpl; [auto|].
  intros (a & r & -> & H). exists (x ++ a), r. rewrite <- app_assoc. auto.
Qed.

Lemma app_eq_app_longer (a b c d : text) :
  a ++ b = c ++ d -> length c <= length a -> exists x, d = x ++ b.
Proof.
  revert c. induction a as [|y a IH]; intros [|z c]; simpl; intros H Hl.
  - exists []. auto.
  - lia.
  - exists (y :: a). auto.
  - injection H as -> H. apply (IH c H). lia.
Qed.

(** [s.count(sub)] is the largest number of occurrences of [sub] that
    follow one another in [s]. *)
Lemma count_occurrences (sub : text) :
  sub <> [] ->
  forall len s n,
    length s <= len ->
    n <= count_from sub s 0 <-> occurrences n sub s.
Proof.
  intros Hsub. induction len as [|len IH]; intros s n Hlen.
  - destruct s; [|simpl in Hlen; lia]. simpl.
    destruct n as [|n]; simpl; [split; [auto | lia]|].
    split; [lia|]. intros (a & r & H & _).
    destruct a, sub; try discriminate; congruence.
  - destruct s as [|c tl]; [apply IH; simpl; lia|].
    destruct n as [|n]; [simpl; split; [auto | lia]|].
    cbn [count_from occurrences].
    destruct (startswith sub (c :: tl)) eqn:E.
    + apply startswith_app_iff in E. destruct E as [r0 E].
      destruct sub as [|x sub']; [congruence|].
      simpl in E. injection E as <- ->.
      replace (length (c :: sub') - 1) with (length sub') by (simpl; lia).
      rewrite count_from_skip, <- Nat.succ_le_mono.
      rewrite (IH r0 n) by (simpl in Hlen; rewrite length_app in Hlen; lia).
      split.
      * intros H. exists [], r0. auto.
      * intros (a & r & Ea & H).
        destruct (app_eq_app_longer (a ++ c :: sub') r (c :: sub') r0)
          as [x ->].
        -- rewrite <- app_assoc. exact (eq_sym Ea).
        -- rewrite length_app. lia.
        -- apply occurrences_app. exact H.
    + rewrite (IH tl (S n)) by (simpl in Hlen; lia). cbn [occurrences].
      split.
      * intros (a & r & -> & H). exists (c :: a), r. auto.
      * intros (a & r & Ea & H). destruct a as [|y a].
        -- simpl in Ea.
           assert (startswith sub (c :: tl) = true)
             by (apply startswith_app_iff; eauto).
           congruence.
        -- simpl in Ea. injection Ea as -> ->. eauto.
Qed.

(** X10. The indicator for a nested grid is returned exactly when the
    text holds the opening of a [div] whose class starts with [row], as
    the program spells it, twice; the two need not be nested. *)
Theorem nested_rows_indicator_iff (code : text) :
  let opening := lit "<div class=" ++ dq ++ lit "row" in
  In "Complex nested grid structure"%string (snd (check_ai_indicators code))
  <-> exists a b c, code = a ++ opening ++ b ++ opening ++ c.
Proof.
  intros opening. rewrite label_in_indicators.
  assert (Hspec : has_nested_rows code = true
                  <-> exists a b c, code = a ++ opening ++ b ++ opening ++ c).
  { unfold has_nested_rows, count. fold opening. rewrite Nat.leb_le.
    rewrite (count_occurrences opening ltac:(discriminate) (length code) code 2
               (le_n _)).
    cbn [occurrences]. split.
    - intros (a & r & -> & b & c & -> & _). eauto.
    - intros (a & b & c & ->). exists a, (b ++ opening ++ c).
      split; [reflexivity|]. exists b, c. auto. }
  rewrite <- Hspec. split.
  - intros (c & Hb & Ht & Hl). unfold battery in Hb. simpl in Hb.
    repeat (destruct Hb as [<- | Hb];
            [unfold label, comments_label, bootstrap_label in Hl;
             simpl in Hl; try discriminate Hl |]); [|destruct Hb].
    exact Ht.
  - intros H.
    exists {| triggers := has_nested_rows; weight := 1;
              label := fun _ => "Complex nested grid structure"%string |}.
    split; [unfold battery; simpl; tauto|]. split; [exact H | reflexivity].
Qed.

(** ** The check for comments *)

Lemma star_loop_lazy_S
  (body : mstate -> (mstate -> option mstate) -> option mstate)
  (k : mstate -> option mstate) (fuel : nat) (st : mstate) :
  star_loop body false k (S fuel) st
  = match k st with
    | Some res => Some res
    | None => body st (fun st' => if pos st <? pos st'
                                  then star_loop body false k fuel st'
                                  else None)
    end.
Proof. reflexivity. Qed.

Lemma exec_str_re_None (l : text) :
  forall p pv s cs,
    exec (str_re l) (MState p pv s cs) Some = None ->
    startswith l s = false.
Proof.
  intros p pv s cs H. destruct (startswith l s) eqn:E; [|reflexivity].
  apply startswith_app_iff in E. destruct E as [r ->].
  destruct (exec_str_re_app l p pv r cs) as [pv' E]. rewrite E in H.
  discriminate H.
Qed.

Section Lazy.

(** The text that ends the match, not empty. *)
Variable close : text.
Hypothesis close_nonempty : close <> [].

(** The first place at which [close] occurs in [s] is after [m]. *)
Definition first_close (s m r : text) : Prop :=
  s = m ++ close ++ r
  /\ forall m' r', s = m' ++ close ++ r' -> length m <= length m'.

Definition no_close (s : text) : Prop :=
  forall m' r', s <> m' ++ close ++ r'.

Lemma nil_no_close : no_close [].
Proof.
  intros m' r' H. symmetry in H. apply app_eq_nil in H. destruct H as [_ H].
  apply app_eq_nil in H. destruct H as [H _]. exact (close_nonempty H).
Qed.

(** The lazy [.*?] before [close] stops at the first place at which
    [close] occurs. *)
Lemma lazy_any_spec (fuel : nat) :
  forall s p pv cs,
    length s <= fuel ->
    match star_loop (exec any) false
            (fun st => exec (str_re close) st Some) fuel (MState p pv s cs)
    with
    | Some res =>
        exists m r, first_close s m r
                    /\ pos res = p + length m + length close
    | None => no_close s
    end.
Proof.
  induction fuel as [|fuel IH]; intros s p pv cs Hlen.
  - destruct s; [|simpl in Hlen; lia]. cbn [star_loop].
    destruct (exec (str_re close) (MState p pv [] cs) Some) as [res|] eqn:E.
    + apply exec_str_re_inv in E. destruct E as (tl & pv' & E & _).
      symmetry in E. apply app_eq_nil in E. destruct E as [E _].
      destruct (close_nonempty E).
    + apply nil_no_close.
  - rewrite star_loop_lazy_S.
    destruct (exec (str_re close) (MState p pv s cs) Some) as [res|] eqn:E.
    + apply exec_str_re_inv in E. destruct E as (tl & pv' & -> & [= <-]).
      exists [], tl. split; [|simpl; lia].
      split; [reflexivity|]. intros; simpl; lia.
    + apply exec_str_re_None in E. unfold any. rewrite exec_Class.
      destruct s as [|c tl].
      * apply nil_no_close.
      * cbn [pos].
        replace (p <? S p) with true by (symmetry; apply Nat.ltb_lt; lia).
        specialize (IH tl (S p) (Some c) cs ltac:(simpl in Hlen; lia)).
        fold any.
        destruct (star_loop (exec any) false _ fuel _) as [res|].
        -- destruct IH as (m & r & [-> Hmin] & Hpos).
           exists (c :: m), r. split; [|simpl; lia].
           split; [reflexivity|]. intros m' r' H.
           destruct m' as [|c' m'].
           ++ simpl in H.
              assert (startswith close (c :: m ++ close ++ r) = true)
                by (apply startswith_app_iff; eauto).
              congruence.
           ++ simpl in H. injection H as _ H. apply Hmin in H. simpl. lia.
        -- intros m' r' H. destruct m' as [|c' m'].
           ++ simpl in H.
              assert (startswith close (c :: tl) = true)
                by (apply startswith_app_iff; eauto).
              congruence.
           ++ simpl in H. injection H as _ H. exact (IH _ _ H).
Qed.

End Lazy.

(** What a match of [comment_re] at the start of [s] is: the shortest
    comment there. *)
Lemma exec_comment_spec (p : nat) (pv : option N) (s : text) :
  match exec comment_re (MState p pv s []) Some with
  | Some res =>
      exists m r,
        s = comment m ++ r
        /\ pos res = p + length (comment m)
        /\ forall m' r', s = comment m' ++ r' -> length m <= length m'
  | None => forall m' r', s <> comment m' ++ r'
  end.
Proof.
  unfold comment_re, str, comment. rewrite exec_Cat.
  destruct (exec (str_re (lit "<!--")) _ _) as [res|] eqn:E.
  - apply exec_str_re_inv in E. destruct E as (tl & pv' & -> & E).
    rewrite exec_Cat, exec_Star in E. cbn [rest] in E.
    pose proof (lazy_any_spec (lit "-->") ltac:(discriminate)
                  (S (length tl)) tl (p + length (lit "<!--")) pv' []
                  ltac:(lia)) as H.
    rewrite E in H. destruct H as (m & r & [-> Hmin] & Hpos).
    exists m, r. rewrite <- !app_assoc. split; [reflexivity|].
    split; [rewrite Hpos, !length_app; lia|].
    intros m' r' H. rewrite <- !app_assoc in H.
    apply app_inv_head in H. apply Hmin in H. exact H.
  - intros m' r' ->. rewrite <- !app_assoc in E.
    destruct (exec_str_re_app (lit "<!--") p pv
                (m' ++ lit "-->" ++ r') []) as [pv' E'].
    rewrite E' in E. rewrite exec_Cat, exec_Star in E. cbn [rest] in E.
    pose proof (lazy_any_spec (lit "-->") ltac:(discriminate)
                  (S (length (m' ++ lit "-->" ++ r'))) (m' ++ lit "-->" ++ r')
                  (p + length (lit "<!--")) pv' [] ltac:(lia)) as H.
    rewrite E in H. exact (H m' r' eq_refl).
Qed.

(** The length of a match does not depend on where the text lies. *)
Lemma exec_comment_shift (p p' : nat) (pv pv' : option N) (s : text) :
  match exec comment_re (MState p pv s []) Some,
        exec comment_re (MState p' pv' s []) Some with
  | Some res, Some res' => pos res - p = pos res' - p'
  | None, None => True
  | _, _ => False
  end.
Proof.
  pose proof (exec_comment_spec p pv s) as H.
  pose proof (exec_comment_spec p' pv' s) as H'.
  destruct (exec comment_re (MState p pv s []) Some) as [res|],
    (exec comment_re (MState p' pv' s []) Some) as [res'|].
  - destruct H as (m & r & E & Hp & Hmin), H' as (m' & r' & E' & Hp' & Hmin').
    pose proof (Hmin _ _ E'). pose proof (Hmin' _ _ E).
    rewrite Hp, Hp'. unfold comment. rewrite !length_app. lia.
  - destruct H as (m & r & E & _). exact (H' _ _ E).
  - destruct H' as (m & r & E & _). exact (H _ _ E).
  - exact I.
Qed.

Lemma findall_comment_shift (s : text) :
  forall k p pv p' pv',
    length (findall_from comment_re p pv s k)
    = length (findall_from comment_re p' pv' s k).
Proof.
  induction s as [|c tl IH]; intros k p pv p' pv'.
  - destruct k as [|k]; cbn [findall_from]; [|reflexivity].
    pose proof (exec_comment_shift p p' pv pv' []) as H.
    destruct (exec comment_re (MState p pv [] []) Some) as [res|],
      (exec comment_re (MState p' pv' [] []) Some) as [res'|];
      [reflexivity | destruct H | destruct H | reflexivity].
  - destruct k as [|k]; cbn [findall_from]; [|apply IH].
    pose proof (exec_comment_shift p p' pv pv' (c :: tl)) as H.
    destruct (exec comment_re (MState p pv (c :: tl) []) Some) as [res|],
      (exec comment_re (MState p' pv' (c :: tl) []) Some) as [res'|];
      [| destruct H | destruct H | apply IH].
    cbn [length]. f_equal. replace (pos res - p - 1) with (pos res' - p' - 1)
      by lia.
    apply IH.
Qed.

Lemma findall_comment_skip (x t : text) :
  forall p pv p' pv',
    length (findall_from comment_re p pv (x ++ t) (length x))
    = length (findall_from comment_re p' pv' t 0).
Proof.
  induction x as [|c x IH]; intros p pv p' pv'.
  - apply findall_comment_shift.
  - cbn [app length findall_from]. apply IH.
Qed.

(** [n] comments one after the other, with any text before, between and
    after them. *)
Fixpoint comments (n : nat) (s : text) : Prop :=
  match n with
  | O => True
  | S n => exists a m r, s = a ++ comment m ++ r /\ comments n r
  end.

Lemma comments_app (n : nat) (x s : text) :
  comments n s -> comments n (x ++ s).
Proof.
  destruct n as [|n]; simpl; [auto|].
  intros (a & m & r & -> & H). exists (x ++ a), m, r.
  split; [apply app_assoc | exact H].
Qed.

(** A comment that starts later in a text that starts with the opening
    mark ends a comment that starts at the start. *)
Lemma comment_later (s a m r : text) :
  s = a ++ comment m ++ r ->
  startswith (lit "<!--") s = true ->
  exists m', s = comment m' ++ r /\ length m <= length m'.
Proof.
  intros E H. apply startswith_app_iff in H. destruct H as [t Ht].
  destruct (app_eq_app_longer (a ++ lit "<!--" ++ m) (lit "-->" ++ r)
              (lit "<!--") t) as [x Hx].
  - rewrite <- Ht, E. unfold comment. rewrite <- !app_assoc. reflexivity.
  - rewrite !length_app. lia.
  - exists x. subst t. split.
    + rewrite Ht. unfold comment. rewrite <- !app_assoc. reflexivity.
    + assert (Hl : length s = length s) by reflexivity.
      rewrite E in Hl at 1. rewrite Ht in Hl. unfold comment in Hl.
      rewrite !length_app in Hl. lia.
Qed.

(** [re.findall] finds as many comments as follow one another in the
    text. *)
Lemma findall_comments (len : nat) :
  forall s n p pv,
    length s <= len ->
    n <= length (findall_from comment_re p pv s 0) <-> comments n s.
Proof.
  induction len as [|len IH]; intros s n p pv Hlen;
    (destruct n as [|n]; [simpl; split; [auto | lia]|]).
  - destruct s; [|simpl in Hlen; lia]. cbn [findall_from].
    pose proof (exec_comment_spec p pv []) as H.
    destruct (exec comment_re (MState p pv [] []) Some) as [res|].
    + destruct H as (m & r & E & _). discriminate E.
    + simpl. split; [lia|]. intros (a & m & r & E & _).
      destruct a; discriminate E.
  - destruct s as [|c tl].
    { cbn [findall_from].
      pose proof (exec_comment_spec p pv []) as H.
      destruct (exec comment_re (MState p pv [] []) Some) as [res|].
      + destruct H as (m & r & E & _). discriminate E.
      + simpl. split; [lia|]. intros (a & m & r & E & _).
        destruct a; discriminate E. }
    cbn [findall_from].
    pose proof (exec_comment_spec p pv (c :: tl)) as H.
    destruct (exec comment_re (MState p pv (c :: tl) []) Some) as [res|].
    + destruct H as (m & r0 & E & Hp & Hmin).
      assert (Etl : tl = (lit "!--" ++ m ++ lit "-->") ++ r0
                    /\ pos res - p - 1 = length (lit "!--" ++ m ++ lit "-->")).
      { unfold comment in E, Hp. simpl in E. injection E as _ E.
        split; [rewrite <- app_assoc; exact E|].
        rewrite Hp, !length_app. simpl. lia. }
      destruct Etl as [Etl Ek]. rewrite Ek, Etl.
      rewrite length_cons, (findall_comment_skip _ r0 _ _ 0 None).
      rewrite <- Nat.succ_le_mono.
      rewrite (IH r0 n 0 None)
        by (rewrite Etl, length_cons, length_app in Hlen; lia).
      rewrite <- Etl. cbn [comments]. split.
      * intros Hn. exists [], m, r0. auto.
      * intros (a & m' & r' & Ea & Hn).
        destruct (comment_later (c :: tl) a m' r' Ea) as (m'' & Es & Hl).
        { rewrite E. reflexivity. }
 pose proof (Hmin _ _ Es) as Hm.
        destruct (app_eq_app_longer (comment m'') r' (comment m) r0)
          as [x ->].
        -- rewrite <- Es. exact E.
        -- unfold comment. rewrite !length_app. lia.
        -- apply comments_app. exact Hn.
    + rewrite (IH tl (S n)) by (simpl in Hlen; lia). cbn [comments]. split.
      * intros (a & m & r & -> & Hn). exists (c :: a), m, r. auto.
      * intros (a & m & r & Ea & Hn). destruct a as [|y a].
        -- destruct (H m r Ea).
        -- simpl in Ea. injection Ea as -> ->. eauto.
Qed.

(** X11. The indicator for comments is returned, with some count in its
    label, exactly when the text holds three comments one after the
    other, each an opening mark, any text, line breaks included, and a
    closing mark. *)
Theorem comments_indicator_iff (code : text) :
  (exists k, In (comments_label k) (snd (check_ai_indicators code)))
  <-> exists a1 m1 a2 m2 a3 m3 r,
        code = a1 ++ comment m1 ++ a2 ++ comment m2 ++ a3 ++ comment m3 ++ r.
Proof.
  assert (Hspec : (3 <=? comment_count code) = true
                  <-> exists a1 m1 a2 m2 a3 m3 r,
                        code = a1 ++ comment m1 ++ a2 ++ comment m2
                               ++ a3 ++ comment m3 ++ r).
  { unfold comment_count, re_findall. rewrite Nat.leb_le.
    rewrite (findall_comments (length code) code 3 0 None (le_n _)).
    cbn [comments]. split.
    - intros (a1 & m1 & r1 & -> & a2 & m2 & r2 & -> & a3 & m3 & r3 & -> & _).
      exists a1, m1, a2, m2, a3, m3, r3. reflexivity.
    - intros (a1 & m1 & a2 & m2 & a3 & m3 & r & ->).
      exists a1, m1, (a2 ++ comment m2 ++ a3 ++ comment m3 ++ r).
      split; [reflexivity|].
      exists a2, m2, (a3 ++ comment m3 ++ r). split; [reflexivity|].
      exists a3, m3, r. auto. }
  rewrite <- Hspec. split.
  - intros (k & H). apply label_in_indicators in H.
    destruct H as (c & Hb & Ht & Hl). unfold battery in Hb. simpl in Hb.
    repeat (destruct Hb as [<- | Hb];
            [unfold label, comments_label, bootstrap_label in Hl;
             simpl in Hl; try discriminate Hl |]); [|destruct Hb].
    exact Ht.
  - intros H. exists (comment_count code). apply label_in_indicators.
    exists {| triggers := fun code => 3 <=? comment_count code;
              weight := 3 # 2;
              label := fun code => comments_label (comment_count code) |}.
    split; [unfold battery; simpl; tauto|]. split; [exact H | reflexivity].
Qed.

(** ** Text without markup *)

Lemma lstrip_suffix (s : text) : exists t, s = t ++ lstrip s.
Proof.
  induction s as [|c s IH]; simpl.
  - exists []. reflexivity.
  - destruct (isspace c); [|exists []; reflexivity].
    destruct IH as [t Ht]. exists (c :: t). simpl. rewrite <- Ht. reflexivity.
Qed.

Lemma In_strip (c : N) (s : text) : In c (strip s) -> In c s.
Proof.
  unfold strip. intros H.
  destruct (rstrip_prefix (lstrip s)) as [t Ht].
  destruct (lstrip_suffix s) as [u Hu].
  rewrite Hu, Ht. apply in_or_app. right. apply in_or_app. left. exact H.
Qed.

Lemma startswith_head (c : N) (p s : text) :
  startswith (c :: p) s = true -> exists tl, s = c :: tl.
Proof.
  destruct s as [|x s]; simpl; [discriminate|].
  intros H. apply andb_true_iff in H. destruct H as [H _].
  apply N.eqb_eq in H. subst. eauto.
Qed.

Lemma contains_head (c : N) (p s : text) :
  contains (c :: p) s = true -> In c s.
Proof.
  induction s as [|x s IH]; intros H.
  - simpl in H. discriminate.
  - cbn [contains] in H. apply orb_true_iff in H. destruct H as [H | H].
    + apply startswith_head in H. destruct H as [tl [= -> _]]. left. reflexivity.
    + right. apply IH. exact H.
Qed.

Lemma In_skipn (c : N) (n : nat) (s : text) : In c (skipn n s) -> In c s.
Proof.
  intros H. rewrite <- (firstn_skipn n s). apply in_or_app. right. exact H.
Qed.

(** A successful search for a character class stops at a character of the
    class. *)
Lemma re_search_class (f : N -> bool) (s : text) (i j : nat) (m : mstate) :
  re_search (Class f) s i = Some (j, m) ->
  exists c tl, skipn j s = c :: tl /\ f c = true.
Proof.
  intros H. unfold re_search in H.
  apply (search_from_advances (fun c => f c = true) (Class f)) in H;
    [|intros c Hc; exact Hc].
  destruct H as (u & w & E1 & E2 & E3 & L & F).
  cbn [at_pos rest pos] in E1, E2. subst j.
  destruct w as [|c w]; [simpl in L; lia|].
  exists c, (w ++ rest m). split; [|inversion F; assumption].
  rewrite Nat.add_comm, <- skipn_skipn, E1.
  rewrite skipn_app, skipn_all, Nat.sub_diag. reflexivity.
Qed.

Lemma exec_Or (r1 r2 : regex) (st : mstate) (k : mstate -> option mstate) :
  exec (Or r1 r2) st k
  = match exec r1 st k with
    | Some res => Some res
    | None => exec r2 st k
    end.
Proof. reflexivity. Qed.

Lemma holds_long_reference_skipn (k : nat) (s : text) :
  holds_long_reference (skipn k s) -> holds_long_reference s.
Proof.
  intros (a & d & b & E & Hd & Hl). exists (firstn k s ++ a), d, b.
  split; [|split; assumption].
  rewrite <- app_assoc, <- E. symmetry. apply firstn_skipn.
Qed.

Lemma is_digit_range (c : N) : is_digit c = true <-> (48 <= c <= 57)%N.
Proof.
  unfold is_digit, in_range. simpl. rewrite andb_true_iff, !N.leb_le.
  reflexivity.
Qed.

(** The name that [charref] matches is [x] or [X] and hexadecimal digits,
    or the decimal digits that follow [&#]. *)
Lemma charref_name (rawdata : text) (i : nat) (m : mstate) :
  re_match charref rawdata i = Some m ->
  let name := slice rawdata (i + 2) (pos m - 1) in
  startswith (lit "x") name || startswith (lit "X") name = true
  \/ exists b, skipn i rawdata = lit "&#" ++ name ++ b
               /\ forallb is_digit name = true.
Proof.
  unfold re_match, at_pos, charref, str, plus. intros H.
  rewrite exec_Cat in H. apply exec_str_re_inv in H.
  destruct H as (tl & pv & Etl & H). cbn [rest] in Etl.
  assert (Eskip : skipn (i + 2) rawdata = tl).
  { rewrite Nat.add_comm, <- skipn_skipn, Etl. reflexivity. }
  unfold slice. rewrite Eskip.
  rewrite exec_Cat, exec_Or in H.
  match type of H with
  | match ?e with _ => _ end = _ => destruct e as [res|] eqn:E1
  end.
  - (* decimal digits *)
    right. injection H as ->.
    rewrite exec_Cat, exec_Class in E1. destruct tl as [|c tl]; [discriminate|].
    destruct (is_digit c) eqn:Ec; [|discriminate].
    rewrite exec_Star in E1. apply star_class_inv in E1.
    destruct E1 as (w & tl' & pv' & E & Hw & E1). cbn [rest] in E. subst tl.
    rewrite exec_Class in E1. destruct tl' as [|h tl']; [discriminate|].
    destruct (negb (is_hex h)); [|discriminate]. injection E1 as <-.
    cbn [pos].
    match goal with
    | |- context [firstn ?n _] =>
        replace n with (length (c :: w)) by (simpl; lia)
    end.
    change (c :: w ++ h :: tl') with ((c :: w) ++ h :: tl').
    rewrite firstn_app, firstn_all, Nat.sub_diag, firstn_0, app_nil_r.
    exists (h :: tl'). split; [exact Etl|].
    simpl. rewrite Ec. exact Hw.
  - (* [x] and hexadecimal digits *)
    left. rewrite exec_Cat, exec_Class in H.
    destruct tl as [|x tl]; [discriminate|].
    destruct (one_of "xX" x) eqn:Ex; [|discriminate].
    rewrite exec_Cat, exec_Class in H. destruct tl as [|h tl]; [discriminate|].
    destruct (is_hex h); [|discriminate].
    rewrite exec_Star in H. apply star_class_inv in H.
    destruct H as (w & tl' & pv' & E & Hw & H). cbn [rest] in E. subst tl.
    rewrite exec_Class in H. destruct tl' as [|g tl']; [discriminate|].
    destruct (negb (is_hex g)); [|discriminate]. injection H as <-.
    cbn [pos].
    match goal with
    | |- context [firstn ?n _] =>
        replace n with (S (S (length w))) by (simpl; lia)
    end.
    cbn [firstn]. unfold one_of in Ex. apply existsb_exists in Ex.
    destruct Ex as (y & Hy & Hxy). apply N.eqb_eq in Hxy. subst y.
    vm_compute in Hy. destruct Hy as [<- | [<- | []]]; reflexivity.
Qed.

Section PlainText.

Variable replace_charrefs : text -> text.

(** On a text without [<] and without a long character reference, a turn
    of the loop of [goahead] leaves the parser as it is. *)
Lemma goahead_turn_plain (end_ : bool) (rawdata : text) (self : HTMLParser)
  (i : nat) :
  ~ In 60%N rawdata -> ~ holds_long_reference rawdata ->
  cdata_elem self = None ->
  exists k, goahead_turn replace_charrefs end_ rawdata self i
            = Returns (Continue self k)
            \/ goahead_turn replace_charrefs end_ rawdata self i
               = Returns (Break self k).
Proof.
  intros Hlt Hlong Hcd. unfold goahead_turn. rewrite Hcd. cbn [found].
  destruct (re_search interesting_normal rawdata i) as [[j m]|] eqn:E.
  - apply re_search_class in E. destruct E as (c & tl & Ej & Hc).
    assert (Hin : In c rawdata)
      by (apply (In_skipn c j); rewrite Ej; left; reflexivity).
    assert (Hamp : c = 38%N).
    { unfold one_of in Hc. simpl in Hc. rewrite orb_false_r in Hc.
      apply orb_true_iff in Hc. destruct Hc as [Hc | Hc];
        apply N.eqb_eq in Hc; [exact Hc | subst c; contradiction]. }
    subst c.
    destruct (j =? length rawdata); [eauto|].
    unfold startswith_at. rewrite Ej.
    change (startswith (lit "<") (38%N :: tl)) with false. cbv iota.
    change (startswith (lit "&") (38%N :: tl)) with true.
    destruct (startswith (lit "&#") (38%N :: tl)).
    + destruct (re_match charref rawdata j) as [m'|] eqn:Em.
      * assert (Hname : handle_charref (slice rawdata (j + 2) (pos m' - 1))
                        = Returns tt).
        { unfold handle_charref.
          destruct (charref_name rawdata j m' Em) as [-> | (b & Eb & Hd)];
            [reflexivity|].
          destruct (startswith (lit "x") _ || startswith (lit "X") _);
            [reflexivity|].
          destruct (max_str_digits <? _) eqn:El; [|reflexivity].
          apply Nat.ltb_lt in El. destruct Hlong.
          exists (firstn j rawdata), (slice rawdata (j + 2) (pos m' - 1)), b.
          split; [rewrite <- Eb; symmetry; apply firstn_skipn|].
          split; [|exact El].
          apply List.Forall_forall. intros d Hin'. apply is_digit_range.
          rewrite forallb_forall in Hd. apply Hd, Hin'. }
        rewrite Hname. cbn [bind]. eauto.
      * destruct (contains _ _); eauto.
    + cbv iota. destruct (re_match entityref rawdata j); [eauto|].
      destruct (re_match incomplete rawdata j).
      * destruct (end_ && _); eauto.
      * destruct (j + 1 <? length rawdata); eauto.
  - rewrite Nat.eqb_refl. eauto.
Qed.

Lemma goahead_loop_plain (end_ : bool) (rawdata : text) (self : HTMLParser)
  (fuel : nat) :
  ~ In 60%N rawdata -> ~ holds_long_reference rawdata ->
  cdata_elem self = None ->
  forall i,
    length rawdata - i < fuel ->
    exists k, goahead_loop replace_charrefs fuel end_ rawdata self i
              = Returns (self, k).
Proof.
  intros Hlt Hlong Hcd. induction fuel as [|fuel IH]; intros i Hfuel; [lia|].
  cbn [goahead_loop]. destruct (i <? length rawdata) eqn:Hi; [|eauto].
  apply Nat.ltb_lt in Hi.
  pose proof (goahead_turn_ok replace_charrefs end_ rawdata self i Hi) as Hok.
  destruct (goahead_turn_plain end_ rawdata self i Hlt Hlong Hcd)
    as [k [E | E]]; rewrite E in *; cbn [bind]; [|eauto].
  simpl in Hok. apply IH. lia.
Qed.

Lemma goahead_plain (end_ : bool) (rawdata : text) (self : HTMLParser) :
  ~ In 60%N rawdata -> ~ holds_long_reference rawdata ->
  cdata_elem self = None ->
  exists k, goahead replace_charrefs end_ rawdata self
            = Returns (self, skipn k rawdata).
Proof.
  intros Hlt Hlong Hcd. unfold goahead.
  destruct (goahead_loop_plain end_ rawdata self (S (length rawdata))
              Hlt Hlong Hcd 0 ltac:(lia)) as [k ->].
  cbn [bind]. eauto.
Qed.

(** Beautiful Soup finds no element in such a text. *)
Lemma BeautifulSoup_plain (markup : text) :
  ~ In 60%N markup -> ~ holds_long_reference markup ->
  BeautifulSoup replace_charrefs markup = Returns [].
Proof.
  intros Hlt Hlong. unfold BeautifulSoup, feed_and_close.
  destruct (goahead_plain false markup {| cdata_elem := None; elements := [] |}
              Hlt Hlong eq_refl) as [k ->].
  cbn [bind].
  destruct (goahead_plain true (skipn k markup)
              {| cdata_elem := None; elements := [] |}) as [k' ->];
    [intros H; apply Hlt, (In_skipn _ k), H
    |intros H; apply Hlong, (holds_long_reference_skipn k), H
    |reflexivity|].
  reflexivity.
Qed.

End PlainText.

(** X12. A text without the character [<] and without a decimal character
    reference of more than 4300 digits is analysed without a parse
    failure: no DOCTYPE, no container, no rows, no columns and no custom
    CSS are found, and the structure score is at most 3. *)
Theorem plain_text_has_no_structure (replace_charrefs : text -> text)
  (code : text) :
  ~ In 60%N code ->
  ~ holds_long_reference code ->
  exists structure,
    analyze_code_structure replace_charrefs code = Returns (Some structure)
    /\ has_doctype structure = false
    /\ has_container structure = false
    /\ row_count structure = 0
    /\ col_elements structure = 0
    /\ has_custom_css structure = false
    /\ structure_score structure <= 3.
Proof.
  intros Hlt Hlong. unfold analyze_code_structure.
  rewrite (BeautifulSoup_plain replace_charrefs code Hlt Hlong).
  cbn [bind try_except]. eexists. split; [reflexivity|].
  cbn [has_doctype has_container row_count col_elements has_custom_css].
  assert (Hd : startswith (lit "<!DOCTYPE html>") (strip code) = false).
  { destruct (startswith _ _) eqn:E; [|reflexivity].
    apply startswith_head in E. destruct E as [tl E].
    exfalso. apply Hlt, In_strip. rewrite E. left. reflexivity. }
  assert (Hs : contains (lit "<style>") code = false).
  { destruct (contains _ _) eqn:E; [|reflexivity].
    apply contains_head in E. contradiction. }
  rewrite Hd, Hs. repeat (split; [reflexivity|]).
  unfold structure_score.
  cbn [has_doctype has_bootstrap_css has_bootstrap_js has_container row_count
       has_custom_css has_media_query col_elements find find_all List.filter
       head found length Nat.leb List.map Nat.b2n list_sum].
  destruct (contains (lit "bootstrap") code && contains (lit ".css") code),
    (contains (lit "bootstrap") code && contains (lit ".js") code),
    (contains (lit "@media") code); simpl; lia.
Qed.

Lemma plain_text_has_no_structure_witness :
  exists structure,
    analyze_code_structure (fun s => s) (lit "bootstrap.css &#38; bootstrap.js")
    = Returns (Some structure)
    /\ has_doctype structure = false
    /\ has_container structure = false
    /\ row_count structure = 0
    /\ col_elements structure = 0
    /\ has_custom_css structure = false
    /\ structure_score structure <= 3.
Proof.
  apply plain_text_has_no_structure.
  - vm_compute. intuition discriminate.
  - intros (a & d & b & E & _ & Hl).
    assert (H : length (lit "bootstrap.css &#38; bootstrap.js")
                = length (a ++ lit "&#" ++ d ++ b)) by (rewrite E; reflexivity).
    rewrite !length_app in H. simpl in H. lia.
Defined.

(** ** The analyzer and the scorer on the same text *)

Lemma contains_iff (sub s : text) :
  contains sub s = true <-> exists a b, s = a ++ sub ++ b.
Proof.
  induction s as [|c s IH]; cbn [contains]; rewrite orb_true_iff,
    startswith_app_iff.
  - split.
    + intros [[r H] | H]; [|discriminate]. exists [], r. exact H.
    + intros (a & b & H). left. destruct a; [|discriminate H]. eauto.
  - rewrite IH. split.
    + intros [[r H] | (a & b & ->)].
      * exists [], r. exact H.
      * exists (c :: a), b. reflexivity.
    + intros (a & b & H). destruct a as [|x a].
      * left. eauto.
      * right. simpl in H. injection H as -> ->. eauto.
Qed.

Lemma strip_infix (s : text) : exists a b, s = a ++ strip s ++ b.
Proof.
  unfold strip. destruct (lstrip_suffix s) as [a Ha].
  destruct (rstrip_prefix (lstrip s)) as [b Hb].
  exists a, b. rewrite <- Hb. exact Ha.
Qed.

(** X13. When the analyzer returns facts, they agree with the scorer on
    the same text: the indicator for custom CSS with media queries is
    returned exactly when both facts [has_custom_css] and
    [has_media_query] hold, and when [has_doctype] holds the indicator
    for the HTML5 structure is returned exactly when the text contains
    [viewport]. *)
Theorem facts_agree_with_indicators (replace_charrefs : text -> text)
  (code : text) (structure : StructureFacts) :
  analyze_code_structure replace_charrefs code = Returns (Some structure) ->
  let indicators := snd (check_ai_indicators code) in
  (In "Custom CSS with media queries"%string indicators
   <-> has_custom_css structure = true /\ has_media_query structure = true)
  /\ (has_doctype structure = true ->
      (In "Proper HTML5 structure with meta viewport"%string indicators
       <-> exists a b, code = a ++ lit "viewport" ++ b)).
Proof.
  unfold analyze_code_structure.
  destruct (BeautifulSoup replace_charrefs code) as [soup|e|];
    cbn [bind try_except]; [|discriminate|discriminate].
  intros [= <-]. cbn [has_custom_css has_media_query has_doctype].
  split.
  - rewrite label_in_indicators, <- andb_true_iff.
    change (contains (lit "<style>") code && contains (lit "@media") code)
      with (has_custom_css_and_media code).
    split.
    + intros (c & Hb & Ht & Hl). unfold battery in Hb. simpl in Hb.
      repeat (destruct Hb as [<- | Hb];
              [unfold label, comments_label, bootstrap_label in Hl;
               simpl in Hl; try discriminate Hl |]); [|destruct Hb].
      exact Ht.
    + intros H.
      exists {| triggers := has_custom_css_and_media; weight := 1;
                label := fun _ => "Custom CSS with media queries"%string |}.
      split; [unfold battery; simpl; tauto|]. split; [exact H | reflexivity].
  - intros Hd. rewrite <- contains_iff.
    assert (Hc : contains (lit "<!DOCTYPE html>") code = true).
    { apply contains_iff.
      change (startswith (lit "<!DOCTYPE html>") (strip code) = true) in Hd.
      apply startswith_app_iff in Hd.
      destruct Hd as [r Hr]. destruct (strip_infix code) as (a & b & E).
      exists a, (r ++ b). rewrite E at 1. rewrite Hr, <- !app_assoc.
      reflexivity. }
    rewrite label_in_indicators. split.
    + intros (c & Hb & Ht & Hl). unfold battery in Hb. simpl in Hb.
      repeat (destruct Hb as [<- | Hb];
              [unfold label, comments_label, bootstrap_label in Hl;
               simpl in Hl; try discriminate Hl |]); [|destruct Hb].
      cbn [triggers] in Ht. unfold has_doctype_and_viewport in Ht.
      apply andb_true_iff in Ht. tauto.
    + intros H.
      exists {| triggers := has_doctype_and_viewport; weight := 1;
                label := fun _ =>
                  "Proper HTML5 structure with meta viewport"%string |}.
      split; [unfold battery; simpl; tauto|]. split; [|reflexivity].
      cbn [triggers]. unfold has_doctype_and_viewport. rewrite Hc, H.
      reflexivity.
Qed.

Lemma facts_agree_with_indicators_witness :
  exists structure,
    let code := lit " <!DOCTYPE html><style>@media viewport" in
    analyze_code_structure (fun s => s) code = Returns (Some structure)
    /\ (In "Custom CSS with media queries"%string
          (snd (check_ai_indicators code))
        <-> has_custom_css structure = true
            /\ has_media_query structure = true)
    /\ (has_doctype structure = true ->
        (In "Proper HTML5 structure with meta viewport"%string
           (snd (check_ai_indicators code))
         <-> exists a b, code = a ++ lit "viewport" ++ b)).
Proof.
  eexists. cbv zeta. split; [vm_compute; reflexivity|].
  apply (facts_agree_with_indicators (fun s => s)). vm_compute. reflexivity.
Defined.

(** ** The page *)

Section PageFacts.

Variable replace_charrefs : text -> text.

(** The analysis section is put on the page whatever the text: the three
    functions it calls return. *)
Lemma analysis_section_parts (user_code : text) :
  exists similarity structure,
    calculate_similarity user_code EXPECTED_HTML = Returns similarity
    /\ analyze_code_structure replace_charrefs user_code = Returns structure
    /\ analysis_section replace_charrefs user_code
       = Returns
           ([st_divider; st_subheader ([128202%N] ++ lit " Analysis Results")]
            ++ result_col1 similarity
            ++ result_col2 (fst (check_ai_indicators user_code))
            ++ result_col3 structure
            ++ [st_divider]
            ++ detail_col1 structure
            ++ detail_col2 (snd (check_ai_indicators user_code))
            ++ code_comparison similarity user_code).
Proof.
  destruct (calculate_similarity_returns user_code EXPECTED_HTML) as [q Hq].
  destruct (analyze_code_structure_returns replace_charrefs user_code)
    as [structure Hs].
  exists q, structure. split; [exact Hq|]. split; [exact Hs|].
  unfold analysis_section. rewrite Hq, Hs. cbn [bind].
  destruct (check_ai_indicators user_code). reflexivity.
Qed.

End PageFacts.

(** Goes through the elements of a part of the page. *)
Ltac elements H :=
  cbn [In app List.map] in H;
  repeat match type of H with
         | _ \/ _ => destruct H as [H | H]
         | False => destruct H
         | In _ (List.map _ _) =>
             let x := fresh in
             let E := fresh in
             apply in_map_iff in H; destruct H as (x & H & E)
         end;
  try discriminate H;
  try (injection H as H; simpl in H; discriminate H).

(** Goes through a part of the page, whatever its conditions are. *)
Ltac part H :=
  unfold result_col1, result_col2, result_col3, detail_col1, detail_col2,
    code_comparison in H;
  repeat match type of H with
         | context [if ?b then _ else _] => destruct b eqn:?
         | context [match ?s with Some _ => _ | None => _ end] =>
             destruct s eqn:?
         | context [match ?l with [] => _ | _ :: _ => _ end] =>
             destruct l eqn:?
         end;
  elements H.

(** Splits membership in the analysis section into its eight parts. *)
Ltac parts H :=
  rewrite !in_app_iff in H;
  destruct H as [H | [H | [H | [H | [H | [H | [H | H]]]]]]].

Lemma Qle_bool_1_false (q : Q) :
  (q <= 1)%Q -> Qle_bool 1 q = false <-> ~ (q == 1)%Q.
Proof.
  intros Hq. split.
  - intros H E. rewrite E in H. discriminate H.
  - intros H. destruct (Qle_bool 1 q) eqn:E; [|reflexivity].
    apply Qle_bool_iff in E. destruct H. apply Qle_antisym; assumption.
Qed.

(** X14. The analysis section shows the code comparison exactly when the
    submitted text differs from the reference document after both are
    stripped of surrounding white space; when they are equal it reports
    an excellent match. *)
Theorem comparison_shown_iff_texts_differ (replace_charrefs : text -> text)
  (user_code : text) :
  exists shown,
    analysis_section replace_charrefs user_code = Returns shown
    /\ (In (st_subheader ([128203%N] ++ lit " Code Comparison")) shown
        <-> strip user_code <> strip EXPECTED_HTML)
    /\ (strip user_code = strip EXPECTED_HTML ->
        In (st_success (check_mark ++ lit " Excellent match!")) shown).
Proof.
  destruct (analysis_section_parts replace_charrefs user_code)
    as (q & structure & Hq & _ & ->).
  destruct (similarity_facts user_code EXPECTED_HTML)
    as (q' & Hq' & [_ Hle] & Hone).
  rewrite Hq in Hq'. injection Hq' as <-.
  eexists. split; [reflexivity|]. split; [split|].
  - intros H. rewrite <- Hone. apply Qle_bool_1_false; [exact Hle|].
    parts H; part H. apply negb_true_iff. assumption.
  - intros H. rewrite <- Hone in H. apply Qle_bool_1_false in H; [|exact Hle].
    rewrite !in_app_iff. do 7 right. unfold code_comparison. rewrite H.
    cbn [negb]. right. left. reflexivity.
  - intros H. apply Hone in H.
    rewrite !in_app_iff. right. left. unfold result_col1.
    replace (Qle_bool (95 # 100) q) with true.
    + right. left. reflexivity.
    + symmetry. apply Qle_bool_iff. rewrite H. discriminate.
Qed.

(** X15. The analysis section writes that no strong indicator was
    detected exactly when the score is 0, and then it calls the text
    likely human-written. *)
Theorem no_indicator_message_iff_score_0 (replace_charrefs : text -> text)
  (user_code : text) :
  exists shown,
    analysis_section replace_charrefs user_code = Returns shown
    /\ (In (st_write (lit "No strong AI indicators detected")) shown
        <-> (fst (check_ai_indicators user_code) == 0)%Q)
    /\ (In (st_write (lit "No strong AI indicators detected")) shown ->
        In (st_info ([128100%N] ++ lit " Likely human-written")) shown).
Proof.
  destruct (analysis_section_parts replace_charrefs user_code)
    as (q & structure & _ & _ & ->).
  destruct (scorer_tiers user_code) as (_ & _ & _ & _ & _ & _ & _ & Hz).
  cbv zeta in Hz. rewrite length_zero_iff_nil in Hz.
  eexists. split; [reflexivity|].
  assert (Hnone : In (st_write (lit "No strong AI indicators detected"))
                    ([st_divider;
                      st_subheader ([128202%N] ++ lit " Analysis Results")]
                     ++ result_col1 q
                     ++ result_col2 (fst (check_ai_indicators user_code))
                     ++ result_col3 structure
                     ++ [st_divider]
                     ++ detail_col1 structure
                     ++ detail_col2 (snd (check_ai_indicators user_code))
                     ++ code_comparison q user_code)
                  <-> snd (check_ai_indicators user_code) = []).
  { split.
    - intros H. parts H; part H. reflexivity.
    - intros H. rewrite !in_app_iff. do 6 right. left. rewrite H.
      right. left. reflexivity. }
  split; [rewrite Hnone, Hz; reflexivity|].
  rewrite Hnone, <- Hz. intros H.
  rewrite !in_app_iff. do 2 right. left. unfold result_col2.
  replace (Qle_bool 7 (fst (check_ai_indicators user_code))) with false.
  - replace (Qle_bool 4 (fst (check_ai_indicators user_code))) with false.
    + right. left. reflexivity.
    + symmetry. destruct (Qle_bool 4 _) eqn:E; [|reflexivity].
      apply Qle_bool_iff in E. rewrite H in E.
      exfalso. revert E. apply Qlt_not_le. reflexivity.
  - symmetry. destruct (Qle_bool 7 _) eqn:E; [|reflexivity].
    apply Qle_bool_iff in E. rewrite H in E.
      exfalso. revert E. apply Qlt_not_le. reflexivity.
Qed.

(** X16. The analysis section reports that the structure could not be
    parsed exactly when the parser raises; it shows the structure score
    exactly when the parser does not. *)
Theorem parse_failure_message_iff_parser_raises
  (replace_charrefs : text -> text) (user_code : text) :
  exists shown,
    analysis_section replace_charrefs user_code = Returns shown
    /\ (In (st_error (lit "Could not parse HTML structure")) shown
        <-> exists e, BeautifulSoup replace_charrefs user_code = Raises e)
    /\ ((exists value, In (st_metric (lit "Structure Score") value) shown)
        <-> ~ exists e, BeautifulSoup replace_charrefs user_code = Raises e).
Proof.
  destruct (analysis_section_parts replace_charrefs user_code)
    as (q & structure & _ & Hs & ->).
  pose proof (analyze_none_iff_parser_raises replace_charrefs user_code)
    as Hnone.
  rewrite Hs in Hnone.
  eexists. split; [reflexivity|]. rewrite <- !Hnone. split; split.
  - intros H. parts H; part H. reflexivity.
  - intros [= ->]. rewrite !in_app_iff. do 5 right. left.
    right. left. reflexivity.
  - intros [value H] [= ->]. parts H; part H.
  - intros H. destruct structure as [structure|]; [|congruence].
    eexists. rewrite !in_app_iff. do 3 right. left. left. reflexivity.
Qed.

Section Sessions.

Variable replace_charrefs : text -> text.

(** One run: the analysis section is shown when the text is not blank and
    the button is clicked or [analyze] was set before; the run sets
    [analyze] when the button is clicked on a text that is not blank, and
    never unsets it. *)
Lemma script_run (clicked : bool) (user_code : text)
  (session_state : gmap string bool) :
  exists session_state' shown,
    analysis_section replace_charrefs user_code = Returns shown
    /\ script replace_charrefs clicked user_code session_state
       = Returns
           (session_state',
            if nonempty (strip user_code)
               && (clicked || analyze_set session_state)
            then shown
            else if clicked
                 then [st_error (lit "Please enter some code to analyze!")]
                 else [])
    /\ analyze_set session_state'
       = analyze_set session_state || clicked && nonempty (strip user_code).
Proof.
  destruct (analysis_section_parts replace_charrefs user_code)
    as (q & structure & _ & _ & Hshown).
  match type of Hshown with _ = Returns ?l => set (shown := l) in * end.
  clearbody shown.
  unfold script, analyze_button, analyze_set.
  destruct clicked, (nonempty (strip user_code)) eqn:Hne; cbn [andb orb].
  - exists (<["analyze"%string := true]> session_state), shown.
    rewrite lookup_insert_eq, bool_decide_eq_true_2 by reflexivity.
    cbn [andb]. rewrite Hshown, orb_true_r. cbn [bind app]. auto.
  - exists session_state, shown. rewrite andb_false_r, orb_false_r. auto.
  - exists session_state, shown. rewrite andb_true_r, orb_false_r.
    destruct (bool_decide (session_state !! "analyze"%string = Some true));
      [rewrite Hshown; cbn [bind app] |]; auto.
  - exists session_state, shown. rewrite andb_false_r, orb_false_r. auto.
Qed.

Lemma session_runs (interactions : list (bool * text)) :
  forall session_state,
    exists session_state',
      session replace_charrefs interactions session_state
      = Returns session_state'
      /\ analyze_set session_state'
         = analyze_set session_state || existsb starts_analysis interactions.
Proof.
  induction interactions as [|[clicked user_code] later IH];
    intros session_state; cbn [session existsb].
  - eexists. split; [reflexivity|]. rewrite orb_false_r. reflexivity.
  - destruct (script_run clicked user_code session_state)
      as (s1 & shown & _ & -> & H1).
    cbn [bind fst]. destruct (IH s1) as (s2 & -> & H2).
    eexists. split; [reflexivity|]. rewrite H2, H1.
    unfold starts_analysis. cbn [fst snd]. rewrite orb_assoc. reflexivity.
Qed.

End Sessions.

(** X17. After any sequence of interactions, a run shows the analysis
    section exactly when the text is not blank and the button is clicked
    in this run, or was clicked earlier on a text that was not blank, or
    [analyze] was set at the start; otherwise the run shows nothing, or,
    for a click, the request to enter some code. *)
Theorem analysis_shown_iff_text_and_click (replace_charrefs : text -> text)
  (interactions : list (bool * text)) (session_state : gmap string bool)
  (clicked : bool) (user_code : text) :
  exists before after shown,
    session replace_charrefs interactions session_state = Returns before
    /\ analysis_section replace_charrefs user_code = Returns shown
    /\ script replace_charrefs clicked user_code before
       = Returns
           (after,
            if nonempty (strip user_code)
               && (clicked
                   || existsb starts_analysis interactions
                   || analyze_set session_state)
            then shown
            else if clicked
                 then [st_error (lit "Please enter some code to analyze!")]
                 else []).
Proof.
  destruct (session_runs replace_charrefs interactions session_state)
    as (before & Hb & Hset).
  destruct (script_run replace_charrefs clicked user_code before)
    as (after & shown & Hs & Hrun & _).
  exists before, after, shown. split; [exact Hb|]. split; [exact Hs|].
  rewrite Hrun, Hset.
  rewrite (orb_comm (analyze_set session_state)), orb_assoc. reflexivity.
Qed.

Lemma Qle_scaled (n d : positive) (q : Q) (s m : Z) :
  (Z.pos n # d <= q)%Q -> (q * inject_Z s <= inject_Z (2 * m))%Q ->
  (0 <= s)%Z -> (Z.pos n * s <= Z.pos d * (2 * m))%Z.
Proof.
  intros H1 H2 Hs.
  assert (H : ((Z.pos n # d) * inject_Z s <= inject_Z (2 * m))%Q).
  { eapply Qle_trans; [|exact H2].
    apply Qmult_le_compat_r; [exact H1|].
    unfold Qle, inject_Z. simpl. lia. }
  unfold Qle, Qmult, inject_Z in H. simpl in H. lia.
Qed.

(** X18. An excellent match is reported only when the longer of the
    submitted text and the reference document, both stripped, is at most
    21/19 of the shorter, and a good match only when it is at most 3/2 of
    the shorter. *)
Theorem verdict_needs_similar_lengths (replace_charrefs : text -> text)
  (user_code : text) :
  let la := Z.of_nat (length (strip user_code)) in
  let lb := Z.of_nat (length (strip EXPECTED_HTML)) in
  exists shown,
    analysis_section replace_charrefs user_code = Returns shown
    /\ (In (st_success (check_mark ++ lit " Excellent match!")) shown ->
        (19 * Z.max la lb <= 21 * Z.min la lb)%Z)
    /\ (In (st_warning ([9888; 65039]%N
                        ++ lit " Good match with minor differences")) shown ->
        (2 * Z.max la lb <= 3 * Z.min la lb)%Z).
Proof.
  intros la lb.
  destruct (analysis_section_parts replace_charrefs user_code)
    as (q & structure & Hq & _ & ->).
  destruct (similarity_length_bound user_code EXPECTED_HTML)
    as (q' & Hq' & Hb).
  rewrite Hq in Hq'. injection Hq' as <-. fold la lb in Hb.
  eexists. split; [reflexivity|]. split; intros H; parts H; part H.
  - match goal with E : Qle_bool (95 # 100) q = true |- _ =>
      apply Qle_bool_iff in E;
      pose proof (Qle_scaled 95 100 q (la + lb) (Z.min la lb) E Hb
                    ltac:(lia)) end.
    lia.
  - match goal with E : Qle_bool (80 # 100) q = true |- _ =>
      apply Qle_bool_iff in E;
      pose proof (Qle_scaled 80 100 q (la + lb) (Z.min la lb) E Hb
                    ltac:(lia)) end.
    lia.
Qed.
